(** * Search-algorithm engine of the visualizer: a shallow embedding

    The development follows [client/src/lib/algorithms.ts] and the helper
    functions of the shared schema ([gridCellToId], [idToGridCell]).

    Conventions of the embedding.
    - A JavaScript number is a [num]: an exact rational [Fin q] or [NaN].
      Rounding of floating-point arithmetic is not modelled; [Infinity]
      appears only in IDA* and has its own type [bnd].
    - [Math.sqrt] is a parameter of the development ([Math_sqrt]).
    - A [Record<string, T>] is a [gmap string T]; node identifiers are
      assumed not to be names of properties of [Object.prototype].
    - A [Set<string>] is the list of its elements in insertion order.
    - Loops run on fuel: a run is [Returned r], [Thrown msg] or
      [OutOfFuel]; the wall-clock field [executionTimeMs] is left out. *)

From Stdlib Require Import ZArith QArith Qround String Ascii List
  DecimalString DecimalZ DecimalN Lia.
From stdpp Require Import gmap strings list numbers.

(** ** Numbers *)

Inductive num : Type :=
  | Fin (q : Q)
  | NaN.

Definition nadd (a b : num) : num :=
  match a, b with
  | Fin x, Fin y => Fin (x + y)
  | _, _ => NaN
  end.

(** [a < b]; every comparison with [NaN] is false. *)
Definition nlt (a b : num) : bool :=
  match a, b with
  | Fin x, Fin y => negb (Qle_bool y x)
  | _, _ => false
  end.

(** [a > b] *)
Definition ngt (a b : num) : bool := nlt b a.

(** [x || 0] on an optional number: [undefined], [0] and [NaN] are falsy. *)
Definition orZero (x : option num) : num :=
  match x with
  | Some (Fin q) => if Qeq_bool q 0 then Fin 0 else Fin q
  | Some NaN => Fin 0
  | None => Fin 0
  end.

(** [m[k]] used as a number: [undefined] behaves as [NaN] in arithmetic. *)
Definition numOf (x : option num) : num :=
  match x with
  | Some v => v
  | None => NaN
  end.

(** A quantity that may be [Infinity] (IDA* thresholds). *)
Inductive bnd : Type :=
  | Bnd (x : num)
  | Infinity.

Definition blt (a b : bnd) : bool :=
  match a, b with
  | Bnd x, Bnd y => nlt x y
  | Bnd (Fin _), Infinity => true
  | _, _ => false
  end.

(** Truthiness of a string: only the empty string is falsy. *)
Definition truthy (s : string) : bool := negb (String.eqb s "").

(** ** Outcome of a run *)

Inductive outcome (A : Type) : Type :=
  | Returned (a : A)
  | Thrown (msg : string)
  | OutOfFuel.
Arguments Returned {A} a.
Arguments Thrown {A} msg.
Arguments OutOfFuel {A}.

(** ** Stable sort, as [Array.prototype.sort] with a comparator

    [gtb x y] stands for [compare(x, y) > 0]. *)

Section Sort.
Context {A : Type} (gtb : A → A → bool).

Fixpoint sort_insert (x : A) (l : list A) : list A :=
  match l with
  | [] => [x]
  | y :: l' => if gtb x y then y :: sort_insert x l' else x :: y :: l'
  end.

Definition stable_sort (l : list A) : list A := foldr sort_insert [] l.
End Sort.

(** ** class PriorityQueue *)

Module PriorityQueue.
Definition t : Type := list (string * num).

Definition empty : t := [].

(** [(a, b) => a.priority - b.priority] is positive *)
Definition cmp_gt (a b : string * num) : bool := ngt (snd a) (snd b).

Definition enqueue (item : string) (priority : num) (items : t) : t :=
  stable_sort cmp_gt (items ++ [(item, priority)]).

Definition dequeue (items : t) : option string * t :=
  match items with
  | [] => (None, [])
  | x :: rest => (Some (fst x), rest)
  end.

Definition isEmpty (items : t) : bool :=
  match items with [] => true | _ => false end.

Definition toArray (items : t) : list string := map fst items.
End PriorityQueue.

(** ** Problem model (shared schema) *)

Record GridCell : Type := {
  cell_row : Z;
  cell_col : Z;
  cell_isObstacle : bool;
  cell_isStart : bool;
  cell_isGoal : bool;
  cell_weight : Q
}.

Record Coord : Type := { row : Z; col : Z }.

Record GridProblem : Type := {
  rows : Z;
  cols : Z;
  cells : list GridCell;
  start : Coord;
  goal : Coord;
  allowDiagonal : bool
}.

Record GraphNode : Type := {
  node_id : string;
  node_x : Q;
  node_y : Q;
  node_label : option string;
  node_isStart : bool;
  node_isGoal : bool;
  node_heuristic : option Q
}.

Record GraphEdge : Type := {
  edge_from : string;
  edge_to : string;
  edge_weight : Q
}.

Record GraphProblem : Type := {
  nodes : list GraphNode;
  edges : list GraphEdge;
  startNodeId : string;
  goalNodeId : string;
  isDirected : bool
}.

Inductive Problem : Type :=
  | Grid (g : GridProblem)
  | Graph (g : GraphProblem).

(** ** Node identifiers of grid cells *)

(** Template-literal rendering of an integer. *)
Definition numToString (z : Z) : string := NilZero.string_of_int (Z.to_int z).

Definition gridCellToId (r c : Z) : string :=
  numToString r +:+ "-" +:+ numToString c.

(** [s.split(sep)] for a one-character separator. *)
Fixpoint split (sep : ascii) (s : string) : list string :=
  match s with
  | EmptyString => [EmptyString]
  | String ch s' =>
      if Ascii.eqb ch sep then EmptyString :: split sep s'
      else match split sep s' with
           | [] => [String ch EmptyString]
           | h :: t => String ch h :: t
           end
  end.

(** [Number(s)] on the strings that occur as pieces of an identifier: a run
    of decimal digits is its value, the empty string is 0, and anything else
    is [NaN] (here [None]). *)
Definition Number (s : string) : option Z :=
  option_map (fun d => Z.of_N (N.of_uint d)) (NilEmpty.uint_of_string s).

(** Decoded coordinates; [None] stands for [NaN] or [undefined]. *)
Record Decoded : Type := { dec_row : option Z; dec_col : option Z }.

Definition idToGridCell (id : string) : Decoded :=
  let parts := map Number (split "-" id) in
  {| dec_row := mjoin (parts !! 0%nat); dec_col := mjoin (parts !! 1%nat) |}.

(** ** Neighbor resolver *)

Definition directions (diag : bool) : list (Z * Z) :=
  if diag then
    [(-1, -1); (-1, 0); (-1, 1);
     (0, -1);           (0, 1);
     (1, -1);  (1, 0);  (1, 1)]%Z
  else
    [(-1, 0);
     (0, -1); (0, 1);
     (1, 0)]%Z.

Definition findCell (problem : GridProblem) (r c : Z) : option GridCell :=
  find (fun cl => (cell_row cl =? r)%Z && (cell_col cl =? c)%Z) (cells problem).

(** [Math.abs(dr) + Math.abs(dc) === 2 ? 1.414 : 1] *)
Definition dirCost (dr dc : Z) : Q :=
  if (Z.abs dr + Z.abs dc =? 2)%Z then 1414 # 1000 else 1.

Definition Neighbor : Type := string * num.

(** One iteration of the loop over [directions]. *)
Definition gridVisit (problem : GridProblem) (r c : option Z)
    (neighbors : list Neighbor) (d : Z * Z) : list Neighbor :=
  match r, c with
  | Some r, Some c =>
      let newRow := (r + fst d)%Z in
      let newCol := (c + snd d)%Z in
      if (0 <=? newRow)%Z && (newRow <? rows problem)%Z &&
         (0 <=? newCol)%Z && (newCol <? cols problem)%Z then
        match findCell problem newRow newCol with
        | Some cl =>
            if negb (cell_isObstacle cl) then
              neighbors ++ [(gridCellToId newRow newCol,
                             Fin (dirCost (fst d) (snd d) * cell_weight cl))]
            else neighbors
        | None => neighbors
        end
      else neighbors
  | _, _ => neighbors
  end.

Definition getGridNeighbors (problem : GridProblem) (nodeId : string)
    : list Neighbor :=
  let cell := idToGridCell nodeId in
  fold_left (gridVisit problem (dec_row cell) (dec_col cell))
    (directions (allowDiagonal problem)) [].

Definition graphVisit (problem : GraphProblem) (nodeId : string)
    (neighbors : list Neighbor) (e : GraphEdge) : list Neighbor :=
  let neighbors :=
    if String.eqb (edge_from e) nodeId
    then neighbors ++ [(edge_to e, Fin (edge_weight e))] else neighbors in
  if negb (isDirected problem) && String.eqb (edge_to e) nodeId
  then neighbors ++ [(edge_from e, Fin (edge_weight e))] else neighbors.

Definition getGraphNeighbors (problem : GraphProblem) (nodeId : string)
    : list Neighbor :=
  fold_left (graphVisit problem nodeId) (edges problem) [].

Definition getNeighbors (problem : Problem) (nodeId : string) : list Neighbor :=
  match problem with
  | Grid g => getGridNeighbors g nodeId
  | Graph g => getGraphNeighbors g nodeId
  end.

Definition getStartId (problem : Problem) : string :=
  match problem with
  | Grid g => gridCellToId (row (start g)) (col (start g))
  | Graph g => startNodeId g
  end.

Definition getGoalId (problem : Problem) : string :=
  match problem with
  | Grid g => gridCellToId (row (goal g)) (col (goal g))
  | Graph g => goalNodeId g
  end.

(** ** Search steps and results *)

Record SearchStep : Type := {
  stepNumber : nat;
  currentNode : string;
  frontier : list string;
  visited : list string;
  parentMap : gmap string string;
  gValues : gmap string num;
  hValues : gmap string num;
  fValues : gmap string num;
  isComplete : bool;
  foundGoal : bool;
  path : option (list string)
}.

Record SearchResult : Type := {
  algorithm : string;
  problem : Problem;
  steps : list SearchStep;
  finalPath : option (list string);
  pathCost : option num;
  nodesVisited : nat;
  memoryUsageKb : Z;
  success : bool
}.

Definition createStep (stepNumber : nat) (currentNode : string)
    (frontier visited : list string) (parentMap : gmap string string)
    (gValues hValues fValues : gmap string num)
    (isComplete foundGoal : bool) (path : option (list string)) : SearchStep :=
  {| stepNumber := stepNumber; currentNode := currentNode;
     frontier := frontier; visited := visited; parentMap := parentMap;
     gValues := gValues; hValues := hValues; fValues := fValues;
     isComplete := isComplete; foundGoal := foundGoal; path := path |}.

(** [Math.round(a / b)] for integers [a >= 0], [b > 0]. *)
Definition roundDiv (a b : Z) : Z := ((2 * a + b) / (2 * b))%Z.

(** The two shapes of result record that every algorithm returns;
    [perNode] is 100, or 50 for IDA*. *)
Definition succeeded (alg : string) (problem : Problem)
    (steps : list SearchStep) (finalPath : list string)
    (pathCost : option num) (visitedSize : nat) (perNode : Z) : SearchResult :=
  {| algorithm := alg; problem := problem; steps := steps;
     finalPath := Some finalPath; pathCost := pathCost;
     nodesVisited := visitedSize;
     memoryUsageKb := roundDiv (Z.of_nat visitedSize * perNode) 1024;
     success := true |}.

Definition failed (alg : string) (problem : Problem)
    (steps : list SearchStep) (visitedSize : nat) (perNode : Z) : SearchResult :=
  {| algorithm := alg; problem := problem; steps := steps;
     finalPath := None; pathCost := None;
     nodesVisited := visitedSize;
     memoryUsageKb := roundDiv (Z.of_nat visitedSize * perNode) 1024;
     success := false |}.

(** ** Sets of identifiers ([Set<string>], [Array.prototype.includes]) *)

Definition has (s : list string) (x : string) : bool := bool_decide (x ∈ s).

Definition add (s : list string) (x : string) : list string :=
  if has s x then s else s ++ [x].

(** ** Path reconstruction *)

Fixpoint reconstructLoop (fuel : nat) (parentMap : gmap string string)
    (current : string) (path : list string) : option (list string) :=
  match fuel with
  | O => None
  | S fuel' =>
      if truthy current then
        match parentMap !! current with
        | Some p => reconstructLoop fuel' parentMap p (current :: path)
        | None => Some (current :: path)
        end
      else Some path
  end.

(** The walk visits keys of [parentMap]; when it has not ended after
    [size parentMap] parent steps it is on a cycle and never ends:
    the result is then [None]. *)
Definition reconstructPath (parentMap : gmap string string) (goalId : string)
    : option (list string) :=
  reconstructLoop (S (size parentMap)) parentMap goalId [].

(** The cost loop of [runGreedy]: for each consecutive pair the first
    neighbor entry with the right id, when there is one. *)
Fixpoint sumPathCost (problem : Problem) (path : list string) (pathCost : num)
    : num :=
  match path with
  | a :: (b :: _) as rest =>
      let edge := find (fun n => String.eqb (fst n) b) (getNeighbors problem a) in
      sumPathCost problem rest
        (match edge with
         | Some e => nadd pathCost (snd e)
         | None => pathCost
         end)
  | _ => pathCost
  end.

(** ** Loops and live state

    A [while] loop runs its body on fuel.  The body yields [inl s'] to go
    round again with state [s'] (the end of the body, or [continue]) and
    [inr o] where the source leaves the function. *)

Fixpoint while {S R : Type} (fuel : nat) (body : S → S + outcome R) (s : S)
    : outcome R :=
  match fuel with
  | O => OutOfFuel
  | S fuel' =>
      match body s with
      | inl s' => while fuel' body s'
      | inr o => o
      end
  end.

(** The local variables of one run.  [F] is the type of the frontier: an
    array (queue, stack, beam), a [PriorityQueue] or, for hill climbing,
    the current node.  Maps that an algorithm does not have stay empty. *)
Record Live (F : Type) : Type := {
  l_frontier : F;
  l_visited : list string;
  l_parent : gmap string string;
  l_g : gmap string num;
  l_h : gmap string num;
  l_f : gmap string num;
  l_steps : list SearchStep;
  l_stepNumber : nat
}.
Arguments l_frontier {F} _.
Arguments l_visited {F} _.
Arguments l_parent {F} _.
Arguments l_g {F} _.
Arguments l_h {F} _.
Arguments l_f {F} _.
Arguments l_steps {F} _.
Arguments l_stepNumber {F} _.

Section LiveUpdate.
Context {F : Type}.

Definition withFrontier {G : Type} (fr : G) (st : Live F) : Live G :=
  {| l_frontier := fr; l_visited := l_visited st; l_parent := l_parent st;
     l_g := l_g st; l_h := l_h st; l_f := l_f st;
     l_steps := l_steps st; l_stepNumber := l_stepNumber st |}.

Definition withVisited (v : list string) (st : Live F) : Live F :=
  {| l_frontier := l_frontier st; l_visited := v; l_parent := l_parent st;
     l_g := l_g st; l_h := l_h st; l_f := l_f st;
     l_steps := l_steps st; l_stepNumber := l_stepNumber st |}.

Definition withParent (pm : gmap string string) (st : Live F) : Live F :=
  {| l_frontier := l_frontier st; l_visited := l_visited st; l_parent := pm;
     l_g := l_g st; l_h := l_h st; l_f := l_f st;
     l_steps := l_steps st; l_stepNumber := l_stepNumber st |}.

Definition withG (g : gmap string num) (st : Live F) : Live F :=
  {| l_frontier := l_frontier st; l_visited := l_visited st;
     l_parent := l_parent st; l_g := g; l_h := l_h st; l_f := l_f st;
     l_steps := l_steps st; l_stepNumber := l_stepNumber st |}.

Definition withH (h : gmap string num) (st : Live F) : Live F :=
  {| l_frontier := l_frontier st; l_visited := l_visited st;
     l_parent := l_parent st; l_g := l_g st; l_h := h; l_f := l_f st;
     l_steps := l_steps st; l_stepNumber := l_stepNumber st |}.

Definition withF (f : gmap string num) (st : Live F) : Live F :=
  {| l_frontier := l_frontier st; l_visited := l_visited st;
     l_parent := l_parent st; l_g := l_g st; l_h := l_h st; l_f := f;
     l_steps := l_steps st; l_stepNumber := l_stepNumber st |}.

(** [steps.push(step)] *)
Definition pushStep (step : SearchStep) (st : Live F) : Live F :=
  {| l_frontier := l_frontier st; l_visited := l_visited st;
     l_parent := l_parent st; l_g := l_g st; l_h := l_h st; l_f := l_f st;
     l_steps := l_steps st ++ [step]; l_stepNumber := l_stepNumber st |}.

(** [stepNumber++], after the step has been built *)
Definition nextStep (st : Live F) : Live F :=
  {| l_frontier := l_frontier st; l_visited := l_visited st;
     l_parent := l_parent st; l_g := l_g st; l_h := l_h st; l_f := l_f st;
     l_steps := l_steps st; l_stepNumber := S (l_stepNumber st) |}.
End LiveUpdate.

(** The state in which every algorithm starts, after its first step has
    been recorded. *)
Definition initial {F : Type} (fr : F) (v : list string)
    (g h f : gmap string num) (first : SearchStep) : Live F :=
  {| l_frontier := fr; l_visited := v; l_parent := ∅;
     l_g := g; l_h := h; l_f := f; l_steps := [first]; l_stepNumber := 1 |}.

Section Engine.

(** [Math.sqrt], on exact rationals. *)
Variable Math_sqrt : Q → Q.

(** ** Heuristic *)

Definition manhattanDistance (id goalId : string) (problem : Problem) : num :=
  match problem with
  | Grid _ =>
      let current := idToGridCell id in
      let goal := idToGridCell goalId in
      match dec_row current, dec_row goal, dec_col current, dec_col goal with
      | Some r, Some gr, Some c, Some gc =>
          Fin (inject_Z (Z.abs (r - gr) + Z.abs (c - gc)))
      | _, _, _, _ => NaN
      end
  | Graph g =>
      let currentNode := find (fun n => String.eqb (node_id n) id) (nodes g) in
      let goalNode := find (fun n => String.eqb (node_id n) goalId) (nodes g) in
      match currentNode, goalNode with
      | Some cn, Some gn =>
          Fin (Math_sqrt ((node_x cn - node_x gn) * (node_x cn - node_x gn) +
                          (node_y cn - node_y gn) * (node_y cn - node_y gn))
               / 50)
      | _, _ => Fin 0
      end
  end.


(** ** Breadth-first search *)

Definition bfsVisit (current : string) (st : Live (list string)) (n : Neighbor)
    : Live (list string) :=
  if negb (has (l_visited st) (fst n)) && negb (has (l_frontier st) (fst n))
  then withParent (<[fst n := current]> (l_parent st))
         (withFrontier (l_frontier st ++ [fst n]) st)
  else st.

Definition bfsBody (problem : Problem) (goalId : string)
    (st : Live (list string)) : Live (list string) + outcome SearchResult :=
  match l_frontier st with
  | [] =>
      inr (Returned (failed "bfs" problem (l_steps st)
                       (length (l_visited st)) 100))
  | current :: queue =>
      let st := withFrontier queue st in
      if has (l_visited st) current then inl st
      else
        let st := withVisited (add (l_visited st) current) st in
        if String.eqb current goalId then
          match reconstructPath (l_parent st) goalId with
          | None => inr OutOfFuel
          | Some path =>
              let st := pushStep
                (createStep (l_stepNumber st) current (l_frontier st)
                   (l_visited st) (l_parent st) ∅ ∅ ∅ true true (Some path))
                st in
              inr (Returned
                     (succeeded "bfs" problem (l_steps st) path
                        (Some (Fin (inject_Z (Z.of_nat (length path) - 1))))
                        (length (l_visited st)) 100))
          end
        else
          let st := fold_left (bfsVisit current)
                      (getNeighbors problem current) st in
          inl (nextStep (pushStep
                 (createStep (l_stepNumber st) current (l_frontier st)
                    (l_visited st) (l_parent st) ∅ ∅ ∅ false false None)
                 st))
  end.

Definition runBFS (fuel : nat) (problem : Problem) : outcome SearchResult :=
  let startId := getStartId problem in
  let goalId := getGoalId problem in
  while fuel (bfsBody problem goalId)
    (initial [startId] [] ∅ ∅ ∅
       (createStep 0 startId [startId] [] ∅ ∅ ∅ ∅ false false None)).

(** ** Depth-first search

    The stack is kept with its top first; a step records it in array
    order, bottom first. *)

Definition dfsVisit (current : string) (st : Live (list string)) (n : Neighbor)
    : Live (list string) :=
  if negb (has (l_visited st) (fst n)) then
    let st := withFrontier (fst n :: l_frontier st) st in
    match l_parent st !! fst n with
    | Some p =>
        if truthy p then st
        else withParent (<[fst n := current]> (l_parent st)) st
    | None => withParent (<[fst n := current]> (l_parent st)) st
    end
  else st.

Definition dfsBody (problem : Problem) (goalId : string)
    (st : Live (list string)) : Live (list string) + outcome SearchResult :=
  match l_frontier st with
  | [] =>
      inr (Returned (failed "dfs" problem (l_steps st)
                       (length (l_visited st)) 100))
  | current :: stack =>
      let st := withFrontier stack st in
      if has (l_visited st) current then inl st
      else
        let st := withVisited (add (l_visited st) current) st in
        if String.eqb current goalId then
          match reconstructPath (l_parent st) goalId with
          | None => inr OutOfFuel
          | Some path =>
              let st := pushStep
                (createStep (l_stepNumber st) current (rev (l_frontier st))
                   (l_visited st) (l_parent st) ∅ ∅ ∅ true true (Some path))
                st in
              inr (Returned
                     (succeeded "dfs" problem (l_steps st) path
                        (Some (Fin (inject_Z (Z.of_nat (length path) - 1))))
                        (length (l_visited st)) 100))
          end
        else
          let st := fold_left (dfsVisit current)
                      (rev (getNeighbors problem current)) st in
          inl (nextStep (pushStep
                 (createStep (l_stepNumber st) current (rev (l_frontier st))
                    (l_visited st) (l_parent st) ∅ ∅ ∅ false false None)
                 st))
  end.

Definition runDFS (fuel : nat) (problem : Problem) : outcome SearchResult :=
  let startId := getStartId problem in
  let goalId := getGoalId problem in
  while fuel (dfsBody problem goalId)
    (initial [startId] [] ∅ ∅ ∅
       (createStep 0 startId [startId] [] ∅ ∅ ∅ ∅ false false None)).

(** ** Uniform-cost search *)

(** [gValues[id] === undefined || newG < gValues[id]] *)
Definition improves (newG : num) (old : option num) : bool :=
  match old with
  | None => true
  | Some o => nlt newG o
  end.

Definition ucsVisit (current : string) (st : Live PriorityQueue.t)
    (n : Neighbor) : Live PriorityQueue.t :=
  if negb (has (l_visited st) (fst n)) then
    let newG := nadd (numOf (l_g st !! current)) (snd n) in
    if improves newG (l_g st !! fst n) then
      withFrontier (PriorityQueue.enqueue (fst n) newG (l_frontier st))
        (withParent (<[fst n := current]> (l_parent st))
           (withG (<[fst n := newG]> (l_g st)) st))
    else st
  else st.

Definition ucsBody (problem : Problem) (goalId : string)
    (st : Live PriorityQueue.t) : Live PriorityQueue.t + outcome SearchResult :=
  match PriorityQueue.dequeue (l_frontier st) with
  | (None, _) =>
      inr (Returned (failed "ucs" problem (l_steps st)
                       (length (l_visited st)) 100))
  | (Some current, pq) =>
      let st := withFrontier pq st in
      if has (l_visited st) current then inl st
      else
        let st := withVisited (add (l_visited st) current) st in
        if String.eqb current goalId then
          match reconstructPath (l_parent st) goalId with
          | None => inr OutOfFuel
          | Some path =>
              let st := pushStep
                (createStep (l_stepNumber st) current
                   (PriorityQueue.toArray (l_frontier st)) (l_visited st)
                   (l_parent st) (l_g st) ∅ ∅ true true (Some path))
                st in
              inr (Returned
                     (succeeded "ucs" problem (l_steps st) path
                        (l_g st !! goalId) (length (l_visited st)) 100))
          end
        else
          let st := fold_left (ucsVisit current)
                      (getNeighbors problem current) st in
          inl (nextStep (pushStep
                 (createStep (l_stepNumber st) current
                    (PriorityQueue.toArray (l_frontier st)) (l_visited st)
                    (l_parent st) (l_g st) ∅ ∅ false false None)
                 st))
  end.

Definition runUCS (fuel : nat) (problem : Problem) : outcome SearchResult :=
  let startId := getStartId problem in
  let goalId := getGoalId problem in
  let pq := PriorityQueue.enqueue startId (Fin 0) PriorityQueue.empty in
  let gValues : gmap string num := {[ startId := Fin 0 ]} in
  while fuel (ucsBody problem goalId)
    (initial pq [] gValues ∅ ∅
       (createStep 0 startId [startId] [] ∅ gValues ∅ ∅ false false None)).

(** ** Greedy best-first search *)

Definition greedyVisit (problem : Problem) (goalId current : string)
    (st : Live PriorityQueue.t) (n : Neighbor) : Live PriorityQueue.t :=
  if negb (has (l_visited st) (fst n)) then
    let hVal := manhattanDistance (fst n) goalId problem in
    let st := withH (<[fst n := hVal]> (l_h st)) st in
    let st :=
      withG (<[fst n := nadd (orZero (l_g st !! current)) (snd n)]> (l_g st))
        st in
    let st := withParent (<[fst n := current]> (l_parent st)) st in
    withFrontier (PriorityQueue.enqueue (fst n) hVal (l_frontier st)) st
  else st.

Definition greedyBody (problem : Problem) (goalId : string)
    (st : Live PriorityQueue.t) : Live PriorityQueue.t + outcome SearchResult :=
  match PriorityQueue.dequeue (l_frontier st) with
  | (None, _) =>
      inr (Returned (failed "greedy" problem (l_steps st)
                       (length (l_visited st)) 100))
  | (Some current, pq) =>
      let st := withFrontier pq st in
      if has (l_visited st) current then inl st
      else
        let st := withVisited (add (l_visited st) current) st in
        if String.eqb current goalId then
          match reconstructPath (l_parent st) goalId with
          | None => inr OutOfFuel
          | Some path =>
              let pathCost := sumPathCost problem path (Fin 0) in
              let st := pushStep
                (createStep (l_stepNumber st) current
                   (PriorityQueue.toArray (l_frontier st)) (l_visited st)
                   (l_parent st) (l_g st) (l_h st) (l_h st) true true
                   (Some path))
                st in
              inr (Returned
                     (succeeded "greedy" problem (l_steps st) path
                        (Some pathCost) (length (l_visited st)) 100))
          end
        else
          let st := fold_left (greedyVisit problem goalId current)
                      (getNeighbors problem current) st in
          inl (nextStep (pushStep
                 (createStep (l_stepNumber st) current
                    (PriorityQueue.toArray (l_frontier st)) (l_visited st)
                    (l_parent st) (l_g st) (l_h st) (l_h st) false false None)
                 st))
  end.

Definition runGreedy (fuel : nat) (problem : Problem) : outcome SearchResult :=
  let startId := getStartId problem in
  let goalId := getGoalId problem in
  let h := manhattanDistance startId goalId problem in
  let pq := PriorityQueue.enqueue startId h PriorityQueue.empty in
  let hValues : gmap string num := {[ startId := h ]} in
  let gValues : gmap string num := {[ startId := Fin 0 ]} in
  while fuel (greedyBody problem goalId)
    (initial pq [] gValues hValues ∅
       (createStep 0 startId [startId] [] ∅ gValues hValues hValues
          false false None)).

(** ** A* *)

Definition astarVisit (problem : Problem) (goalId current : string)
    (st : Live PriorityQueue.t) (n : Neighbor) : Live PriorityQueue.t :=
  if negb (has (l_visited st) (fst n)) then
    let newG := nadd (numOf (l_g st !! current)) (snd n) in
    if improves newG (l_g st !! fst n) then
      let st := withG (<[fst n := newG]> (l_g st)) st in
      let hVal := manhattanDistance (fst n) goalId problem in
      let st := withH (<[fst n := hVal]> (l_h st)) st in
      let st := withF (<[fst n := nadd newG hVal]> (l_f st)) st in
      let st := withParent (<[fst n := current]> (l_parent st)) st in
      withFrontier
        (PriorityQueue.enqueue (fst n) (nadd newG hVal) (l_frontier st)) st
    else st
  else st.

Definition astarBody (problem : Problem) (goalId : string)
    (st : Live PriorityQueue.t) : Live PriorityQueue.t + outcome SearchResult :=
  match PriorityQueue.dequeue (l_frontier st) with
  | (None, _) =>
      inr (Returned (failed "astar" problem (l_steps st)
                       (length (l_visited st)) 100))
  | (Some current, pq) =>
      let st := withFrontier pq st in
      if has (l_visited st) current then inl st
      else
        let st := withVisited (add (l_visited st) current) st in
        if String.eqb current goalId then
          match reconstructPath (l_parent st) goalId with
          | None => inr OutOfFuel
          | Some path =>
              let st := pushStep
                (createStep (l_stepNumber st) current
                   (PriorityQueue.toArray (l_frontier st)) (l_visited st)
                   (l_parent st) (l_g st) (l_h st) (l_f st) true true
                   (Some path))
                st in
              inr (Returned
                     (succeeded "astar" problem (l_steps st) path
                        (l_g st !! goalId) (length (l_visited st)) 100))
          end
        else
          let st := fold_left (astarVisit problem goalId current)
                      (getNeighbors problem current) st in
          inl (nextStep (pushStep
                 (createStep (l_stepNumber st) current
                    (PriorityQueue.toArray (l_frontier st)) (l_visited st)
                    (l_parent st) (l_g st) (l_h st) (l_f st) false false None)
                 st))
  end.

Definition runAStar (fuel : nat) (problem : Problem) : outcome SearchResult :=
  let startId := getStartId problem in
  let goalId := getGoalId problem in
  let h := manhattanDistance startId goalId problem in
  let pq := PriorityQueue.enqueue startId h PriorityQueue.empty in
  let gValues : gmap string num := {[ startId := Fin 0 ]} in
  let hValues : gmap string num := {[ startId := h ]} in
  let fValues : gmap string num := {[ startId := h ]} in
  while fuel (astarBody problem goalId)
    (initial pq [] gValues hValues fValues
       (createStep 0 startId [startId] [] ∅ gValues hValues fValues
          false false None)).

(** ** Hill climbing

    The frontier of the live state is the variable [current]. *)

Definition hillVisit (problem : Problem) (goalId current : string)
    (acc : Live string * num * option string) (n : Neighbor)
    : Live string * num * option string :=
  let '(st, bestH, bestNeighbor) := acc in
  if negb (has (l_visited st) (fst n)) then
    let h := manhattanDistance (fst n) goalId problem in
    let st := withH (<[fst n := h]> (l_h st)) st in
    let st :=
      withG (<[fst n := nadd (orZero (l_g st !! current)) (snd n)]> (l_g st))
        st in
    if nlt h bestH then (st, h, Some (fst n))
    else (st, bestH, bestNeighbor)
  else acc.

(** The neighbor that passes the test [!bestNeighbor], if any. *)
Definition chosen (bestNeighbor : option string) : option string :=
  match bestNeighbor with
  | Some b => if truthy b then Some b else None
  | None => None
  end.

Definition hillBody (problem : Problem) (goalId : string) (st : Live string)
    : Live string + outcome SearchResult :=
  let current := l_frontier st in
  if String.eqb current goalId then
    match reconstructPath (l_parent st) goalId with
    | None => inr OutOfFuel
    | Some path =>
        inr (Returned
               (succeeded "hillClimbing" problem (l_steps st) path
                  (l_g st !! goalId) (length (l_visited st)) 100))
    end
  else
    let '(st, _, bestNeighbor) :=
      fold_left (hillVisit problem goalId current)
        (getNeighbors problem current)
        (st, numOf (l_h st !! current), None) in
    match chosen bestNeighbor with
    | None =>
        let st := pushStep
          (createStep (l_stepNumber st) current [] (l_visited st)
             (l_parent st) (l_g st) (l_h st) (l_h st) true false None)
          st in
        inr (Returned (failed "hillClimbing" problem (l_steps st)
                         (length (l_visited st)) 100))
    | Some best =>
        let st := withParent (<[best := current]> (l_parent st)) st in
        let st := withFrontier best st in
        let st := withVisited (add (l_visited st) best) st in
        inl (nextStep (pushStep
               (createStep (l_stepNumber st) best [] (l_visited st)
                  (l_parent st) (l_g st) (l_h st) (l_h st) false
                  (String.eqb best goalId) None)
               st))
    end.

Definition runHillClimbing (fuel : nat) (problem : Problem)
    : outcome SearchResult :=
  let startId := getStartId problem in
  let goalId := getGoalId problem in
  let hValues : gmap string num :=
    {[ startId := manhattanDistance startId goalId problem ]} in
  let gValues : gmap string num := {[ startId := Fin 0 ]} in
  while fuel (hillBody problem goalId)
    (initial startId [startId] gValues hValues ∅
       (createStep 0 startId [] [startId] ∅ gValues hValues hValues
          false false None)).

(** ** Beam search *)

Record Candidate : Type := {
  cand_id : string;
  cand_h : num;
  cand_parent : string
}.

Definition beamVisit (problem : Problem) (goalId current : string)
    (acc : Live (list string) * list Candidate) (n : Neighbor)
    : Live (list string) * list Candidate :=
  let '(st, candidates) := acc in
  if negb (has (l_visited st) (fst n)) then
    let h := manhattanDistance (fst n) goalId problem in
    let st := withH (<[fst n := h]> (l_h st)) st in
    let st :=
      withG (<[fst n := nadd (orZero (l_g st !! current)) (snd n)]> (l_g st))
        st in
    (st, candidates ++
           [{| cand_id := fst n; cand_h := h; cand_parent := current |}])
  else acc.

(** The loop over the members of the beam: [inl] as soon as a member is
    the goal (with the state as it is at that moment), [inr] when the whole
    beam has been expanded. *)
Fixpoint beamScan (problem : Problem) (goalId : string) (beam : list string)
    (st : Live (list string)) (candidates : list Candidate)
    : Live (list string) + Live (list string) * list Candidate :=
  match beam with
  | [] => inr (st, candidates)
  | current :: rest =>
      if String.eqb current goalId then inl st
      else
        let '(st, candidates) :=
          fold_left (beamVisit problem goalId current)
            (getNeighbors problem current) (st, candidates) in
        beamScan problem goalId rest st candidates
  end.

(** [(a, b) => a.h - b.h] is positive *)
Definition cand_gt (a b : Candidate) : bool := ngt (cand_h a) (cand_h b).

(** [visited.add(c.id); parentMap[c.id] = c.parent] *)
Definition beamKeep (st : Live (list string)) (c : Candidate)
    : Live (list string) :=
  withParent (<[cand_id c := cand_parent c]> (l_parent st))
    (withVisited (add (l_visited st) (cand_id c)) st).

(** [beam[0]]; on an empty beam it is [undefined], rendered here as the
    empty string. *)
Definition beamHead (beam : list string) : string := hd ""%string beam.

Definition beamBody (problem : Problem) (beamWidth : nat)
    (startId goalId : string) (st : Live (list string))
    : Live (list string) + outcome SearchResult :=
  let beam := l_frontier st in
  match beam with
  | [] =>
      inr (Returned (failed "beamSearch" problem (l_steps st)
                       (length (l_visited st)) 100))
  | _ :: _ =>
      match beamScan problem goalId beam st [] with
      | inl st =>
          match reconstructPath (l_parent st) goalId with
          | None => inr OutOfFuel
          | Some path =>
              let st := pushStep
                (createStep (l_stepNumber st) goalId beam (l_visited st)
                   (l_parent st) (l_g st) (l_h st) (l_h st) true true
                   (Some path))
                st in
              inr (Returned
                     (succeeded "beamSearch" problem (l_steps st) path
                        (l_g st !! goalId) (length (l_visited st)) 100))
          end
      | inr (st, candidates) =>
          match candidates with
          | [] =>
              let st := pushStep
                (createStep (l_stepNumber st)
                   (if truthy (beamHead beam) then beamHead beam else startId)
                   [] (l_visited st) (l_parent st) (l_g st) (l_h st) (l_h st)
                   true false None)
                st in
              inr (Returned (failed "beamSearch" problem (l_steps st)
                               (length (l_visited st)) 100))
          | _ :: _ =>
              let kept := take beamWidth (stable_sort cand_gt candidates) in
              let beam := map cand_id kept in
              let st := withFrontier beam st in
              let st := fold_left beamKeep kept st in
              inl (nextStep (pushStep
                     (createStep (l_stepNumber st) (beamHead beam) beam
                        (l_visited st) (l_parent st) (l_g st) (l_h st)
                        (l_h st) false false None)
                     st))
          end
      end
  end.

Definition runBeamSearch (fuel : nat) (problem : Problem) (beamWidth : nat)
    : outcome SearchResult :=
  let startId := getStartId problem in
  let goalId := getGoalId problem in
  let hValues : gmap string num :=
    {[ startId := manhattanDistance startId goalId problem ]} in
  let gValues : gmap string num := {[ startId := Fin 0 ]} in
  while fuel (beamBody problem beamWidth startId goalId)
    (initial [startId] [startId] gValues hValues ∅
       (createStep 0 startId [startId] [startId] ∅ gValues hValues hValues
          false false None)).

(** ** IDA*

    The frontier of the live state is the array [path]; [stepNumber] is
    passed to [search] and returned by it, as in the source, and is not
    read from the state. *)

Record IdaResult : Type := {
  found : bool;
  t : bnd;
  res_path : option (list string);
  res_cost : option num;
  res_stepNumber : nat;
  res_visited : nat
}.

Definition IdaState : Type := Live (list string).

Definition IdaRec : Type :=
  num → nat → IdaState → outcome (IdaResult * IdaState).

(** [path.push(id); parentMap[id] = node] *)
Definition idaPush (node id : string) (st : IdaState) : IdaState :=
  withParent (<[id := node]> (l_parent st))
    (withFrontier (l_frontier st ++ [id]) st).

(** [path.pop()] *)
Definition idaPop (st : IdaState) : IdaState :=
  withFrontier (removelast (l_frontier st)) st.

(** The loop of [search] over the neighbors of [node]; [rec] is the
    recursive call. *)
Fixpoint searchEach (rec : IdaRec) (node : string) (g : num)
    (ns : list Neighbor) (min : bnd) (stepNumber : nat) (st : IdaState)
    : outcome (IdaResult * IdaState) :=
  match ns with
  | [] =>
      Returned ({| found := false; t := min; res_path := None;
                   res_cost := None; res_stepNumber := stepNumber;
                   res_visited := length (l_visited st) |}, st)
  | n :: ns' =>
      if negb (has (l_frontier st) (fst n)) then
        match rec (nadd g (snd n)) stepNumber (idaPush node (fst n) st) with
        | Returned (result, st') =>
            if found result then Returned (result, st')
            else
              searchEach rec node g ns'
                (if blt (t result) min then t result else min)
                (res_stepNumber result) (idaPop st')
        | Thrown msg => Thrown msg
        | OutOfFuel => OutOfFuel
        end
      else searchEach rec node g ns' min stepNumber st
  end.

(** The head of [search]: the maps are updated, the node is added to
    [visited] and a step is recorded. *)
Definition idaEnter (problem : Problem) (goalId node : string) (g : num)
    (stepNumber : nat) (st : IdaState) : IdaState :=
  let h := manhattanDistance node goalId problem in
  let st := withH (<[node := h]> (l_h st)) st in
  let st := withG (<[node := g]> (l_g st)) st in
  let st := withF (<[node := nadd g h]> (l_f st)) st in
  let st := withVisited (add (l_visited st) node) st in
  pushStep
    (createStep stepNumber node (l_frontier st) (l_visited st) (l_parent st)
       (l_g st) (l_h st) (l_f st) false (String.eqb node goalId) None)
    st.

Fixpoint search (fuel : nat) (problem : Problem) (goalId : string)
    (bound : num) (g : num) (stepNumber : nat) (st : IdaState)
    : outcome (IdaResult * IdaState) :=
  match fuel with
  | O => OutOfFuel
  | S fuel' =>
      let node := last (l_frontier st) ""%string in
      let f := nadd g (manhattanDistance node goalId problem) in
      let st := idaEnter problem goalId node g stepNumber st in
      let stepNumber := S stepNumber in
      if ngt f bound then
        Returned ({| found := false; t := Bnd f; res_path := None;
                     res_cost := None; res_stepNumber := stepNumber;
                     res_visited := length (l_visited st) |}, st)
      else if String.eqb node goalId then
        Returned ({| found := true; t := Bnd f;
                     res_path := Some (l_frontier st); res_cost := Some g;
                     res_stepNumber := stepNumber;
                     res_visited := length (l_visited st) |}, st)
      else
        searchEach (search fuel' problem goalId bound) node g
          (getNeighbors problem node) Infinity stepNumber st
  end.

(** The variables of the outer loop of [runIDAStar]. *)
Record IdaOuter : Type := {
  o_bound : num;
  o_stepNumber : nat;
  o_totalVisited : nat;
  o_state : IdaState
}.

Definition idaBody (depth : nat) (problem : Problem) (startId goalId : string)
    (o : IdaOuter) : IdaOuter + outcome SearchResult :=
  match search depth problem goalId (o_bound o) (Fin 0) (o_stepNumber o)
          (withVisited [] (o_state o)) with
  | Returned (result, st) =>
      let stepNumber := res_stepNumber result in
      let totalVisited := (o_totalVisited o + res_visited result)%nat in
      if found result then
        inr (Returned
               {| algorithm := "idaStar"; problem := problem;
                  steps := l_steps st; finalPath := res_path result;
                  pathCost := res_cost result; nodesVisited := totalVisited;
                  memoryUsageKb := roundDiv (Z.of_nat totalVisited * 50) 1024;
                  success := true |})
      else
        match t result with
        | Infinity =>
            let st := pushStep
              (createStep stepNumber startId [] [] (l_parent st) (l_g st)
                 (l_h st) (l_f st) true false None)
              st in
            inr (Returned (failed "idaStar" problem (l_steps st)
                             totalVisited 50))
        | Bnd b =>
            inl {| o_bound := b; o_stepNumber := stepNumber;
                   o_totalVisited := totalVisited; o_state := st |}
        end
  | Thrown msg => inr (Thrown msg)
  | OutOfFuel => inr OutOfFuel
  end.

(** The fuel bounds the deepening iterations and, separately, the depth
    of the recursion of [search]. *)
Definition runIDAStar (fuel : nat) (problem : Problem) : outcome SearchResult :=
  let startId := getStartId problem in
  let goalId := getGoalId problem in
  let h := manhattanDistance startId goalId problem in
  let gValues : gmap string num := {[ startId := Fin 0 ]} in
  let hValues : gmap string num := {[ startId := h ]} in
  let fValues : gmap string num := {[ startId := h ]} in
  let path := [startId] in
  while fuel (idaBody fuel problem startId goalId)
    {| o_bound := h; o_stepNumber := 1; o_totalVisited := 0;
       o_state := initial path [] gValues hValues fValues
                    (createStep 0 startId path [] ∅ gValues hValues fValues
                       false false None) |}.

(** ** Dispatch *)

Definition algorithmTypes : list string :=
  ["bfs"; "dfs"; "ucs"; "greedy"; "astar"; "hillClimbing"; "beamSearch";
   "idaStar"]%string.

Definition runAlgorithm (fuel : nat) (algorithm : string) (problem : Problem)
    : outcome SearchResult :=
  if String.eqb algorithm "bfs" then runBFS fuel problem
  else if String.eqb algorithm "dfs" then runDFS fuel problem
  else if String.eqb algorithm "ucs" then runUCS fuel problem
  else if String.eqb algorithm "greedy" then runGreedy fuel problem
  else if String.eqb algorithm "astar" then runAStar fuel problem
  else if String.eqb algorithm "hillClimbing" then runHillClimbing fuel problem
  else if String.eqb algorithm "beamSearch" then runBeamSearch fuel problem 2
  else if String.eqb algorithm "idaStar" then runIDAStar fuel problem
  else Thrown ("Unknown algorithm: " +:+ algorithm).

End Engine.

(** * Worked problems *)

(** A square root for the worked problems: the integer square root of the
    integer part, exact on perfect squares. *)
Definition isqrt (q : Q) : Q := inject_Z (Z.sqrt (Qfloor q)).

(** [createEmptyGrid(rows, cols)] of the shared schema. *)
Definition createEmptyGrid (nrows ncols : Z) : GridProblem :=
  {| rows := nrows; cols := ncols;
     cells :=
       flat_map (λ r, map (λ c,
         {| cell_row := r; cell_col := c; cell_isObstacle := false;
            cell_isStart := (r =? 0)%Z && (c =? 0)%Z;
            cell_isGoal := (r =? nrows - 1)%Z && (c =? ncols - 1)%Z;
            cell_weight := 1 |}) (seqZ 0 ncols)) (seqZ 0 nrows);
     start := {| row := 0; col := 0 |};
     goal := {| row := nrows - 1; col := ncols - 1 |};
     allowDiagonal := false |}.

(** The grid with the listed cells turned into obstacles. *)
Definition withObstacles (obst : list (Z * Z)) (g : GridProblem)
    : GridProblem :=
  {| rows := rows g; cols := cols g;
     cells :=
       map (λ cl,
         {| cell_row := cell_row cl; cell_col := cell_col cl;
            cell_isObstacle :=
              cell_isObstacle cl ||
              bool_decide ((cell_row cl, cell_col cl) ∈ obst);
            cell_isStart := cell_isStart cl; cell_isGoal := cell_isGoal cl;
            cell_weight := cell_weight cl |}) (cells g);
     start := start g; goal := goal g; allowDiagonal := allowDiagonal g |}.

(** The grid with diagonal moves switched on. *)
Definition withDiagonal (g : GridProblem) : GridProblem :=
  {| rows := rows g; cols := cols g; cells := cells g;
     start := start g; goal := goal g; allowDiagonal := true |}.

(** A graph node at [(x, 0)]. *)
Definition nodeAt (id : string) (x : Q) : GraphNode :=
  {| node_id := id; node_x := x; node_y := 0; node_label := None;
     node_isStart := false; node_isGoal := false; node_heuristic := None |}.

Definition edge (a b : string) (w : Q) : GraphEdge :=
  {| edge_from := a; edge_to := b; edge_weight := w |}.

(** The open 3x3 grid, start in the top-left and goal in the bottom-right
    corner. *)
Definition open3 : Problem := Grid (createEmptyGrid 3 3).

(** The same grid with diagonal moves. *)
Definition diag3 : Problem := Grid (withDiagonal (createEmptyGrid 3 3)).

(** The same grid with the two cells next to the goal blocked, which cuts
    the goal off. *)
Definition walled3 : Problem :=
  Grid (withObstacles [(1, 2); (2, 1)]%Z (createEmptyGrid 3 3)).

(** The 1x1 grid: start and goal are the same cell. *)
Definition single : Problem := Grid (createEmptyGrid 1 1).

(** An undirected triangle in which the direct edge from start to goal is
    dearer than the detour. *)
Definition triangle : Problem :=
  Graph {| nodes := [nodeAt "A" 0; nodeAt "B" 50; nodeAt "C" 100];
           edges := [edge "A" "B" 5; edge "B" "C" 1; edge "A" "C" 10];
           startNodeId := "A"; goalNodeId := "C"; isDirected := false |}.

(** A graph whose only way from start to goal leads through a node with the
    empty string as id. *)
Definition via : Problem :=
  Graph {| nodes := [nodeAt "A" 0; nodeAt "" 50; nodeAt "C" 100];
           edges := [edge "A" "" 1; edge "" "C" 1];
           startNodeId := "A"; goalNodeId := "C"; isDirected := false |}.

(** A graph of one node, start and goal at once, with the empty string
    as id. *)
Definition lone : Problem :=
  Graph {| nodes := [nodeAt "" 0]; edges := [];
           startNodeId := ""; goalNodeId := ""; isDirected := false |}.

(** [comp] contains the neighbors of each of its elements. *)
Definition closedb (p : Problem) (comp : list string) : bool :=
  forallb (λ x, forallb (λ n, has comp (fst n)) (getNeighbors p x)) comp.

(** Each element of the walk is a neighbor of the one before. *)
Fixpoint walkb (p : Problem) (x : string) (l : list string) : bool :=
  match l with
  | [] => true
  | y :: l' => has (map fst (getNeighbors p x)) y && walkb p y l'
  end.

(** What the worked problems look at in an outcome: the success flag, the
    path, its cost, the count of visited nodes, and the size of the
    visited set at each recorded step. *)
Definition summary (o : outcome SearchResult)
    : option (bool * option (list string) * option num * nat * list nat) :=
  match o with
  | Returned r =>
      Some (success r, finalPath r, pathCost r, nodesVisited r,
            map (λ s, length (visited s)) (steps r))
  | _ => None
  end.

(** The loop body asks for another iteration. *)
Definition continues {A B : Type} (x : A + B) : bool :=
  match x with inl _ => true | inr _ => false end.

(** The cells of the walled grid that can be reached from its start. *)
Definition walled3_component : list string :=
  ["0-0"; "0-1"; "0-2"; "1-0"; "1-1"; "2-0"]%string.

(** * Properties *)

(** ** Loops *)

Section WhileFacts.
Context {S R : Type} (body : S → S + outcome R).

Lemma while_inv (Inv : S → Prop) (Q : R → Prop) :
  (∀ s s', Inv s → body s = inl s' → Inv s') →
  (∀ s r, Inv s → body s = inr (Returned r) → Q r) →
  ∀ fuel s r, Inv s → while fuel body s = Returned r → Q r.
Proof.
  intros Hstep Hexit. induction fuel as [|fuel IH]; intros s r Hs; simpl.
  - discriminate.
  - destruct (body s) as [s'|o] eqn:Hb.
    + apply IH. eapply Hstep; eauto.
    + intros ->. eapply Hexit; eauto.
Qed.

Lemma while_total (Inv : S → Prop) (mu : S → nat) :
  (∀ s s', Inv s → body s = inl s' → Inv s' ∧ mu s' < mu s) →
  (∀ s o, Inv s → body s = inr o → ∃ r, o = Returned r) →
  ∀ fuel s, Inv s → mu s < fuel → ∃ r, while fuel body s = Returned r.
Proof.
  intros Hstep Hexit. induction fuel as [|fuel IH]; intros s Hs Hmu; [lia|].
  simpl. destruct (body s) as [s'|o] eqn:Hb.
  - destruct (Hstep _ _ Hs Hb) as [Hs' Hlt]. apply IH; [done | lia].
  - eapply Hexit; eauto.
Qed.

Lemma while_mono fuel fuel' s r :
  while fuel body s = Returned r → fuel ≤ fuel' →
  while fuel' body s = Returned r.
Proof.
  revert fuel' s. induction fuel as [|fuel IH]; intros fuel' s; simpl.
  - discriminate.
  - intros H Hle. destruct fuel' as [|fuel']; [lia|]. simpl.
    destruct (body s) as [s'|o]; [|done]. apply IH; [done | lia].
Qed.
End WhileFacts.

(** ** Sets of identifiers *)

Lemma has_true s x : has s x = true ↔ x ∈ s.
Proof. unfold has. apply bool_decide_eq_true. Qed.

Lemma has_false s x : has s x = false ↔ x ∉ s.
Proof. unfold has. apply bool_decide_eq_false. Qed.

Lemma add_new s x : x ∉ s → add s x = s ++ [x].
Proof. intros H. unfold add. apply has_false in H. by rewrite H. Qed.

Lemma add_old s x : x ∈ s → add s x = s.
Proof. intros H. unfold add. apply has_true in H. by rewrite H. Qed.

Lemma elem_of_add s x y : y ∈ add s x ↔ y ∈ s ∨ y = x.
Proof.
  unfold add. destruct (has s x) eqn:E.
  - apply has_true in E. split; [by left | intros [?| ->]; done].
  - rewrite elem_of_app, list_elem_of_singleton. done.
Qed.

Lemma length_add_le s x : length s ≤ length (add s x).
Proof. unfold add. destruct (has s x); [done|]. rewrite length_app. lia. Qed.

Lemma NoDup_add s x : NoDup s → NoDup (add s x).
Proof.
  intros H. unfold add. destruct (has s x) eqn:E; [done|].
  apply has_false in E. apply list.NoDup_app. split_and!; [done | | apply NoDup_singleton].
  intros y Hy ->%list_elem_of_singleton. done.
Qed.

Lemma eqb_true a b : String.eqb a b = true ↔ a = b.
Proof. apply String.eqb_eq. Qed.

Lemma eqb_false a b : String.eqb a b = false ↔ a ≠ b.
Proof. apply String.eqb_neq. Qed.

Lemma truthy_true s : truthy s = true ↔ s ≠ ""%string.
Proof. unfold truthy. rewrite negb_true_iff. apply eqb_false. Qed.

(** ** Stable sort *)

Section SortFacts.
Context {A : Type} (gtb : A → A → bool).

Lemma sort_insert_perm x l : sort_insert gtb x l ≡ₚ x :: l.
Proof.
  induction l as [|y l IH]; simpl; [done|].
  destruct (gtb x y); [|done]. rewrite IH. apply Permutation_swap.
Qed.

Lemma stable_sort_perm l : stable_sort gtb l ≡ₚ l.
Proof.
  induction l as [|x l IH]; simpl; [done|].
  rewrite sort_insert_perm. by rewrite IH.
Qed.

Lemma elem_of_stable_sort x l : x ∈ stable_sort gtb l ↔ x ∈ l.
Proof. by rewrite stable_sort_perm. Qed.

Lemma length_stable_sort l : length (stable_sort gtb l) = length l.
Proof. by rewrite stable_sort_perm. Qed.
End SortFacts.

Lemma toArray_enqueue x id pr pq :
  x ∈ PriorityQueue.toArray (PriorityQueue.enqueue id pr pq)
  ↔ x = id ∨ x ∈ PriorityQueue.toArray pq.
Proof.
  unfold PriorityQueue.toArray, PriorityQueue.enqueue.
  rewrite !list_elem_of_fmap. split.
  - intros [[y p] [-> Hy]]. apply elem_of_stable_sort in Hy.
    apply elem_of_app in Hy as [Hy | Hy%list_elem_of_singleton].
    + right. by exists (y, p).
    + left. by inversion Hy.
  - intros [-> | [y [-> Hy]]].
    + exists (id, pr). split; [done|]. apply elem_of_stable_sort.
      apply elem_of_app. right. by apply list_elem_of_singleton.
    + exists y. split; [done|]. apply elem_of_stable_sort.
      apply elem_of_app. by left.
Qed.

Lemma length_enqueue id pr pq :
  length (PriorityQueue.enqueue id pr pq) = Datatypes.S (length pq).
Proof.
  unfold PriorityQueue.enqueue. rewrite length_stable_sort, length_app.
  simpl. lia.
Qed.

(** ** The search tree kept in [visited] and [parentMap] *)

Section Tree.
Variable problem : Problem.
Variable startId : string.

(** [q] is among the resolver's neighbors of [p]. *)
Definition nbr (p q : string) : Prop :=
  ∃ c, (q, c) ∈ getNeighbors problem p.

(** Reachable from the start through the resolver. *)
Definition reach : string → Prop := rtc nbr startId.

(** Consecutive elements are neighbors. *)
Definition linked (l : list string) : Prop :=
  ∀ i a b, l !! i = Some a → l !! Datatypes.S i = Some b → nbr a b.

Record GInv (fr visited : list string) (pm : gmap string string) : Prop := {
  gi_nodup : NoDup visited;
  gi_parent : ∀ id p, pm !! id = Some p →
    p ∈ visited ∧ nbr p id ∧ id ≠ startId;
  gi_before : ∀ id p i, pm !! id = Some p → visited !! i = Some id →
    ∃ j, j < i ∧ visited !! j = Some p;
  gi_root : ∀ x, x ∈ visited ∨ x ∈ fr → x = startId ∨ is_Some (pm !! x);
  gi_reach : ∀ x, x ∈ visited ∨ x ∈ fr → reach x;
  gi_start : startId ∈ visited ∨
    (visited = [] ∧ pm = ∅ ∧ startId ∈ fr ∧ ∀ x, x ∈ fr → x = startId)
}.

Lemma GInv_start fr v pm x : GInv fr v pm → x ∈ v → startId ∈ v.
Proof.
  intros HI Hx. destruct (gi_start _ _ _ HI) as [?|(->&_)]; [done|].
  by apply elem_of_nil in Hx.
Qed.

Lemma GInv_init_frontier : GInv [startId] [] ∅.
Proof.
  split.
  - constructor.
  - intros id p H. by rewrite lookup_empty in H.
  - intros id p i H. by rewrite lookup_empty in H.
  - intros x [H|H%list_elem_of_singleton]; [by apply elem_of_nil in H | by left].
  - intros x [H|H%list_elem_of_singleton]; [by apply elem_of_nil in H |].
    subst. apply rtc_refl.
  - right. split_and!; [done..| |].
    + by apply list_elem_of_singleton.
    + by intros x ->%list_elem_of_singleton.
Qed.

Lemma GInv_init_visited fr :
  (∀ x, x ∈ fr → x = startId) → GInv fr [startId] ∅.
Proof.
  intros Hfr. split.
  - apply NoDup_singleton.
  - intros id p H. by rewrite lookup_empty in H.
  - intros id p i H. by rewrite lookup_empty in H.
  - intros x [H%list_elem_of_singleton|H]; left; auto.
  - intros x [H%list_elem_of_singleton|H%Hfr]; subst; apply rtc_refl.
  - left. by apply list_elem_of_singleton.
Qed.

(** Once the start is visited, the frontier may be replaced by any list
    of reachable nodes that are the start or have a parent. *)
Lemma GInv_frontier fr fr' v pm :
  GInv fr v pm → startId ∈ v →
  (∀ x, x ∈ fr' → x ∈ fr ∨ (reach x ∧ (x = startId ∨ is_Some (pm !! x)))) →
  GInv fr' v pm.
Proof.
  intros [H1 H2 H3 H4 H5 H6] Hs Hfr. split; try done.
  - intros x [Hx|Hx]; [by apply H4; left|].
    destruct (Hfr x Hx) as [?|(?&?)]; [apply H4; by right | done].
  - intros x [Hx|Hx]; [by apply H5; left|].
    destruct (Hfr x Hx) as [?|(?&?)]; [apply H5; by right | done].
  - by left.
Qed.

(** A node of the frontier is added to [visited]. *)
Lemma GInv_enter fr v pm c :
  GInv fr v pm → c ∈ fr → c ∉ v → GInv fr (v ++ [c]) pm ∧ startId ∈ v ++ [c].
Proof.
  intros [H1 H2 H3 H4 H5 H6] Hc Hn.
  assert (Hst : startId ∈ v ++ [c]).
  { destruct H6 as [?|(?&?&?&Hs)]; apply elem_of_app; [by left|].
    right. apply list_elem_of_singleton. symmetry. by apply Hs. }
  split; [|done]. split.
  - apply list.NoDup_app. split_and!; [done| |apply NoDup_singleton].
    by intros y Hy ->%list_elem_of_singleton.
  - intros id p Hp. destruct (H2 _ _ Hp) as (?&?&?).
    split_and!; [|done..]. apply elem_of_app. by left.
  - intros id p i Hp Hi.
    destruct (decide (i < length v)) as [Hlt|Hge].
    + rewrite lookup_app_l in Hi by done.
      destruct (H3 _ _ _ Hp Hi) as (j&?&?). exists j. split; [done|].
      rewrite lookup_app_l; [done | lia].
    + destruct (H2 _ _ Hp) as (Hpv&_&_).
      apply list_elem_of_lookup in Hpv as [j Hj].
      exists j. pose proof (lookup_lt_Some _ _ _ Hj).
      split; [lia|]. by rewrite lookup_app_l.
  - intros x [Hx|Hx]; [|by apply H4; right].
    apply elem_of_app in Hx as [Hx|Hx%list_elem_of_singleton];
      [by apply H4; left | subst; by apply H4; right].
  - intros x [Hx|Hx]; [|by apply H5; right].
    apply elem_of_app in Hx as [Hx|Hx%list_elem_of_singleton];
      [by apply H5; left | subst; by apply H5; right].
  - by left.
Qed.

(** [parentMap[id] = cur], for a neighbor [id] of a visited node [cur] that
    is unvisited or was visited after [cur]. *)
Lemma GInv_set_parent fr v pm cur id :
  GInv fr v pm → startId ∈ v → cur ∈ v → nbr cur id → id ≠ startId →
  (∀ i, v !! i = Some id → ∃ j, j < i ∧ v !! j = Some cur) →
  GInv fr v (<[id := cur]> pm).
Proof.
  intros [H1 H2 H3 H4 H5 H6] Hst Hcur Hn Hne Hbef. split; try done.
  - intros x p. rewrite lookup_insert. case_decide as E.
    + intros [= <-]. by subst.
    + apply H2.
  - intros x p i. rewrite lookup_insert. case_decide as E.
    + intros [= <-] Hi. subst. by apply Hbef.
    + apply H3.
  - intros x Hx. destruct (H4 x Hx) as [?|Hs]; [by left|]. right.
    rewrite lookup_insert. case_decide; [by eexists | done].
  - by left.
Qed.

Lemma GInv_push fr fr' v pm cur id :
  GInv fr v pm → startId ∈ v → cur ∈ v → nbr cur id → id ∉ v →
  (∀ x, x ∈ fr' → x ∈ fr ∨ x = id) →
  GInv fr' v (<[id := cur]> pm).
Proof.
  intros HI Hst Hcur Hn Hid Hfr.
  assert (id ≠ startId) by (intros ->; done).
  assert (reach cur) by (apply (gi_reach _ _ _ HI); by left).
  eapply GInv_frontier; [|done|].
  - apply GInv_set_parent; eauto.
    intros i Hi. exfalso. apply Hid. by eapply list_elem_of_lookup_2.
  - intros x Hx. destruct (Hfr x Hx) as [?| ->]; [by left|].
    right. split.
    + eapply rtc_r; eauto.
    + right. rewrite lookup_insert_eq. by eexists.
Qed.

(** *** The path that [reconstructPath] rebuilds *)

Inductive chain (pm : gmap string string) : string → list string → Prop :=
  | chain_root : pm !! startId = None → chain pm startId [startId]
  | chain_step x p l :
      pm !! x = Some p → chain pm p l → chain pm x (l ++ [x]).

Lemma chain_last pm x l : chain pm x l → List.last l ""%string = x.
Proof. destruct 1; [done|]. by rewrite last_last. Qed.

Lemma chain_last' pm x l : chain pm x l → list.last l = Some x.
Proof. destruct 1; [done|]. by rewrite last_snoc. Qed.

Lemma chain_head pm x l : chain pm x l → head l = Some startId.
Proof.
  induction 1 as [|x p l Hp Hc IH]; [done|].
  destruct l; [done|]. simpl in *. done.
Qed.

Lemma chain_linked fr v pm x l :
  GInv fr v pm → chain pm x l → linked l.
Proof.
  intros HI. induction 1 as [|x p l Hp Hc IH].
  - intros i a b Ha Hb. destruct i; simpl in Hb; by rewrite ?lookup_nil in Hb.
  - intros i a b Ha Hb.
    destruct (decide (Datatypes.S i < length l)) as [Hlt|Hge].
    + rewrite lookup_app_l in Ha by lia. rewrite lookup_app_l in Hb by lia.
      eapply IH; eauto.
    + pose proof (lookup_lt_Some _ _ _ Hb) as Hlen.
      rewrite length_app in Hlen. simpl in Hlen.
      assert (Datatypes.S i = length l) as Hi by lia.
      rewrite Hi in Hb. rewrite list_lookup_middle in Hb by done.
      injection Hb as <-.
      rewrite lookup_app_l in Ha by lia.
      assert (list.last l = Some a) as Hl.
      { rewrite last_lookup. rewrite <- Hi. simpl. done. }
      rewrite (chain_last' _ _ _ Hc) in Hl. injection Hl as <-.
      by destruct (gi_parent _ _ _ HI _ _ Hp) as (_&?&_).
Qed.

(** Every visited node has a chain made of nodes visited no later. *)
Lemma GInv_chain fr v pm :
  GInv fr v pm →
  ∀ n x, v !! n = Some x →
    ∃ l, chain pm x l ∧ NoDup l ∧
         ∀ y, y ∈ l → ∃ j, j ≤ n ∧ v !! j = Some y.
Proof.
  intros HI n. induction n as [n IH] using lt_wf_ind. intros x Hx.
  destruct (pm !! x) as [p|] eqn:Hp.
  - destruct (gi_before _ _ _ HI _ _ _ Hp Hx) as (j&Hj&Hjp).
    destruct (IH j Hj p Hjp) as (l&Hc&Hnd&Hl).
    exists (l ++ [x]). split_and!.
    + by econstructor.
    + apply list.NoDup_app. split_and!; [done| |apply NoDup_singleton].
      intros y Hy ->%list_elem_of_singleton.
      destruct (Hl _ Hy) as (k&Hk&Hkx).
      pose proof (NoDup_lookup _ _ _ _ (gi_nodup _ _ _ HI) Hx Hkx). lia.
    + intros y [Hy| ->%list_elem_of_singleton]%elem_of_app.
      * destruct (Hl _ Hy) as (k&?&?). exists k. split; [lia|done].
      * exists n. done.
  - assert (x = startId) as ->.
    { destruct (gi_root _ _ _ HI x) as [?|[? Hs]]; [|done|congruence].
      left. by eapply list_elem_of_lookup_2. }
    exists [startId]. split_and!.
    + by constructor.
    + apply NoDup_singleton.
    + intros y ->%list_elem_of_singleton. by exists n.
Qed.

Lemma chain_keys pm x l :
  chain pm x l → ∀ y, y ∈ tail l → is_Some (pm !! y).
Proof.
  induction 1 as [|x p l Hp Hc IH]; intros y Hy.
  - by apply elem_of_nil in Hy.
  - destruct l as [|a l].
    + apply chain_head in Hc. done.
    + simpl in *. apply elem_of_app in Hy as [Hy| ->%list_elem_of_singleton];
        [by apply IH | by eexists].
Qed.

Lemma keys_length (pm : gmap string string) (ks : list string) :
  NoDup ks → (∀ y, y ∈ ks → is_Some (pm !! y)) → length ks ≤ size pm.
Proof.
  intros Hnd Hk. rewrite <- (size_dom (D := gset string)).
  unfold size at 1, set_size. simpl.
  apply submseteq_length, NoDup_submseteq; [done|].
  intros y Hy. apply elem_of_elements, elem_of_dom. by apply Hk.
Qed.

Lemma chain_length pm x l :
  chain pm x l → NoDup l → length l ≤ Datatypes.S (size pm).
Proof.
  intros Hc Hnd. pose proof (chain_keys _ _ _ Hc) as Hk.
  pose proof (chain_head _ _ _ Hc) as Hh.
  destruct l as [|a l]; simpl in *; [lia|].
  apply list.NoDup_cons in Hnd as [_ Hnd].
  pose proof (keys_length pm l Hnd Hk). lia.
Qed.

Lemma reconstructLoop_chain pm x l :
  chain pm x l → (∀ y, y ∈ l → y ≠ ""%string) →
  ∀ fuel acc, length l ≤ fuel →
    reconstructLoop fuel pm x acc = Some (l ++ acc).
Proof.
  induction 1 as [Hs|x p l Hp Hc IH]; intros Hne fuel acc Hf.
  - destruct fuel as [|fuel]; simpl in *; [lia|].
    assert (truthy startId = true) as ->.
    { apply truthy_true, Hne. by apply list_elem_of_singleton. }
    by rewrite Hs.
  - destruct fuel as [|fuel]; [rewrite length_app in Hf; simpl in Hf; lia|].
    simpl. assert (truthy x = true) as ->.
    { apply truthy_true, Hne. apply elem_of_app. right.
      by apply list_elem_of_singleton. }
    rewrite Hp. rewrite IH.
    + by rewrite <- app_assoc.
    + intros y Hy. apply Hne. apply elem_of_app. by left.
    + rewrite length_app in Hf. simpl in Hf. lia.
Qed.

(** Whatever the identifiers are, the walk ends on a chain. *)
Lemma reconstructLoop_ends pm x l :
  chain pm x l →
  ∀ fuel acc, length l ≤ fuel → is_Some (reconstructLoop fuel pm x acc).
Proof.
  induction 1 as [Hs|x p l Hp Hc IH]; intros fuel acc Hf.
  - destruct fuel as [|fuel]; simpl in *; [lia|].
    destruct (truthy startId); [rewrite Hs|]; by eexists.
  - destruct fuel as [|fuel]; [rewrite length_app in Hf; simpl in Hf; lia|].
    simpl. destruct (truthy x); [|by eexists]. rewrite Hp. apply IH.
    rewrite length_app in Hf. simpl in Hf. lia.
Qed.

Lemma GInv_reconstruct_ends fr v pm x :
  GInv fr v pm → x ∈ v → is_Some (reconstructPath pm x).
Proof.
  intros HI [n Hn]%list_elem_of_lookup.
  destruct (GInv_chain _ _ _ HI n x Hn) as (l&Hc&Hnd&_).
  eapply reconstructLoop_ends; [exact Hc|]. by eapply chain_length.
Qed.

(** What a returned path must satisfy. *)
Definition valid_path (goalId : string) (l : list string) : Prop :=
  head l = Some startId ∧ list.last l = Some goalId ∧ linked l ∧ NoDup l.

Lemma GInv_reconstruct fr v pm x :
  GInv fr v pm → x ∈ v → (∀ y, reach y → y ≠ ""%string) →
  ∃ l, reconstructPath pm x = Some l ∧ valid_path x l ∧ chain pm x l.
Proof.
  intros HI [n Hn]%list_elem_of_lookup Hne.
  destruct (GInv_chain _ _ _ HI n x Hn) as (l&Hc&Hnd&Hl).
  exists l. split_and!; [|split_and!|done].
  - unfold reconstructPath. rewrite (reconstructLoop_chain pm x l Hc).
    + by rewrite app_nil_r.
    + intros y Hy. destruct (Hl _ Hy) as (j&_&Hj). apply Hne.
      apply (gi_reach _ _ _ HI). left. by eapply list_elem_of_lookup_2.
    + by eapply chain_length.
  - by eapply chain_head.
  - by eapply chain_last'.
  - by eapply chain_linked.
  - done.
Qed.
End Tree.

(** ** Recorded steps *)

(** The size of the visited set never shrinks from a step to the next. *)
Definition mono_steps (steps : list SearchStep) : Prop :=
  ∀ i s1 s2, steps !! i = Some s1 → steps !! Datatypes.S i = Some s2 →
    length (visited s1) ≤ length (visited s2).

(** ... and the last step shows the visited set [v]. *)
Definition steps_ok (steps : list SearchStep) (v : list string) : Prop :=
  mono_steps steps ∧ ∃ s, list.last steps = Some s ∧ visited s = v.

Lemma steps_ok_init s : steps_ok [s] (visited s).
Proof.
  split; [|by exists s].
  intros i s1 s2 H1 H2. destruct i; simpl in H2; by rewrite ?lookup_nil in H2.
Qed.

Lemma steps_ok_push steps v s :
  steps_ok steps v → length v ≤ length (visited s) →
  steps_ok (steps ++ [s]) (visited s).
Proof.
  intros [Hm (s0&Hl&Hv)] Hle. split; [|exists s; by rewrite last_snoc].
  intros i s1 s2 H1 H2.
  destruct (decide (Datatypes.S i < length steps)) as [Hlt|Hge].
  - rewrite lookup_app_l in H1 by lia. rewrite lookup_app_l in H2 by lia.
    eapply Hm; eauto.
  - pose proof (lookup_lt_Some _ _ _ H2) as Hlen.
    rewrite length_app in Hlen. simpl in Hlen.
    assert (Datatypes.S i = length steps) as Hi by lia.
    rewrite Hi in H2. rewrite list_lookup_middle in H2 by done.
    injection H2 as <-. rewrite lookup_app_l in H1 by lia.
    assert (list.last steps = Some s1) as Hl'.
    { rewrite last_lookup. rewrite <- Hi. simpl. done. }
    rewrite Hl in Hl'. injection Hl' as <-. by rewrite Hv.
Qed.

Lemma steps_ok_nonempty steps v : steps_ok steps v → steps ≠ [].
Proof. intros [_ (s&Hl&_)] ->. done. Qed.

(** ** Exhaustive search: the five algorithms with a queue *)

Section Queue.
Variable problem : Problem.
Let startId := getStartId problem.
Let goalId := getGoalId problem.

(** Every neighbor of a visited node is visited or waits in the frontier. *)
Definition Closed (fr v : list string) : Prop :=
  ∀ x y, x ∈ v → nbr problem x y → y ∈ v ∨ y ∈ fr.

Lemma Closed_reach v :
  Closed [] v → startId ∈ v → ∀ x, reach problem startId x → x ∈ v.
Proof.
  intros Hc Hs x Hx. unfold reach in Hx. revert x Hx.
  apply rtc_ind_r; [done|]. intros y z _ Hyz IH.
  destruct (Hc _ _ IH Hyz) as [?|H]; [done | by apply elem_of_nil in H].
Qed.

(** The neighbor entries that the unvisited nodes of [W] can still
    contribute to a frontier. *)
Definition work (W v : list string) : nat :=
  sum_list (map (λ u, if has v u then 0%nat
                      else length (getNeighbors problem u)) W).

Lemma work_mono W v c : work W (v ++ [c]) ≤ work W v.
Proof.
  unfold work. induction W as [|w W IH]; simpl; [done|].
  destruct (has v w) eqn:E1.
  - apply has_true in E1.
    assert (has (v ++ [c]) w = true) as ->; [|lia].
    apply has_true, elem_of_app. by left.
  - destruct (has (v ++ [c]) w); lia.
Qed.

Lemma work_enter W c v :
  c ∈ W → c ∉ v →
  work W (v ++ [c]) + length (getNeighbors problem c) ≤ work W v.
Proof.
  intros Hc Hv. induction W as [|u W IH].
  - by apply elem_of_nil in Hc.
  - pose proof (work_mono W v c) as Hmono. unfold work in *. simpl.
    destruct (decide (u = c)) as [->|Hne].
    + assert (has (v ++ [c]) c = true) as ->.
      { apply has_true, elem_of_app. right. by apply list_elem_of_singleton. }
      apply has_false in Hv. rewrite Hv. lia.
    + apply elem_of_cons in Hc as [->|Hc]; [done|].
      specialize (IH Hc).
      destruct (has v u) eqn:E1.
      * apply has_true in E1.
        assert (has (v ++ [c]) u = true) as ->; [|lia].
        apply has_true, elem_of_app. by left.
      * destruct (has (v ++ [c]) u); lia.
Qed.

(** What one of the five algorithms is made of. *)
Record QueueAlg (F : Type) : Type := {
  qa_name : string;
  qa_pop : F → option (string * F);
  qa_show : F → list string;
  qa_order : list Neighbor → list Neighbor;
  qa_visit : string → Live F → Neighbor → Live F;
  qa_gv : Live F → gmap string num;
  qa_hv : Live F → gmap string num;
  qa_fv : Live F → gmap string num;
  qa_cost : Live F → list string → option num
}.
Arguments qa_name {F} _.
Arguments qa_pop {F} _.
Arguments qa_show {F} _.
Arguments qa_order {F} _.
Arguments qa_visit {F} _.
Arguments qa_gv {F} _.
Arguments qa_hv {F} _.
Arguments qa_fv {F} _.
Arguments qa_cost {F} _.

(** The loop body that the five algorithms share. *)
Definition queueBody {F : Type} (qa : QueueAlg F) (st : Live F)
    : Live F + outcome SearchResult :=
  match qa_pop qa (l_frontier st) with
  | None =>
      inr (Returned (failed (qa_name qa) problem (l_steps st)
                       (length (l_visited st)) 100))
  | Some (current, fr) =>
      let st := withFrontier fr st in
      if has (l_visited st) current then inl st
      else
        let st := withVisited (add (l_visited st) current) st in
        if String.eqb current goalId then
          match reconstructPath (l_parent st) goalId with
          | None => inr OutOfFuel
          | Some path =>
              let st' := pushStep
                (createStep (l_stepNumber st) current
                   (qa_show qa (l_frontier st)) (l_visited st) (l_parent st)
                   (qa_gv qa st) (qa_hv qa st) (qa_fv qa st) true true
                   (Some path))
                st in
              inr (Returned
                     (succeeded (qa_name qa) problem (l_steps st') path
                        (qa_cost qa st path) (length (l_visited st')) 100))
          end
        else
          let st := fold_left (qa_visit qa current)
                      (qa_order qa (getNeighbors problem current)) st in
          inl (nextStep (pushStep
                 (createStep (l_stepNumber st) current
                    (qa_show qa (l_frontier st)) (l_visited st)
                    (l_parent st) (qa_gv qa st) (qa_hv qa st) (qa_fv qa st)
                    false false None)
                 st))
  end.

Section Generic.
Context {F : Type} (qa : QueueAlg F).
(** The identifiers that wait in a frontier. *)
Variable ids : F → list string.
(** A further invariant of the algorithm, on the frontier, the visited
    set, the parents and the costs. *)
Variable X : list string → list string → gmap string string →
             gmap string num → Prop.
(** A superset of the reachable nodes. *)
Variable U : list string.

Definition XL (st : Live F) : Prop :=
  X (ids (l_frontier st)) (l_visited st) (l_parent st) (l_g st).

Definition GL (st : Live F) : Prop :=
  GInv problem startId (ids (l_frontier st)) (l_visited st) (l_parent st).

Hypothesis pop_none : ∀ fr, qa_pop qa fr = None → ids fr = [].
Hypothesis pop_some : ∀ fr c fr',
  qa_pop qa fr = Some (c, fr') → ids fr = c :: ids fr'.
Hypothesis order_perm : ∀ ns, qa_order qa ns ≡ₚ ns.
Hypothesis X_skip : ∀ c fr v pm g,
  X (c :: fr) v pm g → c ∈ v → X fr v pm g.
Hypothesis X_enter : ∀ c fr v pm g,
  X (c :: fr) v pm g → c ∉ v → X fr (v ++ [c]) pm g.
Hypothesis visit_spec : ∀ cur st n,
  GL st → startId ∈ l_visited st → cur ∈ l_visited st → XL st →
  n ∈ getNeighbors problem cur →
  let st' := qa_visit qa cur st n in
  GL st' ∧ XL st' ∧
  l_visited st' = l_visited st ∧ l_steps st' = l_steps st ∧
  (∀ x, x ∈ ids (l_frontier st) → x ∈ ids (l_frontier st')) ∧
  (fst n ∈ l_visited st ∨ fst n ∈ ids (l_frontier st')) ∧
  length (ids (l_frontier st')) ≤ Datatypes.S (length (ids (l_frontier st))).

Lemma visit_fold cur ns :
  ∀ st, GL st → startId ∈ l_visited st → cur ∈ l_visited st → XL st →
  (∀ n, n ∈ ns → n ∈ getNeighbors problem cur) →
  let st' := fold_left (qa_visit qa cur) ns st in
  GL st' ∧ XL st' ∧
  l_visited st' = l_visited st ∧ l_steps st' = l_steps st ∧
  (∀ x, x ∈ ids (l_frontier st) → x ∈ ids (l_frontier st')) ∧
  (∀ n, n ∈ ns → fst n ∈ l_visited st ∨ fst n ∈ ids (l_frontier st')) ∧
  length (ids (l_frontier st')) ≤ length (ids (l_frontier st)) + length ns.
Proof.
  induction ns as [|n ns IH]; intros st HG Hs Hc HX Hns; simpl.
  - split_and!; try done; [|lia]. intros n Hn. by apply elem_of_nil in Hn.
  - destruct (visit_spec cur st n HG Hs Hc HX) as (HG'&HX'&Hv&Hst&Hgr&Hcov&Hlen).
    { apply Hns. by left. }
    destruct (IH (qa_visit qa cur st n)) as (HG''&HX''&Hv'&Hst'&Hgr'&Hcov'&Hlen');
      try done; try (by rewrite Hv).
    { intros m Hm. apply Hns. by right. }
    split_and!; try done.
    + congruence.
    + congruence.
    + intros x Hx. by apply Hgr', Hgr.
    + intros m [->|Hm]%elem_of_cons.
      * destruct Hcov as [?|?]; [by left|]. right. by apply Hgr'.
      * rewrite <- Hv. by apply Hcov'.
    + lia.
Qed.

(** The invariant at the head of the loop. *)
Record QInv (st : Live F) : Prop := {
  qi_tree : GL st;
  qi_steps : steps_ok (l_steps st) (l_visited st);
  qi_closed : Closed (ids (l_frontier st)) (l_visited st);
  qi_extra : XL st
}.

(** What a returned result says about the final state. *)
Record QFinalAt (r : SearchResult) (st : Live F) : Prop := {
  qf_tree : GL st;
  qf_extra : XL st;
  qf_steps : steps_ok (steps r) (l_visited st);
  qf_count : nodesVisited r = length (l_visited st);
  qf_cases :
    (success r = true ∧ goalId ∈ l_visited st ∧
     ∃ path, reconstructPath (l_parent st) goalId = Some path ∧
             finalPath r = Some path ∧
             pathCost r = qa_cost qa st path)
    ∨ (success r = false ∧ finalPath r = None ∧ pathCost r = None ∧
       Closed [] (l_visited st) ∧ startId ∈ l_visited st)
}.

Definition QFinal (r : SearchResult) : Prop := ∃ st, QFinalAt r st.

Lemma queue_step st st' :
  QInv st → queueBody qa st = inl st' → QInv st'.
Proof.
  intros [HG Hst Hcl HX]. unfold queueBody.
  destruct (qa_pop qa (l_frontier st)) as [[c fr]|] eqn:Hpop; [|done].
  apply pop_some in Hpop. unfold GL, XL in *. simpl.
  destruct (has (l_visited st) c) eqn:Hhas.
  - apply has_true in Hhas. intros [= <-]. split; unfold GL, XL; simpl.
    + eapply GInv_frontier; [exact HG|by eapply GInv_start|].
      intros x Hx. left. rewrite Hpop. by right.
    + done.
    + intros x y Hx Hxy. destruct (Hcl x y Hx Hxy) as [?|Hy]; [by left|].
      rewrite Hpop in Hy. apply elem_of_cons in Hy as [->|?]; auto.
    + rewrite Hpop in HX. by eapply X_skip.
  - apply has_false in Hhas. rewrite (add_new _ _ Hhas).
    destruct (String.eqb c goalId) eqn:Heq.
    { destruct (reconstructPath _ _); done. }
    intros [= <-].
    assert (HG1 : GInv problem startId (ids fr) (l_visited st ++ [c])
                    (l_parent st) ∧ startId ∈ l_visited st ++ [c]).
    { rewrite Hpop in HG.
      destruct (GInv_enter _ _ _ _ _ _ HG (list_elem_of_here _ _) Hhas)
        as [HG1 Hs1].
      split; [|done]. eapply GInv_frontier; [exact HG1|done|].
      intros x Hx. left. by right. }
    destruct HG1 as [HG1 Hs1].
    set (st1 := withVisited (l_visited st ++ [c]) (withFrontier fr st)).
    destruct (visit_fold c (qa_order qa (getNeighbors problem c)) st1)
      as (HG2&HX2&Hv2&Hst2&Hgr2&Hcov2&_); unfold GL, XL; simpl; try done.
    { apply elem_of_app. right. by apply list_elem_of_singleton. }
    { rewrite Hpop in HX. by apply X_enter. }
    { intros n Hn. by rewrite order_perm in Hn. }
    simpl in *. split; unfold GL, XL; simpl; try done.
    + rewrite Hst2, Hv2. simpl.
      apply (steps_ok_push _ _
               (createStep _ c _ (l_visited st ++ [c]) _ _ _ _ false false None)
               Hst).
      simpl. rewrite length_app. lia.
    + rewrite Hv2. simpl. intros x y Hx Hxy.
      apply elem_of_app in Hx as [Hx| ->%list_elem_of_singleton].
      * destruct (Hcl x y Hx Hxy) as [?|Hy].
        { left. apply elem_of_app. by left. }
        rewrite Hpop in Hy. apply elem_of_cons in Hy as [->|Hy].
        { left. apply elem_of_app. right. by apply list_elem_of_singleton. }
        right. by apply Hgr2.
      * destruct Hxy as [k Hk].
        destruct (Hcov2 (y, k)) as [?|?]; [by rewrite order_perm|by left|by right].
Qed.

Lemma queue_exit st r :
  QInv st → queueBody qa st = inr (Returned r) → QFinal r.
Proof.
  intros [HG Hst Hcl HX]. unfold queueBody.
  destruct (qa_pop qa (l_frontier st)) as [[c fr]|] eqn:Hpop.
  - apply pop_some in Hpop. simpl.
    destruct (has (l_visited st) c) eqn:Hhas; [done|].
    apply has_false in Hhas. rewrite (add_new _ _ Hhas).
    destruct (String.eqb c goalId) eqn:Heq; [|done].
    apply eqb_true in Heq. subst c.
    destruct (reconstructPath (l_parent st) goalId) as [path|] eqn:Hrec;
      [|done].
    intros [= <-]. unfold GL, XL in *. rewrite Hpop in HG, HX.
    destruct (GInv_enter _ _ _ _ _ _ HG (list_elem_of_here _ _) Hhas)
      as [HG1 Hs1].
    set (st1 := withVisited (l_visited st ++ [goalId]) (withFrontier fr st)).
    exists st1. split; unfold GL, XL; simpl.
    + eapply GInv_frontier; [exact HG1|done|]. intros x Hx. left. by right.
    + by apply X_enter.
    + apply (steps_ok_push _ _
               (createStep _ goalId _ (l_visited st ++ [goalId]) _ _ _ _
                  true true (Some path)) Hst).
      simpl. rewrite length_app. lia.
    + done.
    + left. split_and!; [done| |].
      * apply elem_of_app. right. by apply list_elem_of_singleton.
      * by exists path.
  - apply pop_none in Hpop. intros [= <-].
    exists st. split; try done. right. simpl.
    split_and!; try done.
    + unfold Closed in *. by rewrite Hpop in Hcl.
    + unfold GL in HG.
      destruct (gi_start _ _ _ _ _ HG) as [?|(_&_&Hfr&_)]; [done|].
      rewrite Hpop in Hfr. by apply elem_of_nil in Hfr.
Qed.

(** *** Termination *)

Hypothesis U_closed : ∀ x, reach problem startId x → x ∈ U.

Definition mu (st : Live F) : nat :=
  length (ids (l_frontier st)) + work U (l_visited st).

Lemma queue_decrease st st' :
  QInv st → queueBody qa st = inl st' → mu st' < mu st.
Proof.
  intros [HG Hst Hcl HX]. unfold queueBody, mu.
  destruct (qa_pop qa (l_frontier st)) as [[c fr]|] eqn:Hpop; [|done].
  apply pop_some in Hpop. unfold GL, XL in *. simpl.
  destruct (has (l_visited st) c) eqn:Hhas.
  - intros [= <-]. simpl. rewrite Hpop. simpl. lia.
  - apply has_false in Hhas. rewrite (add_new _ _ Hhas).
    destruct (String.eqb c goalId) eqn:Heq.
    { destruct (reconstructPath _ _); done. }
    intros [= <-]. simpl. rewrite Hpop in HG, HX.
    destruct (GInv_enter _ _ _ _ _ _ HG (list_elem_of_here _ _) Hhas)
      as [HG1 Hs1].
    set (st1 := withVisited (l_visited st ++ [c]) (withFrontier fr st)).
    destruct (visit_fold c (qa_order qa (getNeighbors problem c)) st1)
      as (_&_&Hv2&_&_&_&Hlen); unfold GL, XL; simpl; try done.
    { eapply GInv_frontier; [exact HG1|done|]. intros x Hx. left. by right. }
    { apply elem_of_app. right. by apply list_elem_of_singleton. }
    { by apply X_enter. }
    { intros n Hn. by rewrite order_perm in Hn. }
    simpl in *. rewrite Hv2. simpl. rewrite Hpop. simpl.
    rewrite (Permutation_length (order_perm (getNeighbors problem c))) in Hlen.
    assert (c ∈ U) as HcU.
    { apply U_closed. apply (gi_reach _ _ _ _ _ HG). right. by left. }
    pose proof (work_enter U c (l_visited st) HcU Hhas). lia.
Qed.

Lemma queue_returns st o :
  QInv st → queueBody qa st = inr o → ∃ r, o = Returned r.
Proof.
  intros [HG Hst Hcl HX]. unfold queueBody.
  destruct (qa_pop qa (l_frontier st)) as [[c fr]|] eqn:Hpop;
    [|intros [= <-]; by eexists].
  apply pop_some in Hpop. simpl.
  destruct (has (l_visited st) c) eqn:Hhas; [done|].
  apply has_false in Hhas. rewrite (add_new _ _ Hhas).
  destruct (String.eqb c goalId) eqn:Heq; [|done].
  apply eqb_true in Heq. subst c. unfold GL in HG. rewrite Hpop in HG.
  destruct (GInv_enter _ _ _ _ _ _ HG (list_elem_of_here _ _) Hhas)
    as [HG1 Hs1].
  destruct (GInv_reconstruct_ends _ _ _ _ _ goalId HG1) as [path ->].
  { apply elem_of_app. right. by apply list_elem_of_singleton. }
  intros [= <-]. by eexists.
Qed.

Lemma queue_total fuel st :
  QInv st → mu st < fuel → ∃ r, while fuel (queueBody qa) st = Returned r.
Proof.
  apply (while_total (queueBody qa) QInv mu).
  - intros s s' Hs Hb. split; [by eapply queue_step | by eapply queue_decrease].
  - apply queue_returns.
Qed.

Lemma queue_final fuel st r :
  QInv st → while fuel (queueBody qa) st = Returned r → QFinal r.
Proof.
  apply (while_inv (queueBody qa) QInv QFinal).
  - apply queue_step.
  - apply queue_exit.
Qed.
End Generic.
End Queue.

Arguments qa_name {F} _.
Arguments qa_pop {F} _.
Arguments qa_show {F} _.
Arguments qa_order {F} _.
Arguments qa_visit {F} _.
Arguments qa_gv {F} _.
Arguments qa_hv {F} _.
Arguments qa_fv {F} _.
Arguments qa_cost {F} _.

(** ** The five algorithms as instances of the shared body *)

Section Instances.
Variable Math_sqrt : Q → Q.
Variable problem : Problem.
Let startId := getStartId problem.
Let goalId := getGoalId problem.

Definition popList (fr : list string) : option (string * list string) :=
  match fr with
  | [] => None
  | c :: rest => Some (c, rest)
  end.

Definition popPq (pq : PriorityQueue.t) : option (string * PriorityQueue.t) :=
  match PriorityQueue.dequeue pq with
  | (Some c, rest) => Some (c, rest)
  | (None, _) => None
  end.

Definition hops (path : list string) : option num :=
  Some (Fin (inject_Z (Z.of_nat (length path) - 1))).

Definition bfsAlg : QueueAlg (list string) :=
  {| qa_name := "bfs"; qa_pop := popList; qa_show := λ fr, fr;
     qa_order := λ ns, ns; qa_visit := bfsVisit;
     qa_gv := λ _, ∅; qa_hv := λ _, ∅; qa_fv := λ _, ∅;
     qa_cost := λ _ path, hops path |}.

Definition dfsAlg : QueueAlg (list string) :=
  {| qa_name := "dfs"; qa_pop := popList; qa_show := λ fr, rev fr;
     qa_order := λ ns, rev ns; qa_visit := dfsVisit;
     qa_gv := λ _, ∅; qa_hv := λ _, ∅; qa_fv := λ _, ∅;
     qa_cost := λ _ path, hops path |}.

Definition ucsAlg : QueueAlg PriorityQueue.t :=
  {| qa_name := "ucs"; qa_pop := popPq; qa_show := PriorityQueue.toArray;
     qa_order := λ ns, ns; qa_visit := ucsVisit;
     qa_gv := l_g; qa_hv := λ _, ∅; qa_fv := λ _, ∅;
     qa_cost := λ st _, l_g st !! goalId |}.

Definition greedyAlg : QueueAlg PriorityQueue.t :=
  {| qa_name := "greedy"; qa_pop := popPq; qa_show := PriorityQueue.toArray;
     qa_order := λ ns, ns;
     qa_visit := greedyVisit Math_sqrt problem goalId;
     qa_gv := l_g; qa_hv := l_h; qa_fv := l_h;
     qa_cost := λ _ path, Some (sumPathCost problem path (Fin 0)) |}.

Definition astarAlg : QueueAlg PriorityQueue.t :=
  {| qa_name := "astar"; qa_pop := popPq; qa_show := PriorityQueue.toArray;
     qa_order := λ ns, ns;
     qa_visit := astarVisit Math_sqrt problem goalId;
     qa_gv := l_g; qa_hv := l_h; qa_fv := l_f;
     qa_cost := λ st _, l_g st !! goalId |}.

Lemma bfsBody_queue st : bfsBody problem goalId st = queueBody problem bfsAlg st.
Proof. unfold bfsBody, queueBody. simpl. by destruct (l_frontier st). Qed.

Lemma dfsBody_queue st : dfsBody problem goalId st = queueBody problem dfsAlg st.
Proof. unfold dfsBody, queueBody. simpl. by destruct (l_frontier st). Qed.

Lemma ucsBody_queue st : ucsBody problem goalId st = queueBody problem ucsAlg st.
Proof.
  unfold ucsBody, queueBody. simpl. unfold popPq. by destruct (l_frontier st).
Qed.

Lemma greedyBody_queue st :
  greedyBody Math_sqrt problem goalId st = queueBody problem greedyAlg st.
Proof.
  unfold greedyBody, queueBody. simpl. unfold popPq.
  by destruct (l_frontier st).
Qed.

Lemma astarBody_queue st :
  astarBody Math_sqrt problem goalId st = queueBody problem astarAlg st.
Proof.
  unfold astarBody, queueBody. simpl. unfold popPq.
  by destruct (l_frontier st).
Qed.

Lemma while_ext {S R : Type} (b1 b2 : S → S + outcome R) :
  (∀ s, b1 s = b2 s) → ∀ fuel s, while fuel b1 s = while fuel b2 s.
Proof.
  intros Heq. induction fuel as [|fuel IH]; intros s; simpl; [done|].
  rewrite Heq. destruct (b2 s); [apply IH | done].
Qed.

(** *** Popping *)

Lemma popList_none fr : popList fr = None → fr = [].
Proof. by destruct fr. Qed.

Lemma popList_some fr c fr' : popList fr = Some (c, fr') → fr = c :: fr'.
Proof. destruct fr; [done|]. by intros [= -> ->]. Qed.

Lemma popPq_none pq : popPq pq = None → PriorityQueue.toArray pq = [].
Proof. by destruct pq. Qed.

Lemma popPq_some pq c pq' :
  popPq pq = Some (c, pq') →
  PriorityQueue.toArray pq = c :: PriorityQueue.toArray pq'.
Proof. destruct pq; [done|]. by intros [= <- <-]. Qed.

(** *** The further invariant of UCS and A*: costs follow the parents *)

Definition CostInv (fr v : list string) (pm : gmap string string)
    (g : gmap string num) : Prop :=
  (∀ id, is_Some (g !! id) → id ∈ v ∨ id ∈ fr) ∧
  (∀ id p, pm !! id = Some p →
     ∃ c, (id, c) ∈ getNeighbors problem p ∧
          g !! id = Some (nadd (numOf (g !! p)) c)) ∧
  g !! startId = Some (Fin 0).

Definition NoExtra (fr v : list string) (pm : gmap string string)
    (g : gmap string num) : Prop := True.

Lemma CostInv_skip c fr v pm g :
  CostInv (c :: fr) v pm g → c ∈ v → CostInv fr v pm g.
Proof.
  intros (H1&H2&H3) Hc. split_and!; [|done..].
  intros id Hid. destruct (H1 id Hid) as [?|[->|?]%elem_of_cons]; auto.
Qed.

Lemma CostInv_enter c fr v pm g :
  CostInv (c :: fr) v pm g → c ∉ v → CostInv fr (v ++ [c]) pm g.
Proof.
  intros (H1&H2&H3) Hc. split_and!; [|done..].
  intros id Hid. rewrite elem_of_app, list_elem_of_singleton.
  destruct (H1 id Hid) as [?|[->|?]%elem_of_cons]; auto.
Qed.

Abbreviation GLl := (GL problem (F := list string) (λ fr, fr)).
Abbreviation GLp := (GL problem (F := PriorityQueue.t) PriorityQueue.toArray).

(** *** One neighbor *)

Lemma bfsVisit_spec cur st n :
  GLl st → startId ∈ l_visited st → cur ∈ l_visited st →
  n ∈ getNeighbors problem cur →
  let st' := bfsVisit cur st n in
  GLl st' ∧ True ∧
  l_visited st' = l_visited st ∧ l_steps st' = l_steps st ∧
  (∀ x, x ∈ l_frontier st → x ∈ l_frontier st') ∧
  (fst n ∈ l_visited st ∨ fst n ∈ l_frontier st') ∧
  length (l_frontier st') ≤ Datatypes.S (length (l_frontier st)).
Proof.
  intros HG Hs Hc Hn. destruct n as [id c]. unfold bfsVisit. simpl.
  destruct (has (l_visited st) id) eqn:Hv; simpl.
  { apply has_true in Hv. split_and!; auto. }
  destruct (has (l_frontier st) id) eqn:Hf; simpl.
  { apply has_true in Hf. split_and!; auto. }
  apply has_false in Hv. unfold GL in *. simpl. split_and!; try done.
  - eapply GInv_push; eauto; [by exists c|].
    intros x [?| ->%list_elem_of_singleton]%elem_of_app; auto.
  - intros x Hx. apply elem_of_app. by left.
  - right. apply elem_of_app. right. by apply list_elem_of_singleton.
  - rewrite length_app. simpl. lia.
Qed.

Lemma dfsVisit_spec cur st n :
  GLl st → startId ∈ l_visited st → cur ∈ l_visited st →
  n ∈ getNeighbors problem cur →
  let st' := dfsVisit cur st n in
  GLl st' ∧ True ∧
  l_visited st' = l_visited st ∧ l_steps st' = l_steps st ∧
  (∀ x, x ∈ l_frontier st → x ∈ l_frontier st') ∧
  (fst n ∈ l_visited st ∨ fst n ∈ l_frontier st') ∧
  length (l_frontier st') ≤ Datatypes.S (length (l_frontier st)).
Proof.
  intros HG Hs Hc Hn. destruct n as [id c]. unfold dfsVisit. simpl.
  destruct (has (l_visited st) id) eqn:Hv; simpl.
  { apply has_true in Hv. split_and!; auto. }
  apply has_false in Hv. unfold GL in *.
  assert (Hpush : GInv problem startId (id :: l_frontier st) (l_visited st)
                    (<[id := cur]> (l_parent st))).
  { eapply GInv_push; eauto; [by exists c|].
    intros x [->|?]%elem_of_cons; auto. }
  assert (Hkeep : is_Some (l_parent st !! id) →
                  GInv problem startId (id :: l_frontier st) (l_visited st)
                    (l_parent st)).
  { intros Hp. eapply GInv_frontier; [exact HG|done|].
    intros x [->|?]%elem_of_cons; [|by left]. right. split; [|by right].
    eapply rtc_r; [apply (gi_reach _ _ _ _ _ HG); by left | by exists c]. }
  destruct (l_parent st !! id) as [p|] eqn:Hp; [destruct (truthy p)|];
    simpl; split_and!; try done;
    try (rewrite <- Hp in Hkeep; apply Hkeep; by eexists);
    try (intros x Hx; by right); try (right; by left); simpl; lia.
Qed.

Lemma greedyVisit_spec cur st n :
  GLp st → startId ∈ l_visited st → cur ∈ l_visited st →
  n ∈ getNeighbors problem cur →
  let st' := greedyVisit Math_sqrt problem goalId cur st n in
  GLp st' ∧ True ∧
  l_visited st' = l_visited st ∧ l_steps st' = l_steps st ∧
  (∀ x, x ∈ PriorityQueue.toArray (l_frontier st) →
        x ∈ PriorityQueue.toArray (l_frontier st')) ∧
  (fst n ∈ l_visited st ∨ fst n ∈ PriorityQueue.toArray (l_frontier st')) ∧
  length (PriorityQueue.toArray (l_frontier st'))
    ≤ Datatypes.S (length (PriorityQueue.toArray (l_frontier st))).
Proof.
  intros HG Hs Hc Hn. destruct n as [id c]. unfold greedyVisit. simpl.
  destruct (has (l_visited st) id) eqn:Hv; simpl.
  { apply has_true in Hv. split_and!; auto. }
  apply has_false in Hv. unfold GL in *. simpl. split_and!; try done.
  - eapply GInv_push; eauto; [by exists c|].
    intros x [?|?]%toArray_enqueue; auto.
  - intros x Hx. apply toArray_enqueue. by right.
  - right. apply toArray_enqueue. by left.
  - unfold PriorityQueue.toArray. rewrite !length_map, length_enqueue. lia.
Qed.

Lemma cost_insert fr v pm g cur id c newG :
  GInv problem startId fr v pm → CostInv fr v pm g →
  startId ∈ v → cur ∈ v → id ∉ v → (id, c) ∈ getNeighbors problem cur →
  newG = nadd (numOf (g !! cur)) c →
  ∀ fr', (∀ x, x ∈ fr' ↔ x = id ∨ x ∈ fr) →
  CostInv fr' v (<[id := cur]> pm) (<[id := newG]> g).
Proof.
  intros HG (H1&H2&H3) Hs Hc Hv Hn -> fr' Hfr.
  assert (cur ≠ id) by (intros ->; done).
  split_and!.
  - intros x. rewrite lookup_insert. case_decide as E.
    + subst. intros _. right. apply Hfr. by left.
    + intros Hx. destruct (H1 x Hx); [by left|]. right. apply Hfr. by right.
  - intros x p. rewrite lookup_insert. case_decide as E.
    + intros [= <-]. subst x. exists c. split; [done|].
      rewrite lookup_insert_eq. by rewrite lookup_insert_ne.
    + intros Hp. destruct (H2 x p Hp) as (k&Hk&Hg). exists k. split; [done|].
      rewrite lookup_insert_ne by done.
      destruct (gi_parent _ _ _ _ _ HG _ _ Hp) as (Hpv&_&_).
      rewrite lookup_insert_ne; [done|]. intros ->. done.
  - rewrite lookup_insert_ne; [done|]. intros ->. done.
Qed.

Lemma ucsVisit_spec cur st n :
  GLp st → startId ∈ l_visited st → cur ∈ l_visited st →
  XL PriorityQueue.toArray CostInv st →
  n ∈ getNeighbors problem cur →
  let st' := ucsVisit cur st n in
  GLp st' ∧ XL PriorityQueue.toArray CostInv st' ∧
  l_visited st' = l_visited st ∧ l_steps st' = l_steps st ∧
  (∀ x, x ∈ PriorityQueue.toArray (l_frontier st) →
        x ∈ PriorityQueue.toArray (l_frontier st')) ∧
  (fst n ∈ l_visited st ∨ fst n ∈ PriorityQueue.toArray (l_frontier st')) ∧
  length (PriorityQueue.toArray (l_frontier st'))
    ≤ Datatypes.S (length (PriorityQueue.toArray (l_frontier st))).
Proof.
  intros HG Hs Hc HX Hn. destruct n as [id c]. unfold ucsVisit. simpl.
  destruct (has (l_visited st) id) eqn:Hv; simpl.
  { apply has_true in Hv. split_and!; auto. }
  apply has_false in Hv. unfold GL, XL in *.
  destruct (improves _ (l_g st !! id)) eqn:Himp; simpl.
  - split_and!; try done.
    + eapply GInv_push; eauto; [by exists c|].
      intros x [?|?]%toArray_enqueue; auto.
    + eapply cost_insert; eauto. intros x. apply toArray_enqueue.
    + intros x Hx. apply toArray_enqueue. by right.
    + right. apply toArray_enqueue. by left.
    + unfold PriorityQueue.toArray. rewrite !length_map, length_enqueue. lia.
  - split_and!; auto.
    destruct (l_g st !! id) as [old|] eqn:Hg; [|done].
    destruct HX as (H1&_). destruct (H1 id) as [?|?]; auto.
Qed.

Lemma astarVisit_spec cur st n :
  GLp st → startId ∈ l_visited st → cur ∈ l_visited st →
  XL PriorityQueue.toArray CostInv st →
  n ∈ getNeighbors problem cur →
  let st' := astarVisit Math_sqrt problem goalId cur st n in
  GLp st' ∧ XL PriorityQueue.toArray CostInv st' ∧
  l_visited st' = l_visited st ∧ l_steps st' = l_steps st ∧
  (∀ x, x ∈ PriorityQueue.toArray (l_frontier st) →
        x ∈ PriorityQueue.toArray (l_frontier st')) ∧
  (fst n ∈ l_visited st ∨ fst n ∈ PriorityQueue.toArray (l_frontier st')) ∧
  length (PriorityQueue.toArray (l_frontier st'))
    ≤ Datatypes.S (length (PriorityQueue.toArray (l_frontier st))).
Proof.
  intros HG Hs Hc HX Hn. destruct n as [id c]. unfold astarVisit. simpl.
  destruct (has (l_visited st) id) eqn:Hv; simpl.
  { apply has_true in Hv. split_and!; auto. }
  apply has_false in Hv. unfold GL, XL in *.
  destruct (improves _ (l_g st !! id)) eqn:Himp; simpl.
  - split_and!; try done.
    + eapply GInv_push; eauto; [by exists c|].
      intros x [?|?]%toArray_enqueue; auto.
    + eapply cost_insert; eauto. intros x. apply toArray_enqueue.
    + intros x Hx. apply toArray_enqueue. by right.
    + right. apply toArray_enqueue. by left.
    + unfold PriorityQueue.toArray. rewrite !length_map, length_enqueue. lia.
  - split_and!; auto.
    destruct (l_g st !! id) as [old|] eqn:Hg; [|done].
    destruct HX as (H1&_). destruct (H1 id) as [?|?]; auto.
Qed.
End Instances.

(** ** The neighbor resolver *)

Section Resolver.
Variable g : GridProblem.

Definition inBounds (r c : Z) : bool :=
  (0 <=? r)%Z && (r <? rows g)%Z && (0 <=? c)%Z && (c <? cols g)%Z.

(** An offset is diagonal when it moves along both axes. *)
Definition isDiagonal (d : Z * Z) : bool :=
  negb (fst d =? 0)%Z && negb (snd d =? 0)%Z.

(** 1.414 for a diagonal move and 1 for an orthogonal one. *)
Definition stepFactor (d : Z * Z) : Q :=
  if isDiagonal d then 1414 # 1000 else 1.

(** What the resolver owes for one candidate offset from [(r, c)]:
    nothing when the target is out of bounds, missing or an obstacle,
    otherwise the target's id and the factor times the target's weight. *)
Definition specNeighbor (r c : Z) (d : Z * Z) : option Neighbor :=
  let r' := (r + fst d)%Z in
  let c' := (c + snd d)%Z in
  if inBounds r' c' then
    match findCell g r' c' with
    | Some cl =>
        if cell_isObstacle cl then None
        else Some (gridCellToId r' c', Fin (stepFactor d * cell_weight cl))
    | None => None
    end
  else None.

Lemma dirCost_stepFactor diag d :
  d ∈ directions diag → dirCost (fst d) (snd d) = stepFactor d.
Proof.
  intros Hd. destruct diag; simpl in Hd;
    repeat (apply elem_of_cons in Hd as [->|Hd]; [reflexivity|]);
    by apply elem_of_nil in Hd.
Qed.

Lemma gridVisit_spec r c acc d diag :
  d ∈ directions diag →
  gridVisit g (Some r) (Some c) acc d
  = acc ++ from_option (λ n, [n]) [] (specNeighbor r c d).
Proof.
  intros Hd. unfold gridVisit, specNeighbor, inBounds.
  rewrite (dirCost_stepFactor diag d Hd).
  destruct (_ && _ && _ && _); simpl; [|by rewrite app_nil_r].
  destruct (findCell g _ _) as [cl|]; simpl; [|by rewrite app_nil_r].
  destruct (cell_isObstacle cl); simpl; [by rewrite app_nil_r | done].
Qed.

Lemma gridFold_spec r c diag ds acc :
  (∀ d, d ∈ ds → d ∈ directions diag) →
  fold_left (gridVisit g (Some r) (Some c)) ds acc
  = acc ++ omap (specNeighbor r c) ds.
Proof.
  revert acc. induction ds as [|d ds IH]; intros acc Hds; cbn [fold_left].
  - simpl. by rewrite app_nil_r.
  - rewrite IH by (intros; apply Hds; by right).
    rewrite (gridVisit_spec r c acc d diag) by (apply Hds; by left).
    rewrite <- app_assoc. f_equal. simpl.
    by destruct (specNeighbor r c d).
Qed.

Lemma gridFold_undecoded r c ds acc :
  r = None ∨ c = None →
  fold_left (gridVisit g r c) ds acc = acc.
Proof.
  intros Hrc. revert acc.
  induction ds as [|d ds IH]; intros acc; cbn [fold_left]; [done|].
  rewrite IH. unfold gridVisit. destruct Hrc as [-> | ->]; [done|].
  by destruct r.
Qed.

Lemma directions_spec diag d :
  d ∈ directions diag ↔
  (Z.abs (fst d) + Z.abs (snd d) = 1)%Z ∨
  (diag = true ∧ Z.abs (fst d) = 1%Z ∧ Z.abs (snd d) = 1%Z).
Proof.
  split.
  - intros Hd. destruct diag; simpl in Hd;
      repeat (apply elem_of_cons in Hd as [->|Hd];
              [simpl; first [by left | by right]|]);
      by apply elem_of_nil in Hd.
  - destruct d as [dr dc]. simpl. intros H.
    assert ((dr = -1 ∨ dr = 0 ∨ dr = 1) ∧ (dc = -1 ∨ dc = 0 ∨ dc = 1))%Z
      as [Hr Hc] by lia.
    destruct diag; simpl;
      destruct Hr as [-> | [-> | ->]]; destruct Hc as [-> | [-> | ->]];
      simpl in H; try lia;
      repeat first [by apply list_elem_of_here | apply list_elem_of_further];
      destruct H as [?|(?&?&?)]; lia || done.
Qed.

(** With one cell per coordinate, the cell that [find] returns is the
    cell at that coordinate. *)
Lemma findCell_unique cl :
  (∀ c1 c2, c1 ∈ cells g → c2 ∈ cells g →
     cell_row c1 = cell_row c2 → cell_col c1 = cell_col c2 → c1 = c2) →
  cl ∈ cells g → findCell g (cell_row cl) (cell_col cl) = Some cl.
Proof.
  intros Huniq Hcl. unfold findCell.
  destruct (find _ (cells g)) as [cl'|] eqn:Hf.
  - apply find_some in Hf as [Hin Heq].
    apply andb_true_iff in Heq as [H1%Z.eqb_eq H2%Z.eqb_eq].
    f_equal. apply Huniq; auto. by apply list_elem_of_In.
  - apply list_elem_of_In in Hcl.
    pose proof (find_none _ _ Hf _ Hcl) as Hn. simpl in Hn.
    by rewrite !Z.eqb_refl in Hn.
Qed.
End Resolver.

Lemma getGridNeighbors_decoded g id r c :
  idToGridCell id = {| dec_row := Some r; dec_col := Some c |} →
  getGridNeighbors g id = omap (specNeighbor g r c) (directions (allowDiagonal g)).
Proof.
  intros Hid. unfold getGridNeighbors. rewrite Hid. simpl.
  by rewrite (gridFold_spec g r c (allowDiagonal g)).
Qed.

Lemma getGridNeighbors_undecoded g id :
  dec_row (idToGridCell id) = None ∨ dec_col (idToGridCell id) = None →
  getGridNeighbors g id = [].
Proof. intros H. unfold getGridNeighbors. by apply gridFold_undecoded. Qed.

(** Every identifier that a run can meet. *)
Definition universe (problem : Problem) : list string :=
  getStartId problem ::
  match problem with
  | Grid g =>
      flat_map (λ r, map (gridCellToId r) (seqZ 0 (cols g))) (seqZ 0 (rows g))
  | Graph g => flat_map (λ e, [edge_from e; edge_to e]) (edges g)
  end.

Lemma graphFold_elem g nodeId es acc x :
  x ∈ fold_left (graphVisit g nodeId) es acc →
  x ∈ acc ∨ ∃ e, e ∈ es ∧ (fst x = edge_to e ∨ fst x = edge_from e).
Proof.
  revert acc. induction es as [|e es IH]; intros acc; simpl; [by left|].
  intros Hx. destruct (IH _ Hx) as [Hacc|(e'&He'&Hx')].
  - unfold graphVisit in Hacc.
    assert (x ∈ acc ∨ fst x = edge_to e ∨ fst x = edge_from e) as [?|Hxe].
    { destruct (String.eqb (edge_from e) nodeId);
        destruct (negb (isDirected g) && String.eqb (edge_to e) nodeId);
        repeat (apply elem_of_app in Hacc as [Hacc|Hacc]);
        try apply list_elem_of_singleton in Hacc; subst; simpl; auto. }
    + by left.
    + right. exists e. split; [by left | done].
  - right. exists e'. split; [by right | done].
Qed.

Lemma neighbors_universe problem p x c :
  (x, c) ∈ getNeighbors problem p → x ∈ universe problem.
Proof.
  unfold universe. destruct problem as [g|g]; simpl; intros Hx; right.
  - destruct (idToGridCell p) as [[r|] [k|]] eqn:Hid;
      try (rewrite getGridNeighbors_undecoded in Hx;
           [by apply elem_of_nil in Hx | rewrite Hid; simpl; by auto]).
    rewrite (getGridNeighbors_decoded g p r k Hid) in Hx.
    apply list_elem_of_omap in Hx as (d&Hd&Hs).
    unfold specNeighbor, inBounds in Hs.
    destruct (_ && _ && _ && _) eqn:Hb; [|done].
    destruct (findCell g _ _) as [cl|]; [|done].
    destruct (cell_isObstacle cl); [done|]. injection Hs as <- _.
    apply list_elem_of_In, in_flat_map.
    exists (r + fst d)%Z. rewrite <- !list_elem_of_In.
    rewrite list_elem_of_fmap, elem_of_seqZ.
    split; [lia|]. exists (k + snd d)%Z. split; [done|].
    rewrite elem_of_seqZ. lia.
  - unfold getGraphNeighbors in Hx.
    apply graphFold_elem in Hx as [Hx|(e&He&Hx)]; [by apply elem_of_nil in Hx|].
    apply list_elem_of_In, in_flat_map. exists e.
    rewrite <- !list_elem_of_In. split; [done|]. simpl in Hx.
    destruct Hx as [->| ->]; [right; left | left].
  Unshelve. all: done.
Qed.

Lemma universe_closed problem x :
  reach problem (getStartId problem) x → x ∈ universe problem.
Proof.
  unfold reach. revert x. apply rtc_ind_r; [by left|].
  intros y z _ [c Hc] _. by eapply neighbors_universe.
Qed.

(** ** What every tree-building algorithm returns *)

Section Final.
Variable Math_sqrt : Q → Q.
Variable problem : Problem.
Let startId := getStartId problem.
Let goalId := getGoalId problem.

(** The result comes from a final state whose visited set and parent
    map form a search tree; [exh] says whether a failed run has
    exhausted the nodes reachable from the start. *)
Definition TreeFinal (exh : bool) (r : SearchResult) : Prop :=
  ∃ v pm,
    (∃ fr, GInv problem startId fr v pm) ∧ startId ∈ v ∧
    steps_ok (steps r) v ∧ nodesVisited r = length v ∧
    ((success r = true ∧ goalId ∈ v ∧
      ∃ path, reconstructPath pm goalId = Some path ∧
              finalPath r = Some path)
     ∨ (success r = false ∧ finalPath r = None ∧ pathCost r = None ∧
        (exh = true → Closed problem [] v))).

Lemma QFinal_TreeFinal {F} (qa : QueueAlg F) ids X r :
  QFinal problem qa ids X r → TreeFinal true r.
Proof.
  intros [st [HG HX Hst Hc Hcases]]. exists (l_visited st), (l_parent st).
  split_and!; try done.
  - by eexists.
  - destruct Hcases as [(_&Hg&_)|(_&_&_&_&?)]; [|done].
    by eapply GInv_start.
  - destruct Hcases as [(?&?&path&?&?&?)|(?&?&?&?&?)]; [left|right].
    + split_and!; try done. by exists path.
    + done.
Qed.

Lemma TreeFinal_weaken exh r : TreeFinal exh r → TreeFinal false r.
Proof.
  intros (v&pm&?&?&?&?&Hc). exists v, pm. split_and!; try done.
  destruct Hc as [?|(?&?&?&_)]; [by left|right]. done.
Qed.

(** *** Initial states *)

Lemma init_list_inv step0 :
  visited step0 = [] →
  QInv problem (F := list string) (λ fr, fr) NoExtra
    (initial [startId] [] ∅ ∅ ∅ step0).
Proof.
  intros Hv. split; unfold GL, XL; simpl.
  - apply GInv_init_frontier.
  - rewrite <- Hv. apply steps_ok_init.
  - intros x y Hx. by apply elem_of_nil in Hx.
  - done.
Qed.

Lemma toArray_singleton pr :
  PriorityQueue.toArray
    (PriorityQueue.enqueue startId pr PriorityQueue.empty) = [startId].
Proof. reflexivity. Qed.

Lemma init_pq_inv pr h f step0 :
  visited step0 = [] →
  QInv problem PriorityQueue.toArray (CostInv problem)
    (initial (PriorityQueue.enqueue startId pr PriorityQueue.empty) []
       {[ startId := Fin 0 ]} h f step0).
Proof.
  intros Hv. split; unfold GL, XL; simpl; rewrite ?toArray_singleton.
  - apply GInv_init_frontier.
  - rewrite <- Hv. apply steps_ok_init.
  - intros x y Hx. by apply elem_of_nil in Hx.
  - split_and!.
    + intros id [k Hk]. right. apply list_elem_of_singleton.
      apply lookup_singleton_Some in Hk as [<- _]. done.
    + intros id p Hp. by rewrite lookup_empty in Hp.
    + by rewrite lookup_singleton_eq.
Qed.

Lemma init_pq_inv' pr gv h f step0 :
  visited step0 = [] →
  QInv problem PriorityQueue.toArray NoExtra
    (initial (PriorityQueue.enqueue startId pr PriorityQueue.empty) []
       gv h f step0).
Proof.
  intros Hv. split; unfold GL, XL; simpl; rewrite ?toArray_singleton.
  - apply GInv_init_frontier.
  - rewrite <- Hv. apply steps_ok_init.
  - intros x y Hx. by apply elem_of_nil in Hx.
  - done.
Qed.

(** *** The five runs *)

Definition bfsFinal := QFinal problem (bfsAlg) (λ fr, fr) NoExtra.
Definition dfsFinal := QFinal problem (dfsAlg) (λ fr, fr) NoExtra.
Definition ucsFinal :=
  QFinal problem (ucsAlg problem) PriorityQueue.toArray (CostInv problem).
Definition greedyFinal :=
  QFinal problem (greedyAlg Math_sqrt problem) PriorityQueue.toArray NoExtra.
Definition astarFinal :=
  QFinal problem (astarAlg Math_sqrt problem) PriorityQueue.toArray
    (CostInv problem).

Ltac queue_hyps :=
  first
    [ exact popList_none | exact popList_some
    | exact popPq_none | exact popPq_some
    | (intros ns; simpl; first [done | symmetry; apply Permutation_rev])
    | (intros; exact I)
    | exact (CostInv_skip problem) | exact (CostInv_enter problem)
    | (intros cur st n ? ? ? ? ?; simpl; apply bfsVisit_spec; done)
    | (intros cur st n ? ? ? ? ?; simpl; apply dfsVisit_spec; done)
    | (intros cur st n ? ? ? ? ?; simpl; apply greedyVisit_spec; done)
    | (intros cur st n ? ? ? ? ?; simpl; apply ucsVisit_spec; done)
    | (intros cur st n ? ? ? ? ?; simpl; apply astarVisit_spec; done)
    | exact (universe_closed problem) ].

Definition enough : nat :=
  Datatypes.S (Datatypes.S (work problem (universe problem) [])).

Lemma bfs_final fuel r : runBFS fuel problem = Returned r → bfsFinal r.
Proof.
  unfold runBFS. rewrite (while_ext _ _ (bfsBody_queue problem)).
  intros H.
  refine (queue_final problem bfsAlg (λ fr, fr) NoExtra _ _ _ _ _ _ fuel _ r _ H); try queue_hyps.
  apply init_list_inv. reflexivity.
Qed.

Lemma bfs_total fuel :
  enough ≤ fuel → ∃ r, runBFS fuel problem = Returned r.
Proof.
  intros Hf. unfold runBFS. rewrite (while_ext _ _ (bfsBody_queue problem)).
  refine (queue_total problem bfsAlg (λ fr, fr) NoExtra (universe problem)
            _ _ _ _ _ _ fuel _ _ _); try queue_hyps.
  - apply init_list_inv. reflexivity.
  - unfold mu, enough in *. simpl. lia.
Qed.

Lemma dfs_final fuel r : runDFS fuel problem = Returned r → dfsFinal r.
Proof.
  unfold runDFS. rewrite (while_ext _ _ (dfsBody_queue problem)).
  intros H.
  refine (queue_final problem dfsAlg (λ fr, fr) NoExtra _ _ _ _ _ _ fuel _ r _ H); try queue_hyps.
  apply init_list_inv. reflexivity.
Qed.

Lemma dfs_total fuel :
  enough ≤ fuel → ∃ r, runDFS fuel problem = Returned r.
Proof.
  intros Hf. unfold runDFS. rewrite (while_ext _ _ (dfsBody_queue problem)).
  refine (queue_total problem dfsAlg (λ fr, fr) NoExtra (universe problem)
            _ _ _ _ _ _ fuel _ _ _); try queue_hyps.
  - apply init_list_inv. reflexivity.
  - unfold mu, enough in *. simpl. lia.
Qed.

Lemma ucs_final fuel r : runUCS fuel problem = Returned r → ucsFinal r.
Proof.
  unfold runUCS. rewrite (while_ext _ _ (ucsBody_queue problem)).
  intros H.
  refine (queue_final problem (ucsAlg problem) PriorityQueue.toArray (CostInv problem) _ _ _ _ _ _ fuel _ r _ H); try queue_hyps.
  apply init_pq_inv. reflexivity.
Qed.

Lemma ucs_total fuel :
  enough ≤ fuel → ∃ r, runUCS fuel problem = Returned r.
Proof.
  intros Hf. unfold runUCS. rewrite (while_ext _ _ (ucsBody_queue problem)).
  refine (queue_total problem (ucsAlg problem) PriorityQueue.toArray (CostInv problem) (universe problem)
            _ _ _ _ _ _ fuel _ _ _); try queue_hyps.
  - apply init_pq_inv. reflexivity.
  - unfold mu, enough in *. simpl. lia.
Qed.

Lemma greedy_final fuel r :
  runGreedy Math_sqrt fuel problem = Returned r → greedyFinal r.
Proof.
  unfold runGreedy.
  rewrite (while_ext _ _ (greedyBody_queue Math_sqrt problem)).
  intros H.
  refine (queue_final problem (greedyAlg Math_sqrt problem) PriorityQueue.toArray NoExtra _ _ _ _ _ _ fuel _ r _ H); try queue_hyps.
  apply init_pq_inv'. reflexivity.
Qed.

Lemma greedy_total fuel :
  enough ≤ fuel → ∃ r, runGreedy Math_sqrt fuel problem = Returned r.
Proof.
  intros Hf. unfold runGreedy.
  rewrite (while_ext _ _ (greedyBody_queue Math_sqrt problem)).
  refine (queue_total problem (greedyAlg Math_sqrt problem) PriorityQueue.toArray NoExtra (universe problem)
            _ _ _ _ _ _ fuel _ _ _); try queue_hyps.
  - apply init_pq_inv'. reflexivity.
  - unfold mu, enough in *. simpl. lia.
Qed.

Lemma astar_final fuel r :
  runAStar Math_sqrt fuel problem = Returned r → astarFinal r.
Proof.
  unfold runAStar.
  rewrite (while_ext _ _ (astarBody_queue Math_sqrt problem)).
  intros H.
  refine (queue_final problem (astarAlg Math_sqrt problem) PriorityQueue.toArray (CostInv problem) _ _ _ _ _ _ fuel _ r _ H); try queue_hyps.
  apply init_pq_inv. reflexivity.
Qed.

Lemma astar_total fuel :
  enough ≤ fuel → ∃ r, runAStar Math_sqrt fuel problem = Returned r.
Proof.
  intros Hf. unfold runAStar.
  rewrite (while_ext _ _ (astarBody_queue Math_sqrt problem)).
  refine (queue_total problem (astarAlg Math_sqrt problem) PriorityQueue.toArray (CostInv problem) (universe problem)
            _ _ _ _ _ _ fuel _ _ _); try queue_hyps.
  - apply init_pq_inv. reflexivity.
  - unfold mu, enough in *. simpl. lia.
Qed.
End Final.

(** ** Counting the nodes that are not visited yet *)

Definition unvisited (U v : list string) : nat :=
  length (filter (λ u, u ∉ v) U).

Lemma unvisited_mono U v v' :
  (∀ x, x ∈ v → x ∈ v') → unvisited U v' ≤ unvisited U v.
Proof.
  intros Hsub. unfold unvisited. induction U as [|u U IH]; simpl; [done|].
  rewrite !filter_cons. repeat case_decide; simpl; try lia.
  exfalso. naive_solver.
Qed.

Lemma unvisited_less U v v' x :
  (∀ y, y ∈ v → y ∈ v') → x ∈ U → x ∈ v' → x ∉ v →
  unvisited U v' < unvisited U v.
Proof.
  intros Hsub HU Hv' Hv. induction U as [|u U IH]; simpl.
  - by apply elem_of_nil in HU.
  - pose proof (unvisited_mono U v v' Hsub) as Hm. unfold unvisited in *.
    rewrite !filter_cons. apply elem_of_cons in HU as [<-|HU].
    + repeat case_decide; simpl; try done; lia.
    + specialize (IH HU). repeat case_decide; simpl; try lia.
      exfalso. naive_solver.
Qed.

(** ** Hill climbing *)

Section Hill.
Variable Math_sqrt : Q → Q.
Variable problem : Problem.
Let startId := getStartId problem.
Let goalId := getGoalId problem.

Record HInv (st : Live string) : Prop := {
  hi_tree : GInv problem startId [] (l_visited st) (l_parent st);
  hi_steps : steps_ok (l_steps st) (l_visited st);
  hi_cur : l_frontier st ∈ l_visited st;
  hi_start : startId ∈ l_visited st
}.

Lemma hill_fold cur ns :
  ∀ st bh best st' bh' best',
    fold_left (hillVisit Math_sqrt problem goalId cur) ns (st, bh, best)
      = (st', bh', best') →
    l_visited st' = l_visited st ∧ l_parent st' = l_parent st ∧
    l_steps st' = l_steps st ∧ l_frontier st' = l_frontier st ∧
    (best' = best ∨
     ∃ n, n ∈ ns ∧ best' = Some (fst n) ∧ fst n ∉ l_visited st).
Proof.
  induction ns as [|n ns IH]; intros st bh best st' bh' best';
    cbn [fold_left].
  - intros [= <- <- <-]. split_and!; auto.
  - destruct (hillVisit Math_sqrt problem goalId cur (st, bh, best) n)
      as [[st1 bh1] best1] eqn:Hvis.
    assert (l_visited st1 = l_visited st ∧ l_parent st1 = l_parent st ∧
            l_steps st1 = l_steps st ∧ l_frontier st1 = l_frontier st ∧
            (best1 = best ∨
             (best1 = Some (fst n) ∧ fst n ∉ l_visited st))) as (E1&E2&E3&E4&E5).
    { unfold hillVisit in Hvis.
      destruct (has (l_visited st) (fst n)) eqn:Hv; simpl in Hvis.
      - injection Hvis as <- <- <-. split_and!; auto.
      - apply has_false in Hv.
        destruct (nlt _ bh); injection Hvis as <- <- <-; simpl;
          split_and!; auto. }
    intros H. destruct (IH _ _ _ _ _ _ H) as (?&?&?&?&Hb).
    split_and!; try congruence.
    destruct Hb as [->|(m&?&?&Hm)].
    + destruct E5 as [?|[? ?]]; [by left|]. right. exists n.
      split_and!; [by left|done..].
    + right. exists m. split_and!; [by right|done|by rewrite <- E1].
Qed.

Lemma chosen_some best b : chosen best = Some b → best = Some b.
Proof.
  unfold chosen. destruct best as [x|]; [|done].
  destruct (truthy x); [|done]. by intros [= ->].
Qed.

Lemma hill_step st st' :
  HInv st → hillBody Math_sqrt problem goalId st = inl st' →
  HInv st' ∧ ∃ b, l_visited st' = l_visited st ++ [b] ∧
                  (b ∉ l_visited st) ∧ reach problem startId b.
Proof.
  intros [HG Hst Hc Hs]. unfold hillBody.
  destruct (String.eqb (l_frontier st) goalId);
    [destruct (reconstructPath _ _); done|].
  destruct (fold_left _ _ _) as [[st1 bh] best] eqn:Hfold.
  destruct (hill_fold _ _ _ _ _ _ _ _ Hfold) as (Hv&Hp&Hsteps&Hfr&Hb).
  destruct (chosen best) as [b|] eqn:Hch; [|done].
  apply chosen_some in Hch. subst best.
  destruct Hb as [?|(n&Hn&Hbn&Hnv)]; [done|]. injection Hbn as ->.
  intros [= <-].
  destruct n as [b c]. simpl in *.
  assert (Hpush : GInv problem startId [b] (l_visited st)
                    (<[b := l_frontier st]> (l_parent st))).
  { eapply GInv_push; eauto; [by exists c|].
    intros x ->%list_elem_of_singleton. by right. }
  destruct (GInv_enter _ _ _ _ _ _ Hpush (list_elem_of_here _ _) Hnv)
    as [HG1 Hs1].
  split.
  - split; simpl; rewrite ?Hv, ?Hp, ?Hsteps, ?(add_new _ _ Hnv).
    + eapply GInv_frontier; [exact HG1|done|].
      intros x Hx. by apply elem_of_nil in Hx.
    + apply (steps_ok_push _ _
               (createStep _ b [] (l_visited st ++ [b]) _ _ _ _ false _ None)
               Hst).
      simpl. rewrite length_app. lia.
    + apply elem_of_app. right. by apply list_elem_of_singleton.
    + done.
  - exists b. simpl. rewrite ?Hv, ?(add_new _ _ Hnv). split_and!; try done.
    apply (gi_reach _ _ _ _ _ Hpush). right. by left.
Qed.

Lemma hill_exit st r :
  HInv st → hillBody Math_sqrt problem goalId st = inr (Returned r) →
  TreeFinal problem false r.
Proof.
  intros [HG Hst Hc Hs]. unfold hillBody.
  destruct (String.eqb (l_frontier st) goalId) eqn:Heq.
  - apply eqb_true in Heq.
    destruct (reconstructPath _ _) as [path|] eqn:Hrec; [|done].
    intros [= <-]. exists (l_visited st), (l_parent st).
    split_and!; try done; [by eexists|].
    left. simpl. split_and!; [done|by rewrite Heq in Hc|by exists path].
  - destruct (fold_left _ _ _) as [[st1 bh] best] eqn:Hfold.
    destruct (hill_fold _ _ _ _ _ _ _ _ Hfold) as (Hv&Hp&Hsteps&Hfr&Hb).
    destruct (chosen best) as [b|] eqn:Hch; [done|].
    intros [= <-]. exists (l_visited st), (l_parent st). simpl.
    rewrite Hv, Hsteps. split_and!; try done; [by eexists| |by right].
    apply (steps_ok_push _ _
             (createStep _ _ [] (l_visited st) _ _ _ _ true false None) Hst).
    done.
Qed.

Lemma hill_returns st o :
  HInv st → hillBody Math_sqrt problem goalId st = inr o →
  ∃ r, o = Returned r.
Proof.
  intros [HG Hst Hc Hs]. unfold hillBody.
  destruct (String.eqb (l_frontier st) goalId) eqn:Heq.
  - apply eqb_true in Heq. rewrite <- Heq.
    destruct (GInv_reconstruct_ends _ _ _ _ _ _ HG Hc) as [path ->].
    intros [= <-]. by eexists.
  - destruct (fold_left _ _ _) as [[st1 bh] best].
    destruct (chosen best); [done|]. intros [= <-]. by eexists.
Qed.

Lemma hill_init :
  HInv (initial startId [startId]
          {[ startId := Fin 0 ]}
          {[ startId := manhattanDistance Math_sqrt startId goalId problem ]}
          ∅
          (createStep 0 startId [] [startId] ∅ {[ startId := Fin 0 ]}
             {[ startId := manhattanDistance Math_sqrt startId goalId problem ]}
             {[ startId := manhattanDistance Math_sqrt startId goalId problem ]}
             false false None)).
Proof.
  split; simpl.
  - apply GInv_init_visited. intros x Hx. by apply elem_of_nil in Hx.
  - apply (steps_ok_init (createStep 0 startId [] [startId] ∅ _ _ _
                            false false None)).
  - by apply list_elem_of_singleton.
  - by apply list_elem_of_singleton.
Qed.

Lemma hill_final fuel r :
  runHillClimbing Math_sqrt fuel problem = Returned r →
  TreeFinal problem false r.
Proof.
  unfold runHillClimbing.
  apply (while_inv _ HInv (TreeFinal problem false)).
  - intros s s' Hs Hb. by destruct (hill_step s s' Hs Hb).
  - apply hill_exit.
  - apply hill_init.
Qed.

Lemma hill_total fuel :
  Datatypes.S (length (universe problem)) ≤ fuel →
  ∃ r, runHillClimbing Math_sqrt fuel problem = Returned r.
Proof.
  intros Hf. unfold runHillClimbing.
  apply (while_total _ HInv
           (λ st, unvisited (universe problem) (l_visited st))).
  - intros s s' Hs Hb. destruct (hill_step s s' Hs Hb) as [Hs' (b&Hv&Hb1&Hb2)].
    split; [done|]. rewrite Hv.
    apply (unvisited_less _ _ _ b).
    + intros y Hy. apply elem_of_app. by left.
    + by apply universe_closed.
    + apply elem_of_app. right. by apply list_elem_of_singleton.
    + done.
  - apply hill_returns.
  - apply hill_init.
  - simpl. unfold unvisited.
    pose proof (length_filter (λ u, u ∉ [startId]) (universe problem)).
    unfold startId in *. lia.
Qed.
End Hill.

(** ** Beam search *)

Section Beam.
Variable Math_sqrt : Q → Q.
Variable problem : Problem.
Variable beamWidth : nat.
Let startId := getStartId problem.
Let goalId := getGoalId problem.

(** A candidate gathered from a beam whose members are in [v]. *)
Definition goodCand (v : list string) (c : Candidate) : Prop :=
  cand_parent c ∈ v ∧ (cand_id c ∉ v) ∧
  nbr problem (cand_parent c) (cand_id c).

Record BInv (st : Live (list string)) : Prop := {
  bi_tree : GInv problem startId [] (l_visited st) (l_parent st);
  bi_steps : steps_ok (l_steps st) (l_visited st);
  bi_start : startId ∈ l_visited st;
  bi_beam : ∀ x, x ∈ l_frontier st → x ∈ l_visited st
}.

Definition sameTree {F G : Type} (st : Live F) (st' : Live G) : Prop :=
  l_visited st' = l_visited st ∧ l_parent st' = l_parent st ∧
  l_steps st' = l_steps st.

Lemma beamVisit_fold cur ns :
  ∀ st cands st' cands',
    cur ∈ l_visited st →
    (∀ n, n ∈ ns → n ∈ getNeighbors problem cur) →
    Forall (goodCand (l_visited st)) cands →
    fold_left (beamVisit Math_sqrt problem goalId cur) ns (st, cands)
      = (st', cands') →
    sameTree st st' ∧ l_frontier st' = l_frontier st ∧
    Forall (goodCand (l_visited st)) cands'.
Proof.
  induction ns as [|n ns IH]; intros st cands st' cands' Hc Hns Hgood;
    cbn [fold_left].
  - intros [= <- <-]. unfold sameTree. by split_and!.
  - destruct (beamVisit Math_sqrt problem goalId cur (st, cands) n)
      as [st1 cands1] eqn:Hvis.
    assert (sameTree st st1 ∧ l_frontier st1 = l_frontier st ∧
            Forall (goodCand (l_visited st)) cands1) as ((E1&E2&E3)&E4&E5).
    { unfold beamVisit in Hvis. destruct n as [id c]. simpl in Hvis.
      destruct (has (l_visited st) id) eqn:Hv; simpl in Hvis;
        injection Hvis as <- <-; unfold sameTree; [by split_and!|].
      apply has_false in Hv. split_and!; try done.
      apply Forall_app. split; [done|]. apply Forall_singleton.
      split_and!; simpl; [done..|]. exists c. apply Hns. by left. }
    intros H.
    destruct (IH st1 cands1 st' cands') as ((?&?&?)&?&?); try done.
    { by rewrite E1. }
    { intros; apply Hns; by right. }
    { by rewrite E1. }
    unfold sameTree. split_and!; try congruence.
Qed.

Lemma beamScan_spec beam :
  ∀ st cands,
    (∀ x, x ∈ beam → x ∈ l_visited st) →
    Forall (goodCand (l_visited st)) cands →
    match beamScan Math_sqrt problem goalId beam st cands with
    | inl st' =>
        sameTree st st' ∧ l_frontier st' = l_frontier st ∧ goalId ∈ beam
    | inr (st', cands') =>
        sameTree st st' ∧ l_frontier st' = l_frontier st ∧
        Forall (goodCand (l_visited st)) cands'
    end.
Proof.
  induction beam as [|cur beam IH]; intros st cands Hb Hgood; simpl;
    unfold sameTree in *.
  - by split_and!.
  - destruct (String.eqb cur goalId) eqn:Heq.
    + apply eqb_true in Heq. subst. split_and!; try done. by left.
    + destruct (fold_left _ _ _) as [st1 cands1] eqn:Hfold.
      destruct (beamVisit_fold cur (getNeighbors problem cur)
                  st cands st1 cands1)
        as ((E1&E2&E3)&E4&E5); try done.
      { apply Hb; by left. }
      specialize (IH st1 cands1).
      rewrite E1 in IH.
      assert (∀ x, x ∈ beam → x ∈ l_visited st) as Hb'
        by (intros; apply Hb; by right).
      specialize (IH Hb' E5).
      destruct (beamScan _ _ _ _ _ _) as [st2|[st2 cands2]];
        destruct IH as ((?&?&?)&?&?); split_and!; try congruence.
      by right.
Qed.

Lemma beamKeep_fold v0 kept :
  ∀ st ext,
    l_visited st = v0 ++ ext →
    GInv problem startId [] (l_visited st) (l_parent st) →
    startId ∈ v0 → Forall (goodCand v0) kept →
    let st' := fold_left beamKeep kept st in
    ∃ ext', l_visited st' = v0 ++ ext' ∧
            GInv problem startId [] (l_visited st') (l_parent st') ∧
            l_steps st' = l_steps st ∧ l_frontier st' = l_frontier st ∧
            (∀ c, c ∈ kept → cand_id c ∈ l_visited st') ∧
            (∀ x, x ∈ l_visited st → x ∈ l_visited st').
Proof.
  induction kept as [|c kept IH]; intros st ext Hv HG Hs Hgood;
    cbn [fold_left].
  - exists ext. split_and!; try done. intros c Hc. by apply elem_of_nil in Hc.
  - apply Forall_cons_1 in Hgood as [(Hp&Hid&Hn) Hgood].
    assert (Hs' : startId ∈ l_visited st).
    { rewrite Hv. apply elem_of_app. by left. }
    assert (Hp' : cand_parent c ∈ l_visited st).
    { rewrite Hv. apply elem_of_app. by left. }
    assert (Hne : cand_id c ≠ startId) by (intros E; by rewrite E in Hid).
    assert (Hset : GInv problem startId [] (l_visited st)
                     (<[cand_id c := cand_parent c]> (l_parent st))).
    { apply GInv_set_parent; try done. intros i Hi.
      apply list_elem_of_lookup in Hp as [j Hj]. exists j.
      pose proof (lookup_lt_Some _ _ _ Hj) as Hjl.
      split; [|rewrite Hv; by rewrite lookup_app_l].
      destruct (decide (i < length v0)) as [Hlt|?]; [|lia].
      rewrite Hv, lookup_app_l in Hi by done. exfalso. apply Hid.
      by eapply list_elem_of_lookup_2. }
    set (st1 := beamKeep st c).
    assert (∃ ext1, l_visited st1 = v0 ++ ext1 ∧
              GInv problem startId [] (l_visited st1) (l_parent st1) ∧
              cand_id c ∈ l_visited st1 ∧
              (∀ x, x ∈ l_visited st → x ∈ l_visited st1))
      as (ext1&Hv1&HG1&Hin1&Hsub1).
    { unfold st1, beamKeep. simpl.
      destruct (decide (cand_id c ∈ l_visited st)) as [Hin|Hnin].
      - rewrite (add_old _ _ Hin). exists ext. by split_and!.
      - rewrite (add_new _ _ Hnin). exists (ext ++ [cand_id c]).
        split_and!.
        + by rewrite Hv, app_assoc.
        + assert (Hfr : GInv problem startId [cand_id c] (l_visited st)
                          (<[cand_id c := cand_parent c]> (l_parent st))).
          { eapply GInv_frontier; [exact Hset|done|].
            intros x ->%list_elem_of_singleton. right. split.
            - eapply rtc_r; [|exact Hn].
              apply (gi_reach _ _ _ _ _ HG). by left.
            - right. rewrite lookup_insert_eq. by eexists. }
          destruct (GInv_enter _ _ _ _ _ _ Hfr (list_elem_of_here _ _) Hnin)
            as [HG2 Hs2].
          eapply GInv_frontier; [exact HG2|done|].
          intros x Hx. by apply elem_of_nil in Hx.
        + apply elem_of_app. right. by apply list_elem_of_singleton.
        + intros x Hx. apply elem_of_app. by left. }
    destruct (IH st1 ext1 Hv1 HG1 Hs Hgood)
      as (ext'&Hv'&HG'&Hst'&Hfr'&Hall'&Hsub').
    exists ext'. split_and!; try done.
    + intros d [->|Hd]%elem_of_cons; [by apply Hsub' | by apply Hall'].
    + intros x Hx. by apply Hsub', Hsub1.
Qed.

Definition beamMu (st : Live (list string)) : nat :=
  unvisited (universe problem) (l_visited st) +
  match l_frontier st with [] => 0 | _ => 1 end.

Lemma kept_good v cands :
  Forall (goodCand v) cands →
  Forall (goodCand v) (take beamWidth (stable_sort cand_gt cands)).
Proof.
  intros H. apply Forall_take. by rewrite stable_sort_perm.
Qed.

Lemma beam_step st st' :
  BInv st →
  beamBody Math_sqrt problem beamWidth startId goalId st = inl st' →
  BInv st' ∧ beamMu st' < beamMu st.
Proof.
  intros [HG Hst Hs Hb]. unfold beamBody.
  destruct (l_frontier st) as [|b0 beam0] eqn:Hbeam; [done|].
  pose proof (beamScan_spec (b0 :: beam0) st [] Hb (Forall_nil_2 _))
    as Hscan.
  destruct (beamScan _ _ _ _ _ _) as [st1|[st1 cands]].
  { destruct (reconstructPath _ _); done. }
  destruct Hscan as ((E1&E2&E3)&E4&Hgood).
  destruct cands as [|c0 cands0] eqn:Hcands; [done|]. rewrite <- Hcands in *.
  set (kept := take beamWidth (stable_sort cand_gt cands)).
  pose proof (kept_good _ _ Hgood) as Hkept. fold kept in Hkept.
  set (st2 := withFrontier (map cand_id kept) st1).
  destruct (beamKeep_fold (l_visited st) kept st2 [])
    as (ext'&Hv'&HG'&Hst'&Hfr'&Hall'&Hsub'); simpl;
    rewrite ?E1, ?E2, ?app_nil_r; try done.
  intros [= <-]. split.
  - split; simpl.
    + done.
    + rewrite Hst'. simpl. rewrite E3.
      apply (steps_ok_push _ _
               (createStep _ _ _ (l_visited (fold_left beamKeep kept st2))
                  _ _ _ _ false false None) Hst).
      simpl. rewrite Hv', length_app. lia.
    + apply Hsub'. simpl. by rewrite E1.
    + rewrite Hfr'. simpl. intros x (c&->&Hc)%list_elem_of_fmap.
      by apply Hall'.
  - unfold beamMu. simpl. rewrite Hfr', Hbeam. simpl.
    destruct kept as [|k1 kept1] eqn:Hk; simpl.
    + simpl in Hv'. rewrite Hv'.
      assert (unvisited (universe problem) (l_visited st ++ ext')
              ≤ unvisited (universe problem) (l_visited st)); [|lia].
      apply unvisited_mono. intros; apply elem_of_app; by left.
    + apply Forall_cons_1 in Hkept as [(Hp&Hid&Hn) _].
      assert (unvisited (universe problem)
                (l_visited (fold_left beamKeep kept1 (beamKeep st2 k1)))
              < unvisited (universe problem) (l_visited st)); [|lia].
      apply (unvisited_less _ _ _ (cand_id k1)); try done.
      * intros y Hy. apply Hsub'. simpl. by rewrite E1.
      * apply universe_closed. eapply rtc_r; [|exact Hn].
        apply (gi_reach _ _ _ _ _ HG). by left.
      * apply Hall'. by left.
Qed.

Lemma beam_exit st r :
  BInv st →
  beamBody Math_sqrt problem beamWidth startId goalId st
    = inr (Returned r) →
  TreeFinal problem false r.
Proof.
  intros [HG Hst Hs Hb]. unfold beamBody.
  destruct (l_frontier st) as [|b0 beam0] eqn:Hbeam.
  { intros [= <-]. exists (l_visited st), (l_parent st).
    split_and!; try done; [by eexists | by right]. }
  pose proof (beamScan_spec (b0 :: beam0) st [] Hb (Forall_nil_2 _))
    as Hscan.
  destruct (beamScan _ _ _ _ _ _) as [st1|[st1 cands]].
  - destruct Hscan as ((E1&E2&E3)&E4&Hgoal).
    destruct (reconstructPath _ _) as [path|] eqn:Hrec; [|done].
    intros [= <-]. exists (l_visited st), (l_parent st). simpl.
    rewrite E1, E3. split_and!; try done; [by eexists| |].
    + apply (steps_ok_push _ _
               (createStep _ _ _ (l_visited st) _ _ _ _ true true _) Hst).
      done.
    + left. split_and!; [done|by apply Hb|]. exists path.
      by rewrite <- E2.
  - destruct Hscan as ((E1&E2&E3)&E4&Hgood).
    destruct cands as [|c0 cands0]; [|done].
    intros [= <-]. exists (l_visited st), (l_parent st). simpl.
    rewrite E1, E3. split_and!; try done; [by eexists| |by right].
    apply (steps_ok_push _ _
             (createStep _ _ [] (l_visited st) _ _ _ _ true false None) Hst).
    done.
Qed.

Lemma beam_returns st o :
  BInv st →
  beamBody Math_sqrt problem beamWidth startId goalId st = inr o →
  ∃ r, o = Returned r.
Proof.
  intros [HG Hst Hs Hb]. unfold beamBody.
  destruct (l_frontier st) as [|b0 beam0] eqn:Hbeam.
  { intros [= <-]. by eexists. }
  pose proof (beamScan_spec (b0 :: beam0) st [] Hb (Forall_nil_2 _))
    as Hscan.
  destruct (beamScan _ _ _ _ _ _) as [st1|[st1 cands]].
  - destruct Hscan as ((E1&E2&E3)&E4&Hgoal). rewrite E2.
    destruct (GInv_reconstruct_ends _ _ _ _ _ goalId HG) as [path ->];
      [by apply Hb|].
    intros [= <-]. by eexists.
  - destruct cands; [|done]. intros [= <-]. by eexists.
Qed.

Lemma beam_init g h f step0 :
  visited step0 = [startId] →
  BInv (initial [startId] [startId] g h f step0).
Proof.
  intros Hv. split; simpl.
  - apply GInv_init_visited. intros x Hx. by apply elem_of_nil in Hx.
  - rewrite <- Hv. apply steps_ok_init.
  - by apply list_elem_of_singleton.
  - done.
Qed.

Lemma beam_final fuel r :
  runBeamSearch Math_sqrt fuel problem beamWidth = Returned r →
  TreeFinal problem false r.
Proof.
  unfold runBeamSearch.
  apply (while_inv _ BInv (TreeFinal problem false)).
  - intros s s' Hs Hb. by destruct (beam_step s s' Hs Hb).
  - apply beam_exit.
  - by apply beam_init.
Qed.

Lemma beam_total fuel :
  Datatypes.S (Datatypes.S (length (universe problem))) ≤ fuel →
  ∃ r, runBeamSearch Math_sqrt fuel problem beamWidth = Returned r.
Proof.
  intros Hf. unfold runBeamSearch.
  apply (while_total _ BInv beamMu).
  - apply beam_step.
  - apply beam_returns.
  - by apply beam_init.
  - unfold beamMu, unvisited. simpl.
    pose proof (length_filter (λ u, u ∉ [startId]) (universe problem)).
    unfold startId in *. lia.
Qed.
End Beam.

(** ** IDA* *)

Lemma last_default_Some (l : list string) d :
  l ≠ [] → list.last l = Some (List.last l d).
Proof.
  induction l as [|a l IH]; [done|]. intros _.
  destruct l as [|b l]; [done|].
  change (list.last (a :: b :: l)) with (list.last (b :: l)).
  change (List.last (a :: b :: l) d) with (List.last (b :: l) d).
  by apply IH.
Qed.

Section Ida.
Variable Math_sqrt : Q → Q.
Variable problem : Problem.
Let startId := getStartId problem.
Let goalId := getGoalId problem.

(** The array [path] is a simple path from the start. *)
Definition PathOk (path : list string) : Prop :=
  head path = Some startId ∧ linked problem path ∧ NoDup path ∧
  ∀ x, x ∈ path → reach problem startId x.

Lemma PathOk_start : PathOk [startId].
Proof.
  split_and!.
  - done.
  - intros i a b Ha Hb. destruct i; simpl in Hb; by rewrite ?lookup_nil in Hb.
  - apply NoDup_singleton.
  - intros x ->%list_elem_of_singleton. apply rtc_refl.
Qed.

Lemma PathOk_nonempty path : PathOk path → path ≠ [].
Proof. intros (H&_) ->. done. Qed.

Lemma PathOk_push path id :
  PathOk path → nbr problem (List.last path ""%string) id → id ∉ path →
  PathOk (path ++ [id]).
Proof.
  intros Hok Hn Hid. pose proof (PathOk_nonempty _ Hok) as Hne.
  destruct Hok as (Hh&Hl&Hnd&Hr).
  pose proof (last_default_Some path ""%string Hne) as Hlast.
  split_and!.
  - destruct path; [done|]. done.
  - intros i a b Ha Hb.
    destruct (decide (Datatypes.S i < length path)) as [Hlt|Hge].
    + rewrite lookup_app_l in Ha by lia. rewrite lookup_app_l in Hb by lia.
      eapply Hl; eauto.
    + pose proof (lookup_lt_Some _ _ _ Hb) as Hlen.
      rewrite length_app in Hlen. simpl in Hlen.
      assert (Datatypes.S i = length path) as Hi by lia.
      rewrite Hi in Hb. rewrite list_lookup_middle in Hb by done.
      injection Hb as <-. rewrite lookup_app_l in Ha by lia.
      assert (list.last path = Some a) as Hl'.
      { rewrite last_lookup. rewrite <- Hi. simpl. done. }
      rewrite Hlast in Hl'. injection Hl' as <-. done.
  - apply list.NoDup_app. split_and!; [done| |apply NoDup_singleton].
    by intros y Hy ->%list_elem_of_singleton.
  - intros x [Hx| ->%list_elem_of_singleton]%elem_of_app; [by apply Hr|].
    eapply rtc_r; [|exact Hn]. apply Hr.
    apply list.last_Some_elem_of. done.
Qed.

Lemma PathOk_valid path :
  PathOk path → list.last path = Some goalId →
  valid_path problem startId goalId path.
Proof. intros (?&?&?&?) ?. by split_and!. Qed.

Section Bounded.
Variable bound : num.

Definition hOf (node : string) : num :=
  manhattanDistance Math_sqrt node goalId problem.

(** The f-values that [search] can meet below [path], to depth [fuel]. *)
Fixpoint fvals (fuel : nat) (path : list string) (g : num) : list num :=
  match fuel with
  | O => []
  | Datatypes.S fuel' =>
      let node := List.last path ""%string in
      nadd g (hOf node) ::
      flat_map (λ n, if has path (fst n) then []
                     else fvals fuel' (path ++ [fst n]) (nadd g (snd n)))
        (getNeighbors problem node)
  end.

(** A threshold that [search] reports is infinite or one of those
    f-values, above the bound. *)
Definition tOk (L : list num) (b : bnd) : Prop :=
  b = Infinity ∨ ∃ x, b = Bnd x ∧ nlt bound x = true ∧ x ∈ L.

Record SearchSpec (L : list num) (st : IdaState) (res : IdaResult)
    (st' : IdaState) : Prop := {
  ss_steps : ∃ more, l_steps st' = l_steps st ++ more;
  ss_found : found res = true →
    res_path res = Some (l_frontier st') ∧ PathOk (l_frontier st') ∧
    list.last (l_frontier st') = Some goalId;
  ss_frame : found res = false →
    l_frontier st' = l_frontier st ∧ tOk L (t res)
}.

Lemma blt_tOk L a b : tOk L a → tOk L b → tOk L (if blt a b then a else b).
Proof. by destruct (blt a b). Qed.

Lemma searchEach_spec (rec : IdaRec) fuel' node g :
  (∀ g' sn st res st',
     PathOk (l_frontier st) → rec g' sn st = Returned (res, st') →
     SearchSpec (fvals fuel' (l_frontier st) g') st res st') →
  ∀ ns min sn st res st' L,
    PathOk (l_frontier st) → List.last (l_frontier st) ""%string = node →
    (∀ n, n ∈ ns → n ∈ getNeighbors problem node) →
    (∀ n x, n ∈ ns → fst n ∉ l_frontier st →
       x ∈ fvals fuel' (l_frontier st ++ [fst n]) (nadd g (snd n)) →
       x ∈ L) →
    tOk L min →
    searchEach rec node g ns min sn st = Returned (res, st') →
    SearchSpec L st res st'.
Proof.
  intros Hrec. induction ns as [|n ns IH];
    intros min sn st res st' L Hok Hlast Hns HL Hmin; simpl.
  - intros [= <- <-]. split; simpl; [by exists []; rewrite app_nil_r|done|done].
  - destruct (has (l_frontier st) (fst n)) eqn:Hhas; simpl.
    + apply IH; try done.
      * intros; apply Hns; by right.
      * intros m x Hm. apply HL. by right.
    + apply has_false in Hhas.
      destruct (rec _ _ _) as [[result st1]| |] eqn:Hr; try done.
      assert (Hok1 : PathOk (l_frontier (idaPush node (fst n) st))).
      { simpl. apply PathOk_push; try done. rewrite Hlast.
        exists (snd n). destruct n. apply Hns. by left. }
      destruct (Hrec _ _ _ _ _ Hok1 Hr) as [(more&Hm) Hf Hnf].
      simpl in *.
      destruct (found result) eqn:Hfound.
      * intros [= <- <-].
        split; [by exists more|intros _; by apply Hf|by rewrite Hfound].
      * destruct (Hnf eq_refl) as [Hfr Ht].
        intros Hrest.
        assert (Hpop : l_frontier (idaPop st1) = l_frontier st).
        { simpl. rewrite Hfr. apply removelast_last. }
        assert (SearchSpec L (idaPop st1) res st')
          as [(more'&Hm') Hf' Hnf'].
        { eapply IH; [| | | | |exact Hrest].
        { by rewrite Hpop. }
        { by rewrite Hpop. }
        { intros; apply Hns; by right. }
        { rewrite Hpop. intros m x Hm'. apply HL. by right. }
        { apply blt_tOk; [|done].
          destruct Ht as [->|(x&->&?&Hx)]; [by left|]. right.
          exists x. split_and!; try done. eapply HL; eauto. by left. } }
        split.
        -- exists (more ++ more'). simpl in Hm'. rewrite Hm', Hm.
           by rewrite app_assoc.
        -- done.
        -- intros Hff. destruct (Hnf' Hff) as [? ?]. split; [|done].
           congruence.
Qed.

Lemma idaEnter_frame node g sn st :
  l_frontier (idaEnter Math_sqrt problem goalId node g sn st)
    = l_frontier st ∧
  ∃ s, l_steps (idaEnter Math_sqrt problem goalId node g sn st)
         = l_steps st ++ [s].
Proof. split; [done|]. by eexists. Qed.

Lemma search_spec fuel :
  ∀ g sn st res st',
    PathOk (l_frontier st) →
    search Math_sqrt fuel problem goalId bound g sn st
      = Returned (res, st') →
    SearchSpec (fvals fuel (l_frontier st) g) st res st'.
Proof.
  induction fuel as [|fuel IH]; intros g sn st res st' Hok; [done|].
  cbn [search].
  set (node := List.last (l_frontier st) ""%string).
  set (st1 := idaEnter Math_sqrt problem goalId node g sn st).
  destruct (idaEnter_frame node g sn st) as [Hfr (s&Hs)]. fold st1 in Hfr, Hs.
  destruct (ngt _ bound) eqn:Hgt.
  { intros [= <- <-]. split; simpl.
    - by exists [s].
    - done.
    - intros _. split; [done|]. right. eexists. split_and!; [done..|].
      by left. }
  destruct (String.eqb node goalId) eqn:Heq.
  { apply eqb_true in Heq. intros [= <- <-]. split; simpl.
    - by exists [s].
    - intros _. split_and!; try done.
      rewrite <- Heq. apply last_default_Some. by eapply PathOk_nonempty.
    - done. }
  intros Hse.
  assert (SearchSpec (fvals (Datatypes.S fuel) (l_frontier st) g)
            st1 res st') as [(more&Hm) Hf Hnf].
  { eapply (searchEach_spec _ fuel node g IH); [| | | | |exact Hse].
    - by rewrite Hfr.
    - by rewrite Hfr.
    - done.
    - rewrite Hfr. intros n x Hn Hid Hx. simpl. right.
      apply list_elem_of_In, in_flat_map. exists n.
      rewrite <- !list_elem_of_In. split; [done|].
      apply has_false in Hid. fold node. by rewrite Hid.
    - by left. }
  split.
  + exists (s :: more). rewrite Hm, Hs. by rewrite <- app_assoc.
  + done.
  + intros Hff. destruct (Hnf Hff). split; [congruence|done].
Qed.
End Bounded.

(** *** The recursion ends: a simple path is no longer than the universe *)

Lemma PathOk_length path :
  PathOk path → length path ≤ length (universe problem).
Proof.
  intros (_&_&Hnd&Hr). apply submseteq_length, NoDup_submseteq; [done|].
  intros x Hx. by apply universe_closed, Hr.
Qed.

Lemma searchEach_total (rec : IdaRec) node g k :
  (∀ g' sn st, PathOk (l_frontier st) → k ≤ length (l_frontier st) →
     ∃ res st', rec g' sn st = Returned (res, st')) →
  (∀ g' sn st res st', PathOk (l_frontier st) →
     rec g' sn st = Returned (res, st') → found res = false →
     l_frontier st' = l_frontier st) →
  ∀ ns min sn st,
    PathOk (l_frontier st) → List.last (l_frontier st) ""%string = node →
    (∀ n, n ∈ ns → n ∈ getNeighbors problem node) →
    k ≤ Datatypes.S (length (l_frontier st)) →
    ∃ res st', searchEach rec node g ns min sn st = Returned (res, st').
Proof.
  intros Htot Hframe. induction ns as [|n ns IH];
    intros min sn st Hok Hlast Hns Hk; simpl.
  - by eexists _, _.
  - destruct (has (l_frontier st) (fst n)) eqn:Hhas; simpl.
    + apply IH; try done. intros; apply Hns; by right.
    + apply has_false in Hhas.
      assert (Hok1 : PathOk (l_frontier (idaPush node (fst n) st))).
      { simpl. apply PathOk_push; try done. rewrite Hlast.
        exists (snd n). destruct n. apply Hns. by left. }
      destruct (Htot (nadd g (snd n)) sn _ Hok1) as (result&st1&Hr).
      { simpl. rewrite length_app. simpl. lia. }
      rewrite Hr. destruct (found result) eqn:Hf; [by eexists _, _|].
      pose proof (Hframe _ _ _ _ _ Hok1 Hr Hf) as Hfr. simpl in Hfr.
      assert (Hpop : l_frontier (idaPop st1) = l_frontier st).
      { simpl. rewrite Hfr. apply removelast_last. }
      apply IH; rewrite ?Hpop; try done. intros; apply Hns; by right.
Qed.

Lemma search_total bound fuel :
  ∀ g sn st,
    PathOk (l_frontier st) →
    Datatypes.S (length (universe problem))
      ≤ fuel + length (l_frontier st) →
    ∃ res st',
      search Math_sqrt fuel problem goalId bound g sn st
        = Returned (res, st').
Proof.
  induction fuel as [|fuel IH]; intros g sn st Hok Hf.
  - pose proof (PathOk_length _ Hok). lia.
  - cbn [search]. destruct (ngt _ bound); [by eexists _, _|].
    destruct (String.eqb _ goalId); [by eexists _, _|].
    eapply (searchEach_total _ _ _
              (Datatypes.S (length (universe problem)) - fuel)).
    + intros g' sn' st0 Hok0 Hk. apply IH; [done|lia].
    + intros g' sn' st0 res st' Hok0 Hr Hff.
      by destruct (ss_frame _ _ _ _ _ (search_spec bound fuel _ _ _ _ _ Hok0 Hr) Hff).
    + done.
    + done.
    + done.
    + change (l_frontier (idaEnter Math_sqrt problem goalId
                (List.last (l_frontier st) ""%string) g sn st))
        with (l_frontier st). lia.
Qed.

(** *** More fuel does not change a result *)

Lemma searchEach_mono (rec1 rec2 : IdaRec) node g :
  (∀ g' sn st x, rec1 g' sn st = Returned x → rec2 g' sn st = Returned x) →
  ∀ ns min sn st x,
    searchEach rec1 node g ns min sn st = Returned x →
    searchEach rec2 node g ns min sn st = Returned x.
Proof.
  intros Hrec. induction ns as [|n ns IH]; intros min sn st x; simpl;
    [done|].
  destruct (has (l_frontier st) (fst n)); simpl; [apply IH|].
  destruct (rec1 _ _ _) as [[result st1]| |] eqn:Hr; try done.
  rewrite (Hrec _ _ _ _ Hr). destruct (found result); [done|]. apply IH.
Qed.

Lemma search_mono bound fuel :
  ∀ fuel' g sn st x,
    search Math_sqrt fuel problem goalId bound g sn st = Returned x →
    fuel ≤ fuel' →
    search Math_sqrt fuel' problem goalId bound g sn st = Returned x.
Proof.
  induction fuel as [|fuel IH]; intros fuel' g sn st x; [done|].
  intros H Hle. destruct fuel' as [|fuel']; [lia|]. revert H. cbn [search].
  destruct (ngt _ bound); [done|]. destruct (String.eqb _ goalId); [done|].
  apply searchEach_mono. intros g' sn' st0 y Hy. apply IH; [done|lia].
Qed.

(** *** The outer loop *)

Record OInv (o : IdaOuter) : Prop := {
  oi_path : l_frontier (o_state o) = [startId];
  oi_steps : l_steps (o_state o) ≠ []
}.

Definition IdaFinal (r : SearchResult) : Prop :=
  steps r ≠ [] ∧
  ((success r = true ∧ reach problem startId goalId ∧
    ∃ path, finalPath r = Some path ∧
            valid_path problem startId goalId path)
   ∨ (success r = false ∧ finalPath r = None ∧ pathCost r = None)).

Lemma app_nonempty {A} (l more : list A) : l ≠ [] → l ++ more ≠ [].
Proof. by destruct l. Qed.

Lemma ida_step depth o o' :
  OInv o → idaBody Math_sqrt depth problem startId goalId o = inl o' →
  OInv o' ∧
  tOk (o_bound o) (fvals depth [startId] (Fin 0)) (Bnd (o_bound o')).
Proof.
  intros [Hp Hs]. unfold idaBody.
  destruct (search _ _ _ _ _ _ _ _) as [[result st]| |] eqn:Hr; try done.
  assert (Hok : PathOk (l_frontier (withVisited [] (o_state o)))).
  { simpl. rewrite Hp. apply PathOk_start. }
  destruct (search_spec _ _ _ _ _ _ _ Hok Hr) as [(more&Hm) Hf Hnf].
  simpl in *. destruct (found result); [done|].
  destruct (Hnf eq_refl) as [Hfr Ht].
  destruct (t result) as [b|] eqn:Htr; [|done].
  intros [= <-]. simpl. split.
  - split; simpl; [congruence|]. rewrite Hm. by apply app_nonempty.
  - by rewrite Hp in Ht.
Qed.

Lemma ida_exit depth o r :
  OInv o →
  idaBody Math_sqrt depth problem startId goalId o = inr (Returned r) →
  IdaFinal r.
Proof.
  intros [Hp Hs]. unfold idaBody.
  destruct (search _ _ _ _ _ _ _ _) as [[result st]| |] eqn:Hr; try done.
  assert (Hok : PathOk (l_frontier (withVisited [] (o_state o)))).
  { simpl. rewrite Hp. apply PathOk_start. }
  destruct (search_spec _ _ _ _ _ _ _ Hok Hr) as [(more&Hm) Hf Hnf].
  simpl in *. destruct (found result).
  - destruct (Hf eq_refl) as (Hrp&Hpo&Hl).
    intros [= <-]. split; simpl.
    + rewrite Hm. by apply app_nonempty.
    + left. split_and!; [done| |].
      * destruct Hpo as (_&_&_&Hreach). apply Hreach.
        by apply list.last_Some_elem_of.
      * exists (l_frontier st). split; [done|]. by apply PathOk_valid.
  - destruct (t result); [done|]. intros [= <-]. split; simpl.
    + rewrite Hm. by apply app_nonempty, app_nonempty.
    + by right.
Qed.

Lemma ida_returns depth o out :
  OInv o → Datatypes.S (length (universe problem)) ≤ depth →
  idaBody Math_sqrt depth problem startId goalId o = inr out →
  ∃ r, out = Returned r.
Proof.
  intros [Hp Hs] Hd. unfold idaBody.
  assert (Hok : PathOk (l_frontier (withVisited [] (o_state o)))).
  { simpl. rewrite Hp. apply PathOk_start. }
  destruct (search_total (o_bound o) depth (Fin 0) (o_stepNumber o) _ Hok)
    as (res&st'&->); [lia|].
  destruct (found res); [intros [= <-]; by eexists|].
  destruct (t res); [done|]. intros [= <-]. by eexists.
Qed.
End Ida.

(** ** Order on numbers *)

Lemma nlt_Fin x y : nlt (Fin x) (Fin y) = true ↔ (x < y)%Q.
Proof.
  simpl. rewrite negb_true_iff. split.
  - intros H. apply Qnot_le_lt. intros Hle. apply Qle_bool_iff in Hle.
    congruence.
  - intros H. destruct (Qle_bool y x) eqn:E; [|done].
    apply Qle_bool_iff in E. by apply Qlt_not_le in H.
Qed.

Lemma nlt_inv a b : nlt a b = true → ∃ x y, a = Fin x ∧ b = Fin y.
Proof. destruct a, b; try done. intros _. by eexists _, _. Qed.

Lemma nlt_irrefl a : nlt a a = false.
Proof.
  destruct (nlt a a) eqn:E; [|done]. destruct a as [x|]; [|done].
  apply nlt_Fin in E. by apply Qlt_irrefl in E.
Qed.

Lemma nlt_trans a b c : nlt a b = true → nlt b c = true → nlt a c = true.
Proof.
  intros Hab Hbc. destruct (nlt_inv _ _ Hab) as (x&y&->&->).
  destruct (nlt_inv _ _ Hbc) as (y'&z&[= <-]&->).
  apply nlt_Fin. apply nlt_Fin in Hab, Hbc. by eapply Qlt_trans.
Qed.

(** The values of [L] above a bound. *)
Definition above (L : list num) (b : num) : nat :=
  length (filter (λ x, nlt b x = true) L).

Lemma above_le L a b : nlt a b = true → above L b ≤ above L a.
Proof.
  intros Hab. unfold above. induction L as [|x L IH]; simpl; [done|].
  rewrite !filter_cons. repeat case_decide; simpl; try lia.
  exfalso. eauto using nlt_trans.
Qed.

Lemma above_less L a b :
  nlt a b = true → b ∈ L → above L b < above L a.
Proof.
  intros Hab Hb. induction L as [|x L IH]; [by apply elem_of_nil in Hb|].
  pose proof (above_le L a b Hab) as Hle. unfold above in *.
  rewrite !filter_cons. apply elem_of_cons in Hb as [<-|Hb].
  - rewrite nlt_irrefl. repeat case_decide; simpl; try done; lia.
  - specialize (IH Hb). repeat case_decide; simpl; try lia.
    exfalso. eauto using nlt_trans.
Qed.

Lemma while_transfer {S R : Type} (b1 b2 : S → S + outcome R) :
  (∀ s s', b1 s = inl s' → b2 s = inl s') →
  (∀ s r, b1 s = inr (Returned r) → b2 s = inr (Returned r)) →
  ∀ fuel s r, while fuel b1 s = Returned r → while fuel b2 s = Returned r.
Proof.
  intros Hl Hr. induction fuel as [|fuel IH]; intros s r; simpl; [done|].
  destruct (b1 s) as [s'|o] eqn:Hb.
  - rewrite (Hl _ _ Hb). apply IH.
  - intros ->. by rewrite (Hr _ _ Hb).
Qed.

Section IdaRun.
Variable Math_sqrt : Q → Q.
Variable problem : Problem.
Let startId := getStartId problem.
Let goalId := getGoalId problem.

Definition idaStart : IdaOuter :=
  let h := manhattanDistance Math_sqrt startId goalId problem in
  {| o_bound := h; o_stepNumber := 1; o_totalVisited := 0;
     o_state := initial [startId] [] {[ startId := Fin 0 ]}
                  {[ startId := h ]} {[ startId := h ]}
                  (createStep 0 startId [startId] [] ∅
                     {[ startId := Fin 0 ]} {[ startId := h ]}
                     {[ startId := h ]} false false None) |}.

Lemma idaStart_inv : OInv problem idaStart.
Proof. by split. Qed.

Lemma ida_final fuel r :
  runIDAStar Math_sqrt fuel problem = Returned r → IdaFinal problem r.
Proof.
  unfold runIDAStar.
  apply (while_inv (idaBody Math_sqrt fuel problem startId goalId)
           (OInv problem) (IdaFinal problem)).
  - intros s s' Hs Hb. by destruct (ida_step _ _ _ _ _ Hs Hb).
  - intros s r' Hs Hb. by eapply ida_exit.
  - apply idaStart_inv.
Qed.

(** The depth that lets [search] run to the end of every simple path. *)
Definition idaDepth : nat := Datatypes.S (length (universe problem)).

(** The finite set of f-values among which the bound grows. *)
Definition idaValues : list num :=
  fvals Math_sqrt problem idaDepth [startId] (Fin 0).

Lemma ida_decrease o o' :
  OInv problem o →
  idaBody Math_sqrt idaDepth problem startId goalId o = inl o' →
  OInv problem o' ∧ above idaValues (o_bound o') < above idaValues (o_bound o).
Proof.
  intros Hs Hb. destruct (ida_step _ _ _ _ _ Hs Hb) as [Hs' Ht].
  split; [done|]. destruct Ht as [?|(x&[= <-]&Hlt&Hx)]; [done|].
  by apply above_less.
Qed.

Lemma idaBody_mono depth depth' o :
  depth ≤ depth' →
  (∀ o', idaBody Math_sqrt depth problem startId goalId o = inl o' →
         idaBody Math_sqrt depth' problem startId goalId o = inl o') ∧
  (∀ r, idaBody Math_sqrt depth problem startId goalId o = inr (Returned r) →
        idaBody Math_sqrt depth' problem startId goalId o = inr (Returned r)).
Proof.
  intros Hle. unfold idaBody, goalId, startId.
  destruct (search Math_sqrt depth _ _ _ _ _ _) as [x| |] eqn:Hr;
    [|by split..].
  by rewrite (search_mono _ _ _ _ _ _ _ _ _ Hr Hle).
Qed.

Definition idaEnough : nat :=
  idaDepth + Datatypes.S (length idaValues).

Lemma ida_total fuel :
  idaEnough ≤ fuel → ∃ r, runIDAStar Math_sqrt fuel problem = Returned r.
Proof.
  intros Hf. unfold runIDAStar.
  destruct (while_total (idaBody Math_sqrt idaDepth problem startId goalId)
              (OInv problem) (λ o, above idaValues (o_bound o))
              ida_decrease
              (λ s o Hs, ida_returns Math_sqrt problem idaDepth s o Hs
                           (le_n _))
              (Datatypes.S (length idaValues)) idaStart idaStart_inv)
    as [r Hr].
  { unfold above.
    pose proof (length_filter (λ x, nlt (o_bound idaStart) x = true)
                  idaValues). lia. }
  exists r.
  apply (while_mono _ (Datatypes.S (length idaValues))); [|unfold idaEnough in Hf; lia].
  apply (while_transfer (idaBody Math_sqrt idaDepth problem startId goalId)).
  - intros s s'. apply idaBody_mono. unfold idaEnough in Hf. lia.
  - intros s r'. apply idaBody_mono. unfold idaEnough in Hf. lia.
  - exact Hr.
Qed.
End IdaRun.

(** * The claims *)

(** The algorithms that keep a visited set and a parent map. *)
Definition treeAlgorithms : list string :=
  ["bfs"; "dfs"; "ucs"; "greedy"; "astar"; "hillClimbing"; "beamSearch"]%string.

(** The algorithms that stop only when their frontier is empty. *)
Definition exhaustiveAlgorithms : list string :=
  ["bfs"; "dfs"; "ucs"; "greedy"; "astar"]%string.

(** Two numbers are the same number. *)
Definition same_num (a b : num) : Prop :=
  match a, b with
  | Fin x, Fin y => (x == y)%Q
  | NaN, NaN => True
  | _, _ => False
  end.

(** [cs] lists, pair by pair, a cost that the resolver gives to each
    consecutive pair of [path]. *)
Fixpoint costed (problem : Problem) (path : list string) (cs : list num)
    : Prop :=
  match path, cs with
  | [_], [] => True
  | a :: (b :: _) as rest, c :: cs' =>
      (b, c) ∈ getNeighbors problem a ∧ costed problem rest cs'
  | _, _ => False
  end.

(** The reported cost is the sum of such step costs along the path. *)
Definition CostConsistent (problem : Problem) (r : SearchResult) : Prop :=
  ∃ path cs cost,
    finalPath r = Some path ∧ pathCost r = Some cost ∧
    costed problem path cs ∧ same_num cost (fold_left nadd cs (Fin 0)).

(** The visited sets of the steps never shrink and the last one has
    [nodesVisited] elements. *)
Definition VisitedGrowth (r : SearchResult) : Prop :=
  mono_steps (steps r) ∧
  ∃ s, list.last (steps r) = Some s ∧ nodesVisited r = length (visited s).

(** [nodesVisited] is the number of nodes reachable from the start. *)
Definition CountsComponent (problem : Problem) (r : SearchResult) : Prop :=
  ∃ comp, NoDup comp ∧
          (∀ x, x ∈ comp ↔ reach problem (getStartId problem) x) ∧
          nodesVisited r = length comp.

(** Identifiers are set: the empty string, which the callers use for
    "no node", is not the id of a reachable node. *)
Definition idsSet (problem : Problem) : Prop :=
  ∀ y, reach problem (getStartId problem) y → y ≠ ""%string.

(** A number that is not negative. *)
Definition nonneg (n : num) : Prop :=
  match n with
  | Fin q => (0 <= q)%Q
  | NaN => False
  end.

(** The id names something in the problem: a cell of the grid, or a node
    of the graph. *)
Definition resolvable (p : Problem) (id : string) : Prop :=
  match p with
  | Grid g =>
      ∃ rr cc cl, idToGridCell id = {| dec_row := Some rr; dec_col := Some cc |}
                  ∧ cl ∈ cells g ∧ cell_row cl = rr ∧ cell_col cl = cc
  | Graph g => ∃ n, n ∈ nodes g ∧ node_id n = id
  end.

Section Claims.
Variable Math_sqrt : Q → Q.

Lemma run_exhaustive fuel sel p r :
  sel ∈ exhaustiveAlgorithms →
  runAlgorithm Math_sqrt fuel sel p = Returned r → TreeFinal p true r.
Proof.
  intros Hsel. unfold exhaustiveAlgorithms in Hsel.
  repeat (apply elem_of_cons in Hsel as [->|Hsel]);
    [..|by apply elem_of_nil in Hsel]; unfold runAlgorithm; simpl; intros H.
  - eapply QFinal_TreeFinal, bfs_final, H.
  - eapply QFinal_TreeFinal, dfs_final, H.
  - eapply QFinal_TreeFinal, ucs_final, H.
  - eapply QFinal_TreeFinal, greedy_final, H.
  - eapply QFinal_TreeFinal, astar_final, H.
Qed.

Lemma run_tree fuel sel p r :
  sel ∈ treeAlgorithms →
  runAlgorithm Math_sqrt fuel sel p = Returned r → TreeFinal p false r.
Proof.
  intros Hsel. unfold treeAlgorithms in Hsel.
  repeat (apply elem_of_cons in Hsel as [->|Hsel]);
    [..|by apply elem_of_nil in Hsel];
    try solve
      [ intros H; eapply TreeFinal_weaken, run_exhaustive; [|exact H];
        unfold exhaustiveAlgorithms;
        repeat first [by apply list_elem_of_here | apply list_elem_of_further] ];
    unfold runAlgorithm; simpl; intros H.
  - eapply hill_final, H.
  - eapply beam_final, H.
Qed.

Lemma run_ida fuel p r :
  runAlgorithm Math_sqrt fuel "idaStar" p = Returned r → IdaFinal p r.
Proof. unfold runAlgorithm; simpl. apply ida_final. Qed.

Lemma algorithmTypes_split sel :
  sel ∈ algorithmTypes → sel ∈ treeAlgorithms ∨ sel = "idaStar"%string.
Proof.
  unfold algorithmTypes, treeAlgorithms. intros H.
  repeat (apply elem_of_cons in H as [->|H]);
    [..|by apply elem_of_nil in H];
    first [by right
          | left; repeat first [by apply list_elem_of_here
                               | apply list_elem_of_further]].
Qed.


(** C3, as amended. For the seven algorithms other than IDA*, the size of
    the visited set never decreases from a recorded step to the next, and
    [nodesVisited] is the size of the visited set of the last step. *)
Theorem C3_visited_growth fuel sel p r :
  sel ∈ treeAlgorithms →
  runAlgorithm Math_sqrt fuel sel p = Returned r → VisitedGrowth r.
Proof.
  intros Hsel Hrun.
  destruct (run_tree _ _ _ _ Hsel Hrun)
    as (v&pm&_&_&(Hm&s&Hl&Hv)&Hn&_).
  split; [done|]. exists s. split; [done|]. congruence.
Qed.



(** C8. A selector outside the closed set makes the dispatch fail with an
    error; no algorithm is run for it. *)
Theorem C8_unknown_selector fuel sel p :
  sel ∉ algorithmTypes →
  runAlgorithm Math_sqrt fuel sel p
    = Thrown ("Unknown algorithm: " +:+ sel).
Proof.
  intros Hsel. unfold runAlgorithm.
  repeat match goal with
  | |- context [String.eqb sel ?s] =>
      destruct (String.eqb_spec sel s) as [->|_];
        [exfalso; apply Hsel; unfold algorithmTypes;
         repeat first [by apply list_elem_of_here
                      | apply list_elem_of_further]|]
  end.
  done.
Qed.

(** *** Costs along the tree (C1) *)

Lemma costed_snoc p l cs a b c :
  costed p l cs → list.last l = Some a → (b, c) ∈ getNeighbors p a →
  costed p (l ++ [b]) (cs ++ [c]).
Proof.
  revert cs. induction l as [|x l IH]; intros cs; [done|].
  destruct l as [|y l].
  - destruct cs; [|done]. intros _ [= <-] Hn. simpl. done.
  - destruct cs as [|c0 cs]; [done|]. intros [Hxy Hrest] Hl Hn.
    split; [done|]. by apply IH.
Qed.

Lemma chain_costed p fr v pm g x l :
  chain (getStartId p) pm x l → CostInv p fr v pm g →
  ∃ cs, costed p l cs ∧ g !! x = Some (fold_left nadd cs (Fin 0)).
Proof.
  intros Hc (_&Hcost&Hg0). induction Hc as [|x p0 l Hp Hc IH].
  - by exists [].
  - destruct IH as (cs&Hcs&Hg). destruct (Hcost _ _ Hp) as (c&Hn&Hgx).
    exists (cs ++ [c]). split.
    + eapply costed_snoc; eauto. by eapply chain_last'.
    + rewrite Hgx, Hg, fold_left_app. done.
Qed.

Lemma same_num_refl a : same_num a a.
Proof. destruct a; simpl; [reflexivity|done]. Qed.

Lemma cost_final {A : QueueAlg PriorityQueue.t} p r :
  idsSet p → qa_cost A = (λ st _, l_g st !! getGoalId p) →
  QFinal p A PriorityQueue.toArray (CostInv p) r →
  success r = true → CostConsistent p r.
Proof.
  intros Hids Hcost [st [HG HX _ _ Hcases]] Hs.
  destruct Hcases as [(_&Hg&path&Hrec&Hfp&Hpc)|(Hf&_)]; [|congruence].
  destruct (GInv_reconstruct _ _ _ _ _ _ HG Hg Hids) as (l&Hl&_&Hch).
  assert (l = path) as -> by congruence.
  destruct (chain_costed _ _ _ _ _ _ _ Hch HX) as (cs&Hcs&Hgg).
  rewrite Hcost in Hpc.
  exists path, cs, (fold_left nadd cs (Fin 0)).
  split_and!; [done|congruence|done|apply same_num_refl].
Qed.


(** *** Recorded f-values (C10) *)

Definition fh_equal (s : SearchStep) : Prop := fValues s = hValues s.

Lemma fold_steps {F E : Type} (f : Live F → E → Live F) :
  (∀ st n, l_steps (f st n) = l_steps st) →
  ∀ ns st, l_steps (fold_left f ns st) = l_steps st.
Proof.
  intros Hf. induction ns as [|n ns IH]; intros st; simpl; [done|].
  by rewrite IH.
Qed.

Lemma greedyVisit_steps p goalId cur st n :
  l_steps (greedyVisit Math_sqrt p goalId cur st n) = l_steps st.
Proof. unfold greedyVisit. by destruct (has _ _). Qed.

Lemma greedy_fh fuel p r :
  runGreedy Math_sqrt fuel p = Returned r → Forall fh_equal (steps r).
Proof.
  unfold runGreedy.
  apply (while_inv _ (λ st, Forall fh_equal (l_steps st))
           (λ r, Forall fh_equal (steps r))).
  - intros st st' Hst. unfold greedyBody.
    destruct (l_frontier st) as [|[c pr] pq]; simpl; [done|].
    destruct (has _ c); [by intros [= <-]|].
    destruct (String.eqb c _); [by destruct (reconstructPath _ _)|].
    intros [= <-]. simpl.
    rewrite (fold_steps _ (greedyVisit_steps p _ c)). simpl.
    apply Forall_app. split; [done|]. by apply Forall_singleton.
  - intros st r' Hst. unfold greedyBody.
    destruct (l_frontier st) as [|[c pr] pq]; simpl; [by intros [= <-]|].
    destruct (has _ c); [done|].
    destruct (String.eqb c _); [|done].
    destruct (reconstructPath _ _); [|done]. intros [= <-]. simpl.
    apply Forall_app. split; [done|]. by apply Forall_singleton.
  - simpl. by apply Forall_singleton.
Qed.

Lemma hill_fh fuel p r :
  runHillClimbing Math_sqrt fuel p = Returned r → Forall fh_equal (steps r).
Proof.
  unfold runHillClimbing.
  apply (while_inv _ (λ st, Forall fh_equal (l_steps st))
           (λ r, Forall fh_equal (steps r))).
  - intros st st' Hst. unfold hillBody.
    destruct (String.eqb _ _); [by destruct (reconstructPath _ _)|].
    destruct (fold_left _ _ _) as [[st1 bh] best] eqn:Hfold.
    destruct (hill_fold _ _ _ _ _ _ _ _ _ _ Hfold) as (_&_&Hsteps&_).
    destruct (chosen best); [|done]. intros [= <-]. simpl. rewrite Hsteps.
    apply Forall_app. split; [done|]. by apply Forall_singleton.
  - intros st r' Hst. unfold hillBody.
    destruct (String.eqb _ _).
    { destruct (reconstructPath _ _); [|done]. by intros [= <-]. }
    destruct (fold_left _ _ _) as [[st1 bh] best] eqn:Hfold.
    destruct (hill_fold _ _ _ _ _ _ _ _ _ _ Hfold) as (_&_&Hsteps&_).
    destruct (chosen best); [done|]. intros [= <-]. simpl. rewrite Hsteps.
    apply Forall_app. split; [done|]. by apply Forall_singleton.
  - simpl. by apply Forall_singleton.
Qed.

Lemma beamVisit_steps p goalId cur ns :
  ∀ st cands,
    l_steps (fst (fold_left (beamVisit Math_sqrt p goalId cur) ns
                    (st, cands))) = l_steps st.
Proof.
  induction ns as [|n ns IH]; intros st cands; cbn [fold_left]; [done|].
  destruct (beamVisit Math_sqrt p goalId cur (st, cands) n)
    as [st1 cands1] eqn:Hv.
  rewrite IH. unfold beamVisit in Hv.
  destruct (has _ _); by injection Hv as <- <-.
Qed.

Lemma beamScan_steps p goalId beam :
  ∀ st cands,
    match beamScan Math_sqrt p goalId beam st cands with
    | inl st' => l_steps st' = l_steps st
    | inr (st', _) => l_steps st' = l_steps st
    end.
Proof.
  induction beam as [|cur beam IH]; intros st cands; simpl; [done|].
  destruct (String.eqb cur goalId); [done|].
  pose proof (beamVisit_steps p goalId cur (getNeighbors p cur) st cands)
    as Hs.
  destruct (fold_left _ _ _) as [st1 cands1]. simpl in Hs.
  specialize (IH st1 cands1).
  destruct (beamScan _ _ _ _ _ _) as [st2|[st2 c2]]; congruence.
Qed.

Lemma beam_fh fuel p width r :
  runBeamSearch Math_sqrt fuel p width = Returned r →
  Forall fh_equal (steps r).
Proof.
  unfold runBeamSearch.
  apply (while_inv _ (λ st, Forall fh_equal (l_steps st))
           (λ r, Forall fh_equal (steps r))).
  - intros st st' Hst. unfold beamBody.
    destruct (l_frontier st) as [|b0 beam0]; [done|].
    pose proof (beamScan_steps p (getGoalId p) (b0 :: beam0) st []) as Hs.
    destruct (beamScan _ _ _ _ _ _) as [st1|[st1 cands]].
    { by destruct (reconstructPath _ _). }
    destruct cands as [|c0 cands0]; [done|]. intros [= <-]. simpl.
    rewrite (fold_steps beamKeep) by done. simpl. rewrite Hs.
    apply Forall_app. split; [done|]. by apply Forall_singleton.
  - intros st r' Hst. unfold beamBody.
    destruct (l_frontier st) as [|b0 beam0]; [by intros [= <-]|].
    pose proof (beamScan_steps p (getGoalId p) (b0 :: beam0) st []) as Hs.
    destruct (beamScan _ _ _ _ _ _) as [st1|[st1 cands]].
    + destruct (reconstructPath _ _); [|done]. intros [= <-]. simpl.
      rewrite Hs. apply Forall_app. split; [done|]. by apply Forall_singleton.
    + destruct cands; [|done]. intros [= <-]. simpl. rewrite Hs.
      apply Forall_app. split; [done|]. by apply Forall_singleton.
  - simpl. by apply Forall_singleton.
Qed.

(** C10. Every step that Greedy Best-First, Hill Climbing or Beam Search
    records holds the same map under [fValues] as under [hValues]. *)
Theorem C10_f_is_h fuel sel p r :
  sel ∈ ["greedy"; "hillClimbing"; "beamSearch"]%string →
  runAlgorithm Math_sqrt fuel sel p = Returned r →
  Forall (λ s, fValues s = hValues s) (steps r).
Proof.
  intros Hsel.
  repeat (apply elem_of_cons in Hsel as [->|Hsel]);
    [..|by apply elem_of_nil in Hsel]; unfold runAlgorithm; simpl.
  - apply greedy_fh.
  - apply hill_fh.
  - apply beam_fh.
Qed.

(** *** Start equal to goal (C6) *)

Lemma has_nil x : has [] x = false.
Proof. by apply has_false, not_elem_of_nil. Qed.

Lemma add_nil x : add [] x = [x].
Proof. unfold add. by rewrite has_nil. Qed.

Lemma reconstruct_single (pm : gmap string string) s :
  pm !! s = None → s ≠ ""%string → reconstructPath pm s = Some [s].
Proof.
  intros Hpm Hs. unfold reconstructPath. simpl.
  apply truthy_true in Hs. by rewrite Hs, Hpm.
Qed.

Lemma nlt_add0 h : nlt h (nadd (Fin 0) h) = false.
Proof.
  destruct h as [q|]; [|done]. simpl. apply negb_false_iff.
  apply Qle_bool_iff. rewrite Qplus_0_l. apply Qle_refl.
Qed.


(** *** The resolver on a grid (C7) *)

(** C7, as amended. For a grid and an id that decodes to [(r, c)], the
    resolver returns, in the fixed order of its direction table, exactly
    the candidates that are in bounds and not obstacles, each with cost
    1.414 (diagonal) or 1 (orthogonal) times the weight of the target
    cell; the table holds the four orthogonal offsets and, when
    [allowDiagonal] is set, the four diagonal ones. *)
Theorem C7_grid_neighbors g id r c :
  idToGridCell id = {| dec_row := Some r; dec_col := Some c |} →
  getNeighbors (Grid g) id
    = omap (specNeighbor g r c) (directions (allowDiagonal g)) ∧
  (∀ d, d ∈ directions (allowDiagonal g) ↔
        (Z.abs (fst d) + Z.abs (snd d) = 1)%Z ∨
        (allowDiagonal g = true ∧
         Z.abs (fst d) = 1%Z ∧ Z.abs (snd d) = 1%Z)).
Proof.
  intros Hid. split.
  - simpl. by apply getGridNeighbors_decoded.
  - intros d. apply directions_spec.
Qed.

(** *** The heuristic (C9) *)

Lemma find_node_none g id :
  ¬ resolvable (Graph g) id →
  find (λ n, String.eqb (node_id n) id) (nodes g) = None.
Proof.
  intros Hn. destruct (find _ _) as [n|] eqn:Hf; [|done].
  apply find_some in Hf as [Hin Heq]. exfalso. apply Hn.
  exists n. split; [by apply list_elem_of_In | by apply eqb_true].
Qed.

End Claims.

(** * The claims on worked problems *)

Lemma isqrt_nonneg x : (0 <= isqrt x)%Q.
Proof.
  unfold isqrt, Qle. simpl. pose proof (Z.sqrt_nonneg (Qfloor x)). lia.
Qed.

Lemma idsSet_universe p : has (universe p) "" = false → idsSet p.
Proof.
  intros H y Hy ->. apply has_false in H. apply H.
  by apply universe_closed.
Qed.

Lemma closedb_reach p comp x :
  closedb p comp = true → has comp (getStartId p) = true →
  reach p (getStartId p) x → x ∈ comp.
Proof.
  intros Hc Hs. apply Closed_reach; [|by apply has_true].
  intros a b Ha [c Hb]. left. unfold closedb in Hc.
  rewrite forallb_forall in Hc. apply list_elem_of_In in Ha.
  specialize (Hc _ Ha). rewrite forallb_forall in Hc.
  apply list_elem_of_In in Hb. by apply has_true, (Hc _ Hb).
Qed.

Lemma closedb_unreachable p comp :
  closedb p comp = true → has comp (getStartId p) = true →
  has comp (getGoalId p) = false →
  ¬ reach p (getStartId p) (getGoalId p).
Proof.
  intros Hc Hs Hg Hr. apply has_false in Hg. apply Hg.
  by eapply closedb_reach.
Qed.

Lemma walkb_reach p s x l :
  reach p s x → walkb p x l = true → ∀ y, y ∈ l → reach p s y.
Proof.
  revert x. induction l as [|z l IH]; intros x Hx Hw y Hy; simpl in Hw.
  { by apply elem_of_nil in Hy. }
  apply andb_prop in Hw as [Hz Hw].
  assert (reach p s z) as Hrz.
  { apply has_true, list_elem_of_fmap in Hz as ([z' c]&->&Hz).
    eapply rtc_r; [exact Hx|]. by exists c. }
  apply elem_of_cons in Hy as [->|Hy]; [done|]. by eapply IH.
Qed.

Lemma last_sizes r s :
  list.last (steps r) = Some s →
  list.last (map (λ s, length (visited s)) (steps r))
    = Some (length (visited s)).
Proof. intros H. by rewrite fmap_last, H. Qed.

(** Name the result of a run whose summary is known. *)
Ltac name_result r E H :=
  match type of H with
  | summary ?o = _ =>
      destruct o as [r| |] eqn:E; [|discriminate H..];
      injection H as ? ? ? ? ?
  end.

(** ** C1 on worked problems *)



(** ** C2 on worked problems *)



(** ** C3 on worked problems *)

(** Refutes C3 as stated. IDA* on the walled grid starts every deepening
    iteration with an empty visited set, so the recorded sizes fall from 6
    to 1 between two steps; and it reports the sum over the iterations, 12,
    while its last step shows no visited node. *)
Lemma C3_idaStar_restarts :
  ∃ r, runAlgorithm isqrt 20 "idaStar" walled3 = Returned r ∧
       map (λ s, length (visited s)) (steps r)
         = [0; 1; 2; 3; 4; 5; 5; 5; 5; 6;
            1; 2; 3; 4; 5; 6; 6; 6; 6; 6; 6; 0]%nat ∧
       nodesVisited r = 12%nat ∧
       ¬ VisitedGrowth r.
Proof.
  assert (summary (runAlgorithm isqrt 20 "idaStar" walled3)
          = Some (false, None, None, 12%nat,
                  [0; 1; 2; 3; 4; 5; 5; 5; 5; 6;
                   1; 2; 3; 4; 5; 6; 6; 6; 6; 6; 6; 0]%nat)) as H
    by (vm_compute; reflexivity).
  name_result r E H. exists r. split_and!; [done..|].
  intros [_ (s&Hl&Hn)]. apply last_sizes in Hl.
  match goal with Hs : map _ (steps r) = _ |- _ => rewrite Hs in Hl end.
  injection Hl as Hl. lia.
Qed.

(** Beam search on the walled grid. *)
Lemma C3_visited_growth_witness :
  ∃ r, runAlgorithm isqrt 20 "beamSearch" walled3 = Returned r ∧
       map (λ s, length (visited s)) (steps r) = [1; 3; 5; 5]%nat ∧
       VisitedGrowth r.
Proof.
  assert (summary (runAlgorithm isqrt 20 "beamSearch" walled3)
          = Some (false, None, None, 5%nat, [1; 3; 5; 5]%nat)) as H
    by (vm_compute; reflexivity).
  name_result r E H. exists r. split_and!; [done..|].
  apply (C3_visited_growth isqrt 20 "beamSearch" walled3).
  - apply has_true. reflexivity.
  - exact E.
Defined.

(** ** C4 on worked problems *)

Lemma walled3_unreachable :
  ¬ reach walled3 (getStartId walled3) (getGoalId walled3).
Proof.
  apply (closedb_unreachable walled3 walled3_component); reflexivity.
Qed.

Lemma walled3_reachable x :
  x ∈ walled3_component → reach walled3 (getStartId walled3) x.
Proof.
  intros Hx.
  apply (walkb_reach walled3 _ (getStartId walled3)
           ["0-1"; "0-2"; "0-1"; "1-1"; "1-0"; "2-0"; "1-0"; "0-0"]%string);
    [apply rtc_refl | reflexivity |].
  unfold walled3_component in Hx.
  repeat (apply elem_of_cons in Hx as [->|Hx]);
    [..|by apply elem_of_nil in Hx]; apply has_true; reflexivity.
Qed.



(** ** C5 on worked problems *)


(** ** C6 on worked problems *)



(** ** C7 on worked problems *)

(** Refutes C7 as stated. From the corner of the open grid with diagonal
    moves, the diagonal neighbor has weight 1 and cost 1.414, whose square
    is not 2. *)
Lemma C7_diagonal_factor :
  getNeighbors diag3 "0-0"
    = [("0-1"%string, Fin 1); ("1-0"%string, Fin 1);
       ("1-1"%string, Fin (1414 # 1000))] ∧
  option_map cell_weight (findCell (withDiagonal (createEmptyGrid 3 3)) 1 1)
    = Some 1%Q ∧
  ¬ ((1414 # 1000) * (1414 # 1000) == 2 * (1 * 1))%Q.
Proof.
  split; [vm_compute; reflexivity|]. split; [reflexivity|].
  unfold Qeq. simpl. lia.
Qed.

(** The centre of the open grid with diagonal moves. *)
Lemma C7_grid_neighbors_witness :
  getNeighbors diag3 "1-1"
    = omap (specNeighbor (withDiagonal (createEmptyGrid 3 3)) 1 1)
        (directions true) ∧
  length (getNeighbors diag3 "1-1") = 8%nat.
Proof.
  split; [|reflexivity].
  apply (C7_grid_neighbors (withDiagonal (createEmptyGrid 3 3)) "1-1" 1 1).
  reflexivity.
Defined.

(** ** C8 on worked problems *)

Lemma C8_unknown_selector_witness :
  runAlgorithm isqrt 10 "dijkstra" triangle
    = Thrown "Unknown algorithm: dijkstra".
Proof.
  apply (C8_unknown_selector isqrt 10 "dijkstra" triangle).
  apply has_false. reflexivity.
Defined.

(** ** C9 on worked problems *)



(** ** C10 on worked problems *)

Lemma C10_f_is_h_witness :
  ∃ r, runAlgorithm isqrt 10 "greedy" triangle = Returned r ∧
       Forall (λ s, fValues s = hValues s) (steps r).
Proof.
  assert (summary (runAlgorithm isqrt 10 "greedy" triangle)
          = Some (true, Some ["A"; "C"]%string, Some (Fin 10), 2%nat,
                  [0; 1; 2]%nat)) as H by (vm_compute; reflexivity).
  name_result r E H. exists r. split; [done|].
  apply (C10_f_is_h isqrt 10 "greedy" triangle).
  - apply has_true. reflexivity.
  - exact E.
Defined.

(** * Further properties of the engine and of its callers *)

(** ** The priority queue *)

(** [contains(item, equals)] of the class. *)
Definition PriorityQueue_contains (item : string)
    (equals : string → string → bool) (items : PriorityQueue.t) : bool :=
  existsb (λ i, equals (fst i) item) items.

(** The priority of an entry, when it is a number other than [NaN]. *)
Definition finitePriority (i : string * num) : option Q :=
  match snd i with Fin q => Some q | NaN => None end.

(** All priorities are numbers and they do not decrease along the queue. *)
Fixpoint ascending (items : PriorityQueue.t) : Prop :=
  match items with
  | [] => True
  | i :: rest =>
      (∃ p, finitePriority i = Some p ∧
            ∀ j q, j ∈ rest → finitePriority j = Some q → (p <= q)%Q) ∧
      (∀ j, j ∈ rest → ∃ q, finitePriority j = Some q) ∧
      ascending rest
  end.

(** [p <= priority] and [priority < p] as tests on entries. *)
Definition notAfter (p : Q) (i : string * num) : bool :=
  negb (ngt (snd i) (Fin p)).

Definition after (p : Q) (i : string * num) : bool := ngt (snd i) (Fin p).

(** A queue obtained from the empty one by [enqueue] with numeric
    priorities and [dequeue]. *)
Inductive built : PriorityQueue.t → Prop :=
  | built_empty : built PriorityQueue.empty
  | built_enqueue item p items :
      built items → built (PriorityQueue.enqueue item (Fin p) items)
  | built_dequeue items :
      built items → built (snd (PriorityQueue.dequeue items)).

Lemma ngt_Fin p q : ngt (Fin p) (Fin q) = true ↔ (q < p)%Q.
Proof.
  unfold ngt, nlt. rewrite negb_true_iff. split.
  - intros H. apply Qnot_le_lt. intros Hle.
    apply Qle_bool_iff in Hle. congruence.
  - intros H. destruct (Qle_bool p q) eqn:E; [|done].
    apply Qle_bool_iff in E. exfalso. by eapply Qlt_not_le.
Qed.

Lemma ngt_Fin_false p q : ngt (Fin p) (Fin q) = false ↔ (p <= q)%Q.
Proof.
  unfold ngt, nlt. rewrite negb_false_iff. apply Qle_bool_iff.
Qed.

Lemma ascending_tail i rest : ascending (i :: rest) → ascending rest.
Proof. by intros (_&_&?). Qed.

Lemma ascending_finite items j :
  ascending items → j ∈ items → ∃ q, finitePriority j = Some q.
Proof.
  induction items as [|i rest IH]; intros Ha Hj.
  { by apply elem_of_nil in Hj. }
  destruct Ha as ((p&Hp&_)&Hfin&Hrest).
  apply elem_of_cons in Hj as [->|Hj]; [by exists p | by apply Hfin].
Qed.

Lemma filter_none {A} (P : A → Prop) `{!∀ x, Decision (P x)} (l : list A) :
  (∀ x, x ∈ l → ¬ P x) → filter P l = [].
Proof.
  induction l as [|x l IH]; intros Hl; [done|].
  rewrite filter_cons_False by (apply Hl, list_elem_of_here).
  apply IH. intros y Hy. by apply Hl, list_elem_of_further.
Qed.

Lemma filter_all {A} (P : A → Prop) `{!∀ x, Decision (P x)} (l : list A) :
  (∀ x, x ∈ l → P x) → filter P l = l.
Proof.
  induction l as [|x l IH]; intros Hl; [done|].
  rewrite filter_cons_True by (apply Hl, list_elem_of_here).
  f_equal. apply IH. intros y Hy. by apply Hl, list_elem_of_further.
Qed.

(** Inserting an entry that is not after the head of an ascending queue
    puts it in front. *)
Lemma sort_insert_front i items :
  (∀ j, j ∈ items → PriorityQueue.cmp_gt i j = false) →
  sort_insert PriorityQueue.cmp_gt i items = i :: items.
Proof.
  destruct items as [|j rest]; [done|]. intros H. simpl.
  by rewrite H by apply list_elem_of_here.
Qed.

(** Where [enqueue] puts the new entry in an ascending queue. *)
Lemma enqueue_ascending item p (items : list (string * num)) :
  ascending items →
  PriorityQueue.enqueue item (Fin p) items
    = filter (λ i, notAfter p i = true) items ++ [(item, Fin p)]
      ++ filter (λ i, after p i = true) items.
Proof.
  unfold PriorityQueue.enqueue, stable_sort. rewrite foldr_app.
  cbn [foldr].
  induction items as [|i rest IH]; intros Ha; [done|].
  destruct Ha as ((pi&Hpi&Hmin)&Hfin&Hrest). cbn [foldr].
  rewrite (IH Hrest). clear IH.
  assert (∀ j, j ∈ rest → ∃ q, snd j = Fin q ∧ (pi <= q)%Q) as Hrest'.
  { intros j Hj. destruct (Hfin _ Hj) as [q Hq]. exists q.
    split; [|by eapply Hmin].
    unfold finitePriority in Hq. by destruct (snd j); simplify_eq. }
  destruct i as [x n]. unfold finitePriority in Hpi. simpl in Hpi.
  destruct n as [q|]; [|done]. injection Hpi as ->.
  destruct (ngt (Fin pi) (Fin p)) eqn:E.
  - (* the head is after the new entry, and so is the rest *)
    pose proof E as E'. apply ngt_Fin in E'.
    assert (∀ j, j ∈ rest → ngt (snd j) (Fin p) = true) as Hafter.
    { intros j Hj. destruct (Hrest' _ Hj) as (q&->&Hle).
      apply ngt_Fin. eapply Qlt_le_trans; eauto. }
    rewrite filter_cons_False
      by (unfold notAfter; cbn [snd]; rewrite E; done).
    rewrite filter_cons_True by (unfold after; cbn [snd]; done).
    assert (filter (λ i, notAfter p i = true) rest = []) as ->.
    { apply filter_none. intros j Hj.
      unfold notAfter. by rewrite (Hafter _ Hj). }
    assert (filter (λ i, after p i = true) rest = rest) as ->.
    { apply filter_all. intros j Hj. by apply Hafter. }
    cbn [app sort_insert]. unfold PriorityQueue.cmp_gt at 1. cbn [snd].
    rewrite E. f_equal. apply sort_insert_front. intros j Hj.
    destruct (Hrest' _ Hj) as (q&Hq&Hle).
    unfold PriorityQueue.cmp_gt. simpl. rewrite Hq.
    by apply ngt_Fin_false.
  - (* the head is not after the new entry: it stays in front *)
    pose proof E as E'. apply ngt_Fin_false in E'.
    rewrite filter_cons_True
      by (unfold notAfter; cbn [snd]; rewrite E; done).
    rewrite filter_cons_False
      by (unfold after; cbn [snd]; rewrite E; done).
    change (((x, Fin pi) :: ?a) ++ ?b) with ((x, Fin pi) :: (a ++ b)).
    apply sort_insert_front. intros j Hj.
    unfold PriorityQueue.cmp_gt. cbn [snd].
    apply elem_of_app in Hj as [Hj|Hj].
    + apply list_elem_of_filter in Hj as [_ Hj].
      destruct (Hrest' _ Hj) as (q&->&Hle). by apply ngt_Fin_false.
    + apply elem_of_cons in Hj as [->|Hj]; [by apply ngt_Fin_false|].
      apply list_elem_of_filter in Hj as [_ Hj].
      destruct (Hrest' _ Hj) as (q&->&Hle). by apply ngt_Fin_false.
Qed.

Lemma ascending_cons x p (items : list (string * num)) :
  ascending items →
  (∀ j, j ∈ items → ∃ q, snd j = Fin q ∧ (p <= q)%Q) →
  ascending ((x, Fin p) :: items).
Proof.
  intros Ha Hle. split_and!; [|intros j Hj|done].
  - exists p. split; [done|]. intros j q Hj Hq.
    destruct (Hle _ Hj) as (q'&Hq'&?). unfold finitePriority in Hq.
    rewrite Hq' in Hq. by simplify_eq.
  - destruct (Hle _ Hj) as (q&Hq&_). exists q.
    unfold finitePriority. by rewrite Hq.
Qed.

Lemma ascending_head x p (items : list (string * num)) j :
  ascending ((x, Fin p) :: items) → j ∈ items →
  ∃ q, snd j = Fin q ∧ (p <= q)%Q.
Proof.
  intros ((p'&Hp&Hmin)&Hfin&_) Hj. injection Hp as <-.
  destruct (Hfin _ Hj) as [q Hq]. exists q. split; [|by eapply Hmin].
  unfold finitePriority in Hq. by destruct (snd j); simplify_eq.
Qed.

(** Sorting in an entry with a numeric priority keeps the order. *)
Lemma sort_insert_ascending x p (items : list (string * num)) :
  ascending items →
  ascending (sort_insert PriorityQueue.cmp_gt (x, Fin p) items).
Proof.
  induction items as [|[y n] rest IH]; intros Ha.
  { apply ascending_cons; [done|]. intros j Hj. by apply elem_of_nil in Hj. }
  pose proof Ha as ((q&Hq&_)&_&Hrest). unfold finitePriority in Hq.
  simpl in Hq. destruct n as [q'|]; [|done]. injection Hq as ->.
  cbn [sort_insert]. unfold PriorityQueue.cmp_gt at 1. cbn [snd].
  destruct (ngt (Fin p) (Fin q)) eqn:E.
  - apply ngt_Fin in E. apply ascending_cons; [by apply IH|].
    intros j Hj. rewrite sort_insert_perm in Hj.
    apply elem_of_cons in Hj as [->|Hj].
    + exists p. split; [done|]. by apply Qlt_le_weak.
    + by eapply ascending_head.
  - apply ngt_Fin_false in E. apply ascending_cons; [done|].
    intros j Hj. apply elem_of_cons in Hj as [->|Hj]; [by exists q|].
    destruct (ascending_head _ _ _ _ Ha Hj) as (q'&?&?). exists q'.
    split; [done|]. by eapply Qle_trans.
Qed.

Lemma stable_sort_ascending (items : list (string * num)) :
  (∀ j, j ∈ items → ∃ q, snd j = Fin q) →
  ascending (stable_sort PriorityQueue.cmp_gt items).
Proof.
  induction items as [|[x n] rest IH]; intros Hfin; [done|].
  destruct (Hfin (x, n)) as [q Hq]; [apply list_elem_of_here|].
  simpl in Hq. subst n. cbn [stable_sort foldr].
  apply sort_insert_ascending, IH. intros j Hj.
  by apply Hfin, list_elem_of_further.
Qed.

Lemma built_numeric items j : built items → j ∈ items → ∃ q, snd j = Fin q.
Proof.
  intros Hb. revert j. induction Hb as [|item p items Hb IH|items Hb IH];
    intros j Hj.
  - by apply elem_of_nil in Hj.
  - unfold PriorityQueue.enqueue in Hj.
    rewrite stable_sort_perm in Hj.
    apply elem_of_app in Hj as [Hj|Hj]; [by apply IH|].
    apply list_elem_of_singleton in Hj as ->. by exists p.
  - destruct items as [|i rest]; [by apply elem_of_nil in Hj|].
    by apply IH, list_elem_of_further.
Qed.

Lemma built_ascending items : built items → ascending items.
Proof.
  induction 1 as [|item p items Hb IH|items Hb IH].
  - done.
  - apply stable_sort_ascending. intros j Hj.
    apply elem_of_app in Hj as [Hj|Hj]; [by eapply built_numeric|].
    apply list_elem_of_singleton in Hj as ->. by exists p.
  - destruct items as [|i rest]; [done|]. by eapply ascending_tail.
Qed.

(** X1. In a queue whose priorities are numbers in ascending order,
    [enqueue] puts the new entry behind every entry whose priority is not
    greater and in front of every entry whose priority is greater, and
    keeps the order of the others: entries of equal priority leave the
    queue in the order in which they came. *)
Theorem enqueue_places_by_priority item p (items : list (string * num)) :
  ascending items →
  PriorityQueue.enqueue item (Fin p) items
    = filter (λ i, notAfter p i = true) items ++ [(item, Fin p)]
      ++ filter (λ i, after p i = true) items.
Proof. apply enqueue_ascending. Qed.

Lemma enqueue_places_by_priority_witness :
  PriorityQueue.enqueue "d" (Fin 2)
    [("a"%string, Fin 1); ("b"%string, Fin 2); ("c"%string, Fin 3)]
  = [("a"%string, Fin 1); ("b"%string, Fin 2); ("d"%string, Fin 2);
     ("c"%string, Fin 3)].
Proof.
  rewrite (enqueue_places_by_priority "d" 2
             [("a"%string, Fin 1); ("b"%string, Fin 2); ("c"%string, Fin 3)]).
  - reflexivity.
  - simpl. split_and!; try done.
    + exists 1%Q. split; [done|]. intros j q Hj Hq.
      repeat (apply elem_of_cons in Hj as [->|Hj]);
        [..|by apply elem_of_nil in Hj]; injection Hq as <-; done.
    + intros j Hj.
      repeat (apply elem_of_cons in Hj as [->|Hj]);
        [..|by apply elem_of_nil in Hj]; by eexists.
    + exists 2%Q. split; [done|]. intros j q Hj Hq.
      repeat (apply elem_of_cons in Hj as [->|Hj]);
        [..|by apply elem_of_nil in Hj]; injection Hq as <-; done.
    + intros j Hj.
      repeat (apply elem_of_cons in Hj as [->|Hj]);
        [..|by apply elem_of_nil in Hj]; by eexists.
    + exists 3%Q. split; [done|]. intros j q Hj.
      by apply elem_of_nil in Hj.
    + intros j Hj. by apply elem_of_nil in Hj.
Defined.

(** X2. From a queue built from the empty one by [enqueue] with numeric
    priorities and [dequeue], [dequeue] takes an entry whose priority is
    least among all entries; and it takes nothing exactly from the empty
    queue. *)
Theorem built_dequeue_least items :
  built items →
  match PriorityQueue.dequeue items with
  | (None, rest) => items = [] ∧ rest = []
  | (Some x, rest) =>
      ∃ p, items = (x, Fin p) :: rest ∧
           ∀ j, j ∈ items → ∃ q, snd j = Fin q ∧ (p <= q)%Q
  end.
Proof.
  intros Hb. pose proof (built_ascending _ Hb) as Ha.
  destruct items as [|[x n] rest]; [done|]. cbn [PriorityQueue.dequeue fst].
  pose proof Ha as ((p&Hp&_)&_). unfold finitePriority in Hp. simpl in Hp.
  destruct n as [q|]; [|done]. injection Hp as ->. exists p.
  split; [done|]. intros j Hj.
  apply elem_of_cons in Hj as [->|Hj].
  - exists p. split; [done|]. apply Qle_refl.
  - by eapply ascending_head.
Qed.

Lemma built_dequeue_least_witness :
  PriorityQueue.dequeue
    (PriorityQueue.enqueue "b" (Fin 1)
       (PriorityQueue.enqueue "a" (Fin 3) PriorityQueue.empty))
  = (Some "b"%string, [("a"%string, Fin 3)]) ∧
  ∀ j, j ∈ PriorityQueue.enqueue "b" (Fin 1)
             (PriorityQueue.enqueue "a" (Fin 3) PriorityQueue.empty) →
       ∃ q, snd j = Fin q ∧ (1 <= q)%Q.
Proof.
  split; [reflexivity|].
  pose proof (built_dequeue_least
                (PriorityQueue.enqueue "b" (Fin 1)
                   (PriorityQueue.enqueue "a" (Fin 3) PriorityQueue.empty))
                (built_enqueue _ _ _ (built_enqueue _ _ _ built_empty))) as H.
  destruct H as (p&Hp&H). injection Hp as <-. exact H.
Defined.

(** X3. After [enqueue(y, priority)], whatever the priority, [contains]
    finds an item exactly when [equals] matches it with [y] or [contains]
    found it before: sorting loses and adds no entry. *)
Theorem contains_enqueue x equals y pr (items : list (string * num)) :
  PriorityQueue_contains x equals (PriorityQueue.enqueue y pr items)
  = equals y x || PriorityQueue_contains x equals items.
Proof.
  unfold PriorityQueue_contains, PriorityQueue.enqueue.
  apply eq_true_iff_eq. rewrite orb_true_iff, !existsb_exists. split.
  - intros (i&Hi&He). apply list_elem_of_In in Hi.
    rewrite stable_sort_perm in Hi.
    apply elem_of_app in Hi as [Hi|Hi].
    + right. exists i. split; [by apply list_elem_of_In|done].
    + apply list_elem_of_singleton in Hi as ->. by left.
  - intros [He|(i&Hi&He)].
    + exists (y, pr). split; [|done]. apply list_elem_of_In.
      rewrite stable_sort_perm. apply elem_of_app. right.
      by apply list_elem_of_singleton.
    + exists i. split; [|done]. apply list_elem_of_In.
      rewrite stable_sort_perm. apply elem_of_app. left.
      by apply list_elem_of_In.
Qed.

(** ** Identifiers of grid cells *)

(** No character of [s] is the separator. *)
Fixpoint noSep (sep : ascii) (s : string) : Prop :=
  match s with
  | EmptyString => True
  | String ch s' => Ascii.eqb ch sep = false ∧ noSep sep s'
  end.

Lemma split_noSep sep s : noSep sep s → split sep s = [s].
Proof.
  induction s as [|ch s IH]; [done|]. intros [Hch Hs]. simpl.
  by rewrite Hch, (IH Hs).
Qed.

Lemma split_at_sep sep s rest :
  noSep sep s →
  split sep (s +:+ String sep rest) = s :: split sep rest.
Proof.
  induction s as [|ch s IH]; intros Hs; simpl.
  - by rewrite Ascii.eqb_refl.
  - destruct Hs as [Hch Hs]. by rewrite Hch, (IH Hs).
Qed.

Lemma digits_noSep d : noSep "-" (NilEmpty.string_of_uint d).
Proof. induction d; simpl; auto. Qed.

(** The rendering of a natural number: its decimal digits. *)
Lemma numToString_nonneg z :
  (0 <= z)%Z →
  numToString z = NilEmpty.string_of_uint (N.to_uint (Z.to_N z)).
Proof.
  intros Hz. unfold numToString. destruct z as [|p|p]; [done| |lia].
  simpl. unfold NilZero.string_of_uint.
  pose proof (DecimalPos.Unsigned.to_uint_nonnil p).
  by destruct (Pos.to_uint p).
Qed.

Lemma numToString_neg z :
  (z < 0)%Z →
  numToString z
    = String "-" (NilEmpty.string_of_uint (N.to_uint (Z.to_N (- z)))).
Proof.
  intros Hz. unfold numToString. destruct z as [|p|p]; [lia|lia|].
  simpl. unfold NilZero.string_of_uint.
  pose proof (DecimalPos.Unsigned.to_uint_nonnil p).
  by destruct (Pos.to_uint p).
Qed.

Lemma Number_digits n :
  Number (NilEmpty.string_of_uint (N.to_uint n)) = Some (Z.of_N n).
Proof.
  unfold Number. rewrite NilEmpty.usu. simpl.
  by rewrite DecimalN.Unsigned.of_to.
Qed.

Lemma decode_encode r c :
  (0 <= r)%Z → (0 <= c)%Z →
  idToGridCell (gridCellToId r c)
    = {| dec_row := Some r; dec_col := Some c |}.
Proof.
  intros Hr Hc. unfold idToGridCell, gridCellToId.
  rewrite (numToString_nonneg r Hr), (numToString_nonneg c Hc).
  change (?a +:+ "-" +:+ ?b) with (a +:+ String "-" b).
  rewrite split_at_sep by apply digits_noSep.
  rewrite split_noSep by apply digits_noSep.
  cbn [map lookup list_lookup mjoin]. simpl.
  rewrite !Number_digits. simpl. by rewrite !Z2N.id.
Qed.

Lemma encode_inj r c r' c' :
  (0 <= r)%Z → (0 <= c)%Z → (0 <= r')%Z → (0 <= c')%Z →
  gridCellToId r c = gridCellToId r' c' → r = r' ∧ c = c'.
Proof.
  intros Hr Hc Hr' Hc' Heq.
  pose proof (decode_encode r c Hr Hc) as H.
  rewrite Heq, (decode_encode r' c' Hr' Hc') in H.
  by injection H as -> ->.
Qed.

(** X4. [idToGridCell] undoes [gridCellToId] on row and column numbers
    that are not negative. *)
Theorem idToGridCell_gridCellToId r c :
  (0 <= r)%Z → (0 <= c)%Z →
  idToGridCell (gridCellToId r c)
    = {| dec_row := Some r; dec_col := Some c |}.
Proof. apply decode_encode. Qed.

Lemma idToGridCell_gridCellToId_witness :
  gridCellToId 12 7 = "12-7"%string ∧
  idToGridCell "12-7" = {| dec_row := Some 12%Z; dec_col := Some 7%Z |}.
Proof.
  split; [reflexivity|].
  apply (idToGridCell_gridCellToId 12 7); lia.
Defined.

(** X5. Cells with row and column numbers that are not negative have
    different identifiers. *)
Theorem gridCellToId_inj r c r' c' :
  (0 <= r)%Z → (0 <= c)%Z → (0 <= r')%Z → (0 <= c')%Z →
  gridCellToId r c = gridCellToId r' c' → r = r' ∧ c = c'.
Proof. apply encode_inj. Qed.

Lemma gridCellToId_inj_witness :
  gridCellToId 1 11 ≠ gridCellToId 11 1.
Proof.
  intros H. apply (gridCellToId_inj 1 11 11 1) in H; lia.
Defined.

(** X6. A negative number does not survive the round trip: the minus sign
    is read as a separator. For a negative row the decoded row is 0 and the
    decoded column is the absolute value of the row, whatever the column
    was; for a negative column after a row that is not negative the decoded
    column is 0. *)
Theorem idToGridCell_negative r c :
  ((r < 0)%Z →
   idToGridCell (gridCellToId r c)
     = {| dec_row := Some 0%Z; dec_col := Some (- r)%Z |}) ∧
  ((0 <= r)%Z → (c < 0)%Z →
   idToGridCell (gridCellToId r c)
     = {| dec_row := Some r; dec_col := Some 0%Z |}).
Proof.
  split.
  - intros Hr. unfold idToGridCell, gridCellToId.
    rewrite (numToString_neg r Hr).
    change (String "-" ?a +:+ "-" +:+ ?b)
      with (String "-" (a +:+ String "-" b)).
    cbn [split]. rewrite Ascii.eqb_refl.
    rewrite split_at_sep by apply digits_noSep.
    cbn [map lookup list_lookup mjoin]. simpl.
    rewrite Number_digits. simpl. rewrite Z2N.id by lia. done.
  - intros Hr Hc. unfold idToGridCell, gridCellToId.
    rewrite (numToString_nonneg r Hr), (numToString_neg c Hc).
    change (?a +:+ "-" +:+ ?b) with (a +:+ String "-" b).
    rewrite split_at_sep by apply digits_noSep.
    cbn [split]. rewrite Ascii.eqb_refl.
    cbn [map lookup list_lookup mjoin]. simpl.
    rewrite Number_digits. simpl. rewrite Z2N.id by lia. done.
Qed.

Lemma idToGridCell_negative_witness :
  gridCellToId (-1) 2 = "-1-2"%string ∧
  idToGridCell "-1-2" = {| dec_row := Some 0%Z; dec_col := Some 1%Z |} ∧
  idToGridCell "1--2" = {| dec_row := Some 1%Z; dec_col := Some 0%Z |}.
Proof.
  split; [reflexivity|]. split.
  - apply (proj1 (idToGridCell_negative (-1) 2)). lia.
  - apply (proj2 (idToGridCell_negative 1 (-2))); lia.
Defined.

(** ** The neighbor resolver on a graph *)

(** What one edge contributes to the neighbors of [nodeId]. *)
Definition edgeNeighbors (g : GraphProblem) (nodeId : string) (e : GraphEdge)
    : list Neighbor :=
  (if String.eqb (edge_from e) nodeId
   then [(edge_to e, Fin (edge_weight e))] else []) ++
  (if negb (isDirected g) && String.eqb (edge_to e) nodeId
   then [(edge_from e, Fin (edge_weight e))] else []).

Lemma graphVisit_edgeNeighbors g nodeId acc e :
  graphVisit g nodeId acc e = acc ++ edgeNeighbors g nodeId e.
Proof.
  unfold graphVisit, edgeNeighbors.
  destruct (String.eqb (edge_from e) nodeId);
    destruct (negb (isDirected g) && String.eqb (edge_to e) nodeId);
    simpl; by rewrite <- ?app_assoc, ?app_nil_r.
Qed.

Lemma graphFold_flat_map g nodeId es acc :
  fold_left (graphVisit g nodeId) es acc
  = acc ++ flat_map (edgeNeighbors g nodeId) es.
Proof.
  revert acc. induction es as [|e es IH]; intros acc; simpl.
  - by rewrite app_nil_r.
  - by rewrite IH, graphVisit_edgeNeighbors, app_assoc.
Qed.

(** X7. On a graph the resolver lists the neighbors edge by edge in the
    order of the edge list: for each edge that leaves the node its target,
    and, when the graph is not directed, for each edge that enters the node
    its source, each with the weight of the edge. *)
Theorem getGraphNeighbors_by_edge g nodeId :
  getNeighbors (Graph g) nodeId
  = flat_map (λ e,
      (if String.eqb (edge_from e) nodeId
       then [(edge_to e, Fin (edge_weight e))] else []) ++
      (if negb (isDirected g) && String.eqb (edge_to e) nodeId
       then [(edge_from e, Fin (edge_weight e))] else [])) (edges g).
Proof.
  simpl. unfold getGraphNeighbors. by rewrite graphFold_flat_map.
Qed.

Lemma elem_of_getGraphNeighbors g x y c :
  (y, c) ∈ getGraphNeighbors g x ↔
  ∃ e, e ∈ edges g ∧ c = Fin (edge_weight e) ∧
       ((edge_from e = x ∧ edge_to e = y) ∨
        (isDirected g = false ∧ edge_to e = x ∧ edge_from e = y)).
Proof.
  unfold getGraphNeighbors. rewrite graphFold_flat_map. simpl.
  rewrite list_elem_of_In, in_flat_map. split.
  - intros (e&He&Hin). exists e. split; [by apply list_elem_of_In|].
    unfold edgeNeighbors in Hin. apply in_app_or in Hin as [Hin|Hin].
    + destruct (String.eqb_spec (edge_from e) x) as [Hx|]; [|done].
      destruct Hin as [[= <- <-]|[]]. split; [done|]. by left.
    + destruct (isDirected g); [done|]. simpl in Hin.
      destruct (String.eqb_spec (edge_to e) x) as [Hx|]; [|done].
      destruct Hin as [[= <- <-]|[]]. split; [done|]. by right.
  - intros (e&He&->&Hcase). exists e. split; [by apply list_elem_of_In|].
    unfold edgeNeighbors. apply in_or_app.
    destruct Hcase as [[<- <-]|(Hd&<-&<-)].
    + left. rewrite String.eqb_refl. by left.
    + right. rewrite Hd, String.eqb_refl. by left.
Qed.

(** X8. In a graph that is not directed the resolver is symmetric: it
    lists [y] with cost [c] among the neighbors of [x] exactly when it
    lists [x] with cost [c] among the neighbors of [y]. *)
Theorem getGraphNeighbors_symmetric g x y c :
  isDirected g = false →
  ((y, c) ∈ getNeighbors (Graph g) x ↔ (x, c) ∈ getNeighbors (Graph g) y).
Proof.
  intros Hd. simpl. rewrite !elem_of_getGraphNeighbors.
  split; intros (e&He&Hc&Hcase); exists e; (split; [done|]);
    (split; [done|]); destruct Hcase as [[? ?]|(_&?&?)]; auto.
Qed.

Lemma getGraphNeighbors_symmetric_witness :
  (("A"%string, Fin 5) ∈ getNeighbors triangle "B" ↔
   ("B"%string, Fin 5) ∈ getNeighbors triangle "A") ∧
  ("B"%string, Fin 5) ∈ getNeighbors triangle "A".
Proof.
  split.
  - apply (getGraphNeighbors_symmetric _ "B" "A" (Fin 5)). reflexivity.
  - apply list_elem_of_here.
Defined.

(** X9. In a directed graph the resolver follows the edges forward only:
    [y] is a neighbor of [x] with cost [c] exactly when some edge leads
    from [x] to [y] with weight [c]. *)
Theorem getGraphNeighbors_directed g x y c :
  isDirected g = true →
  ((y, c) ∈ getNeighbors (Graph g) x ↔
   ∃ e, e ∈ edges g ∧ edge_from e = x ∧ edge_to e = y ∧
        c = Fin (edge_weight e)).
Proof.
  intros Hd. simpl. rewrite elem_of_getGraphNeighbors. split.
  - intros (e&He&Hc&[[? ?]|(?&_)]); [|congruence]. by exists e.
  - intros (e&He&?&?&?). exists e. split_and!; auto.
Qed.

Lemma getGraphNeighbors_directed_witness :
  getNeighbors
    (Graph {| nodes := []; edges := [edge "A" "B" 3];
              startNodeId := "A"; goalNodeId := "B"; isDirected := true |})
    "B" = [] ∧
  ("B"%string, Fin 3) ∈
    getNeighbors
      (Graph {| nodes := []; edges := [edge "A" "B" 3];
                startNodeId := "A"; goalNodeId := "B"; isDirected := true |})
      "A".
Proof.
  split; [reflexivity|].
  apply (getGraphNeighbors_directed _ "A" "B" (Fin 3)); [reflexivity|].
  exists (edge "A" "B" 3). split_and!; try reflexivity.
  apply list_elem_of_here.
Defined.

(** ** The neighbor resolver on a grid *)

Lemma elem_of_getGridNeighbors g id y k :
  (y, k) ∈ getGridNeighbors g id →
  ∃ r c d cl,
    idToGridCell id = {| dec_row := Some r; dec_col := Some c |} ∧
    d ∈ directions (allowDiagonal g) ∧
    inBounds g (r + fst d) (c + snd d) = true ∧
    findCell g (r + fst d) (c + snd d) = Some cl ∧
    cell_isObstacle cl = false ∧
    y = gridCellToId (r + fst d) (c + snd d) ∧
    k = Fin (stepFactor d * cell_weight cl).
Proof.
  intros Hy.
  destruct (idToGridCell id) as [[r|] [c|]] eqn:Hid;
    try (rewrite getGridNeighbors_undecoded in Hy;
         [by apply elem_of_nil in Hy | rewrite Hid; simpl; by auto]).
  rewrite (getGridNeighbors_decoded g id r c Hid) in Hy.
  apply list_elem_of_omap in Hy as (d&Hd&Hs).
  exists r, c, d. unfold specNeighbor in Hs.
  destruct (inBounds g _ _) eqn:Hb; [|done].
  destruct (findCell g _ _) as [cl|] eqn:Hf; [|done].
  destruct (cell_isObstacle cl) eqn:Ho; [done|].
  injection Hs as <- <-. by exists cl.
Qed.

Lemma inBounds_nonneg g r c :
  inBounds g r c = true → (0 <= r < rows g)%Z ∧ (0 <= c < cols g)%Z.
Proof. unfold inBounds. intros H. lia. Qed.

Lemma findCell_Some g r c cl :
  findCell g r c = Some cl →
  cl ∈ cells g ∧ cell_row cl = r ∧ cell_col cl = c.
Proof.
  unfold findCell. intros H. apply find_some in H as [Hin Heq].
  split; [by apply list_elem_of_In|]. lia.
Qed.



(** X11. Every id that the resolver returns on a grid names a cell of the
    grid: it decodes to the row and column of a stored cell, inside the
    bounds, that is not an obstacle. *)
Theorem getGridNeighbors_resolvable g id y k :
  (y, k) ∈ getNeighbors (Grid g) id →
  ∃ r c cl,
    idToGridCell y = {| dec_row := Some r; dec_col := Some c |} ∧
    (0 <= r < rows g)%Z ∧ (0 <= c < cols g)%Z ∧
    cl ∈ cells g ∧ cell_row cl = r ∧ cell_col cl = c ∧
    cell_isObstacle cl = false.
Proof.
  intros Hy. apply elem_of_getGridNeighbors in Hy
    as (r&c&d&cl&_&_&Hb&Hf&Ho&->&_).
  apply inBounds_nonneg in Hb as [Hr Hc].
  apply findCell_Some in Hf as (Hin&Hrow&Hcol).
  exists (r + fst d)%Z, (c + snd d)%Z, cl.
  split_and!; try done; try lia.
  apply decode_encode; lia.
Qed.

Lemma getGridNeighbors_resolvable_witness :
  ("0-1"%string, Fin 1) ∈ getNeighbors open3 "0-0" ∧
  ∃ r c cl,
    idToGridCell "0-1" = {| dec_row := Some r; dec_col := Some c |} ∧
    (0 <= r < 3)%Z ∧ (0 <= c < 3)%Z ∧
    cl ∈ cells (createEmptyGrid 3 3) ∧ cell_row cl = r ∧ cell_col cl = c ∧
    cell_isObstacle cl = false.
Proof.
  assert (("0-1"%string, Fin 1) ∈ getNeighbors open3 "0-0") as H
    by apply list_elem_of_here.
  split; [exact H|].
  apply (getGridNeighbors_resolvable (createEmptyGrid 3 3) "0-0" "0-1"
           (Fin 1) H).
Defined.

(** X12. On a grid no cell is its own neighbor, and the resolver lists no
    id twice. *)
Theorem getGridNeighbors_distinct g id :
  (∀ k, (id, k) ∉ getNeighbors (Grid g) id) ∧
  NoDup (map fst (getNeighbors (Grid g) id)).
Proof.
  split.
  - intros k Hk. apply elem_of_getGridNeighbors in Hk
      as (r&c&d&cl&Hid&Hd&Hb&_&_&Heq&_).
    apply inBounds_nonneg in Hb as [Hr Hc].
    rewrite Heq, decode_encode in Hid by lia.
    injection Hid as Hr' Hc'.
    apply directions_spec in Hd. lia.
  - simpl.
    destruct (idToGridCell id) as [[r|] [c|]] eqn:Hid;
      try (rewrite getGridNeighbors_undecoded;
           [apply NoDup_nil_2 | rewrite Hid; simpl; by auto]).
    rewrite (getGridNeighbors_decoded g id r c Hid).
    assert (NoDup (directions (allowDiagonal g))) as Hnd.
    { apply (bool_decide_unpack (NoDup (directions (allowDiagonal g)))).
      by destruct (allowDiagonal g). }
    induction Hnd as [|d ds Hd Hnd IH]; [apply NoDup_nil_2|].
    cbn [omap list_omap]. destruct (specNeighbor g r c d) as [n|] eqn:Hn;
      [|exact IH].
    cbn [map]. apply list.NoDup_cons. split; [|exact IH].
    intros Hin. apply list_elem_of_fmap in Hin as (n'&Hfst&Hn').
    apply list_elem_of_omap in Hn' as (d'&Hd'&Hs').
    unfold specNeighbor in Hn, Hs'.
    destruct (inBounds g (r + fst d) _) eqn:Hb; [|done].
    destruct (inBounds g (r + fst d') _) eqn:Hb'; [|done].
    destruct (findCell g (r + fst d) _) as [cl|]; [|done].
    destruct (findCell g (r + fst d') _) as [cl'|]; [|done].
    destruct (cell_isObstacle cl); [done|].
    destruct (cell_isObstacle cl'); [done|].
    injection Hn as <-. injection Hs' as <-. simpl in Hfst.
    apply inBounds_nonneg in Hb as [? ?].
    apply inBounds_nonneg in Hb' as [? ?].
    apply encode_inj in Hfst as [? ?]; try lia.
    apply Hd. assert (d = d') as ->; [|done].
    destruct d, d'. simpl in *. f_equal; lia.
Qed.

(** ** The five exhaustive algorithms find every reachable goal *)

(** [coreAlgorithms] and [optionalAlgorithms] of the shared schema. *)
Definition coreAlgorithms : list string :=
  ["bfs"; "dfs"; "ucs"; "greedy"; "astar"]%string.

Definition optionalAlgorithms : list string :=
  ["hillClimbing"; "beamSearch"; "idaStar"]%string.

Section Complete.
Variable problem : Problem.
Let startId := getStartId problem.
Let goalId := getGoalId problem.
Context {F : Type} (qa : QueueAlg F).
Variable ids : F → list string.
Variable X : list string → list string → gmap string string →
             gmap string num → Prop.

Hypothesis pop_none : ∀ fr, qa_pop qa fr = None → ids fr = [].
Hypothesis pop_some : ∀ fr c fr',
  qa_pop qa fr = Some (c, fr') → ids fr = c :: ids fr'.
Hypothesis order_perm : ∀ ns, qa_order qa ns ≡ₚ ns.
Hypothesis X_skip : ∀ c fr v pm g,
  X (c :: fr) v pm g → c ∈ v → X fr v pm g.
Hypothesis X_enter : ∀ c fr v pm g,
  X (c :: fr) v pm g → c ∉ v → X fr (v ++ [c]) pm g.
Hypothesis visit_spec : ∀ cur st n,
  GL problem ids st → startId ∈ l_visited st → cur ∈ l_visited st →
  XL ids X st →
  n ∈ getNeighbors problem cur →
  let st' := qa_visit qa cur st n in
  GL problem ids st' ∧ XL ids X st' ∧
  l_visited st' = l_visited st ∧ l_steps st' = l_steps st ∧
  (∀ x, x ∈ ids (l_frontier st) → x ∈ ids (l_frontier st')) ∧
  (fst n ∈ l_visited st ∨ fst n ∈ ids (l_frontier st')) ∧
  length (ids (l_frontier st')) ≤ Datatypes.S (length (ids (l_frontier st))).

(** While the loop goes on, the goal has not been visited. *)
Definition Searching (st : Live F) : Prop :=
  QInv problem ids X st ∧ goalId ∉ l_visited st.

Lemma searching_step st st' :
  Searching st → queueBody problem qa st = inl st' → Searching st'.
Proof.
  intros [HQ Hg] Hb. split.
  { exact (queue_step problem qa ids X pop_some order_perm X_skip X_enter
             visit_spec st st' HQ Hb). }
  destruct HQ as [HG Hst Hcl HX]. revert Hb. unfold queueBody.
  destruct (qa_pop qa (l_frontier st)) as [[c fr]|] eqn:Hpop; [|done].
  apply pop_some in Hpop. simpl.
  destruct (has (l_visited st) c) eqn:Hhas.
  { by intros [= <-]. }
  apply has_false in Hhas. rewrite (add_new _ _ Hhas).
  destruct (String.eqb c (getGoalId problem)) eqn:Heq.
  { destruct (reconstructPath _ _); done. }
  apply eqb_false in Heq. intros [= <-]. simpl.
  unfold GL, XL in *. rewrite Hpop in HG, HX.
  destruct (GInv_enter _ _ _ _ _ _ HG (list_elem_of_here _ _) Hhas)
    as [HG1 Hs1].
  set (st1 := withVisited (l_visited st ++ [c]) (withFrontier fr st)).
  destruct (visit_fold problem qa ids X visit_spec c
              (qa_order qa (getNeighbors problem c)) st1)
    as (_&_&Hv2&_); unfold GL, XL; simpl; try done.
  { eapply GInv_frontier; [exact HG1|done|]. intros x Hx. left. by right. }
  { apply elem_of_app. right. by apply list_elem_of_singleton. }
  { by apply X_enter. }
  { intros n Hn. by rewrite order_perm in Hn. }
  simpl in Hv2. rewrite Hv2. simpl.
  intros [Hin|Hin%list_elem_of_singleton]%elem_of_app.
  - by apply Hg.
  - apply Heq. by rewrite <- Hin.
Qed.

Lemma searching_exit st r :
  Searching st → queueBody problem qa st = inr (Returned r) →
  reach problem startId goalId → success r = true.
Proof.
  intros [[HG Hst Hcl HX] Hg]. unfold queueBody.
  destruct (qa_pop qa (l_frontier st)) as [[c fr]|] eqn:Hpop.
  - simpl. destruct (has (l_visited st) c); [done|].
    destruct (String.eqb c (getGoalId problem)); [|done].
    destruct (reconstructPath _ _); [|done]. by intros [= <-].
  - apply pop_none in Hpop. intros [= <-] Hr. exfalso. apply Hg.
    apply (Closed_reach problem); [| |exact Hr].
    + unfold Closed in *. by rewrite Hpop in Hcl.
    + unfold GL in HG.
      destruct (gi_start _ _ _ _ _ HG) as [?|(_&_&Hfr&_)]; [done|].
      rewrite Hpop in Hfr. by apply elem_of_nil in Hfr.
Qed.

Lemma searching_final fuel st r :
  Searching st → while fuel (queueBody problem qa) st = Returned r →
  reach problem startId goalId → success r = true.
Proof.
  apply (while_inv (queueBody problem qa) Searching
           (λ r, reach problem startId goalId → success r = true)).
  - apply searching_step.
  - apply searching_exit.
Qed.
End Complete.

Section CoreComplete.
Variable Math_sqrt : Q → Q.
Variable problem : Problem.
Hypothesis goal_reachable :
  reach problem (getStartId problem) (getGoalId problem).

Ltac core_hyps :=
  first
    [ exact popList_none | exact popList_some
    | exact popPq_none | exact popPq_some
    | (intros ns; simpl; first [done | symmetry; apply Permutation_rev])
    | (intros; exact I)
    | exact (CostInv_skip problem) | exact (CostInv_enter problem)
    | (intros cur st n ? ? ? ? ?; simpl; apply bfsVisit_spec; done)
    | (intros cur st n ? ? ? ? ?; simpl; apply dfsVisit_spec; done)
    | (intros cur st n ? ? ? ? ?; simpl; apply greedyVisit_spec; done)
    | (intros cur st n ? ? ? ? ?; simpl; apply ucsVisit_spec; done)
    | (intros cur st n ? ? ? ? ?; simpl; apply astarVisit_spec; done) ].

Lemma bfs_complete fuel r :
  runBFS fuel problem = Returned r → success r = true.
Proof.
  unfold runBFS. rewrite (while_ext _ _ (bfsBody_queue problem)). intros H.
  refine (searching_final problem bfsAlg (λ fr, fr) NoExtra
            _ _ _ _ _ _ fuel _ r _ H goal_reachable); try core_hyps.
  split; [apply init_list_inv; reflexivity | apply not_elem_of_nil].
Qed.

Lemma dfs_complete fuel r :
  runDFS fuel problem = Returned r → success r = true.
Proof.
  unfold runDFS. rewrite (while_ext _ _ (dfsBody_queue problem)). intros H.
  refine (searching_final problem dfsAlg (λ fr, fr) NoExtra
            _ _ _ _ _ _ fuel _ r _ H goal_reachable); try core_hyps.
  split; [apply init_list_inv; reflexivity | apply not_elem_of_nil].
Qed.

Lemma ucs_complete fuel r :
  runUCS fuel problem = Returned r → success r = true.
Proof.
  unfold runUCS. rewrite (while_ext _ _ (ucsBody_queue problem)). intros H.
  refine (searching_final problem (ucsAlg problem) PriorityQueue.toArray
            (CostInv problem) _ _ _ _ _ _ fuel _ r _ H goal_reachable);
    try core_hyps.
  split; [apply init_pq_inv; reflexivity | apply not_elem_of_nil].
Qed.

Lemma greedy_complete fuel r :
  runGreedy Math_sqrt fuel problem = Returned r → success r = true.
Proof.
  unfold runGreedy.
  rewrite (while_ext _ _ (greedyBody_queue Math_sqrt problem)). intros H.
  refine (searching_final problem (greedyAlg Math_sqrt problem)
            PriorityQueue.toArray NoExtra _ _ _ _ _ _ fuel _ r _ H
            goal_reachable); try core_hyps.
  split; [apply init_pq_inv'; reflexivity | apply not_elem_of_nil].
Qed.

Lemma astar_complete fuel r :
  runAStar Math_sqrt fuel problem = Returned r → success r = true.
Proof.
  unfold runAStar.
  rewrite (while_ext _ _ (astarBody_queue Math_sqrt problem)). intros H.
  refine (searching_final problem (astarAlg Math_sqrt problem)
            PriorityQueue.toArray (CostInv problem) _ _ _ _ _ _ fuel _ r _ H
            goal_reachable); try core_hyps.
  split; [apply init_pq_inv; reflexivity | apply not_elem_of_nil].
Qed.

Lemma core_complete fuel sel r :
  sel ∈ coreAlgorithms →
  runAlgorithm Math_sqrt fuel sel problem = Returned r → success r = true.
Proof.
  intros Hsel. unfold coreAlgorithms in Hsel.
  repeat (apply elem_of_cons in Hsel as [->|Hsel]);
    [..|by apply elem_of_nil in Hsel]; unfold runAlgorithm; simpl.
  - apply bfs_complete.
  - apply dfs_complete.
  - apply ucs_complete.
  - apply greedy_complete.
  - apply astar_complete.
Qed.

Lemma core_total fuel sel :
  sel ∈ coreAlgorithms → enough problem ≤ fuel →
  ∃ r, runAlgorithm Math_sqrt fuel sel problem = Returned r.
Proof.
  intros Hsel Hf. unfold coreAlgorithms in Hsel.
  repeat (apply elem_of_cons in Hsel as [->|Hsel]);
    [..|by apply elem_of_nil in Hsel]; unfold runAlgorithm; simpl.
  - by apply bfs_total.
  - by apply dfs_total.
  - by apply ucs_total.
  - by apply greedy_total.
  - by apply astar_total.
Qed.
End CoreComplete.


Lemma open3_reachable : reach open3 (getStartId open3) (getGoalId open3).
Proof.
  apply (walkb_reach open3 _ (getStartId open3)
           ["0-1"; "0-2"; "1-2"; "2-2"]%string); [apply rtc_refl|done|].
  apply has_true. reflexivity.
Qed.


(** ** The shape of every result *)

(** X14. Every result that one of the eight algorithms returns has a
    non-empty trace and one of two shapes: success with a path, or failure
    with neither a path nor a cost. *)
Theorem result_shape Math_sqrt fuel sel p r :
  sel ∈ algorithmTypes →
  runAlgorithm Math_sqrt fuel sel p = Returned r →
  steps r ≠ [] ∧
  ((success r = true ∧ ∃ path, finalPath r = Some path) ∨
   (success r = false ∧ finalPath r = None ∧ pathCost r = None)).
Proof.
  intros Hsel Hrun.
  destruct (algorithmTypes_split sel Hsel) as [Ht| ->].
  - destruct (run_tree _ _ _ _ _ Ht Hrun) as (v&pm&_&_&Hst&_&Hc).
    split; [by eapply steps_ok_nonempty|].
    destruct Hc as [(?&_&path&_&?)|(?&?&?&_)]; [left|right]; eauto.
  - destruct (run_ida _ _ _ _ Hrun) as (Hne&Hc). split; [done|].
    destruct Hc as [(?&_&path&?&_)|(?&?&?)]; [left|right]; eauto.
Qed.

Lemma result_shape_witness :
  ∃ r, runAlgorithm isqrt 20 "hillClimbing" walled3 = Returned r ∧
       steps r ≠ [] ∧
       ((success r = true ∧ ∃ path, finalPath r = Some path) ∨
        (success r = false ∧ finalPath r = None ∧ pathCost r = None)).
Proof.
  assert (summary (runAlgorithm isqrt 20 "hillClimbing" walled3)
          = Some (false, None, None, 3%nat, [1; 2; 3; 3]%nat)) as H
    by (vm_compute; reflexivity).
  name_result r E H. exists r. split; [done|].
  apply (result_shape isqrt 20 "hillClimbing" walled3 r);
    [apply has_true; reflexivity | exact E].
Defined.

(** X15. In a result of one of the seven algorithms other than IDA*, the
    visited list of the last recorded step has [nodesVisited] elements, names
    no node twice, contains the start, and names only nodes that can be
    reached from the start through the resolver. *)
Theorem last_step_visited Math_sqrt fuel sel p r :
  sel ∈ treeAlgorithms →
  runAlgorithm Math_sqrt fuel sel p = Returned r →
  ∃ s, list.last (steps r) = Some s ∧
       length (visited s) = nodesVisited r ∧
       NoDup (visited s) ∧
       getStartId p ∈ visited s ∧
       ∀ x, x ∈ visited s → reach p (getStartId p) x.
Proof.
  intros Hsel Hrun.
  destruct (run_tree _ _ _ _ _ Hsel Hrun)
    as (v&pm&(fr&HG)&Hs&(_&s&Hl&Hv)&Hn&_).
  exists s. subst v. split_and!; try done.
  - by eapply gi_nodup.
  - intros x Hx. apply (gi_reach _ _ _ _ _ HG). by left.
Qed.

Lemma last_step_visited_witness :
  ∃ r, runAlgorithm isqrt 20 "beamSearch" walled3 = Returned r ∧
  ∃ s, list.last (steps r) = Some s ∧
       length (visited s) = nodesVisited r ∧
       NoDup (visited s) ∧
       getStartId walled3 ∈ visited s ∧
       ∀ x, x ∈ visited s → reach walled3 (getStartId walled3) x.
Proof.
  assert (summary (runAlgorithm isqrt 20 "beamSearch" walled3)
          = Some (false, None, None, 5%nat, [1; 3; 5; 5]%nat)) as H
    by (vm_compute; reflexivity).
  name_result r E H. exists r. split; [done|].
  apply (last_step_visited isqrt 20 "beamSearch" walled3 r);
    [apply has_true; reflexivity | exact E].
Defined.

(** ** The labels of a result *)

(** The result names the algorithm and the problem, and its memory figure
    is [Math.round(nodesVisited * perNode / 1024)]. *)
Definition Labelled (alg : string) (p : Problem) (perNode : Z)
    (r : SearchResult) : Prop :=
  algorithm r = alg ∧ problem r = p ∧
  memoryUsageKb r = roundDiv (Z.of_nat (nodesVisited r) * perNode) 1024.

Lemma while_exit {S R : Type} (body : S → S + outcome R) (Q : R → Prop) :
  (∀ s r, body s = inr (Returned r) → Q r) →
  ∀ fuel s r, while fuel body s = Returned r → Q r.
Proof.
  intros H fuel s r.
  apply (while_inv body (λ _, True) Q); [done| |done].
  intros s' r' _. apply H.
Qed.

Lemma queue_labelled p {F} (qa : QueueAlg F) st r :
  queueBody p qa st = inr (Returned r) → Labelled (qa_name qa) p 100 r.
Proof.
  unfold queueBody.
  destruct (qa_pop qa (l_frontier st)) as [[c fr]|]; [|by intros [= <-]].
  simpl. destruct (has (l_visited st) c); [done|].
  destruct (String.eqb c (getGoalId p)); [|done].
  destruct (reconstructPath _ _); [|done]. by intros [= <-].
Qed.

Lemma hill_labelled Math_sqrt p st r :
  hillBody Math_sqrt p (getGoalId p) st = inr (Returned r) →
  Labelled "hillClimbing" p 100 r.
Proof.
  unfold hillBody.
  destruct (String.eqb (l_frontier st) (getGoalId p)).
  { destruct (reconstructPath _ _); [|done]. by intros [= <-]. }
  destruct (fold_left _ _ _) as [[st' h] best].
  destruct (chosen best); [done|]. by intros [= <-].
Qed.

Lemma beam_labelled Math_sqrt p w st r :
  beamBody Math_sqrt p w (getStartId p) (getGoalId p) st = inr (Returned r) →
  Labelled "beamSearch" p 100 r.
Proof.
  unfold beamBody. destruct (l_frontier st) as [|b beam].
  { by intros [= <-]. }
  destruct (beamScan _ _ _ _ _) as [st'|[st' [|c cs]]].
  - destruct (reconstructPath _ _); [|done]. by intros [= <-].
  - by intros [= <-].
  - done.
Qed.

Lemma ida_labelled Math_sqrt depth p o r :
  idaBody Math_sqrt depth p (getStartId p) (getGoalId p) o
    = inr (Returned r) →
  Labelled "idaStar" p 50 r.
Proof.
  unfold idaBody. destruct (search _ _ _ _ _ _ _ _) as [[res st]| |];
    [|done..].
  destruct (found res); [by intros [= <-]|].
  destruct (t res); [done|]. by intros [= <-].
Qed.

(** X16. The result of a run names the algorithm that was selected and
    the problem that was given, and its memory figure is the count of
    visited nodes times 100, or times 50 for IDA*, divided by 1024 and rounded to
    the nearest integer. *)
Theorem result_labels Math_sqrt fuel sel p r :
  runAlgorithm Math_sqrt fuel sel p = Returned r →
  algorithm r = sel ∧ problem r = p ∧
  memoryUsageKb r
    = roundDiv (Z.of_nat (nodesVisited r) *
                (if String.eqb sel "idaStar" then 50 else 100)) 1024.
Proof.
  unfold runAlgorithm.
  repeat match goal with
  | |- context [if String.eqb sel ?s then _ else _] =>
      destruct (String.eqb_spec sel s) as [->|_]
  end; [..|done]; simpl.
  - unfold runBFS. rewrite (while_ext _ _ (bfsBody_queue p)).
    apply (while_exit _ (Labelled "bfs" p 100)). intros s r'.
    apply (queue_labelled p bfsAlg).
  - unfold runDFS. rewrite (while_ext _ _ (dfsBody_queue p)).
    apply (while_exit _ (Labelled "dfs" p 100)). intros s r'.
    apply (queue_labelled p dfsAlg).
  - unfold runUCS. rewrite (while_ext _ _ (ucsBody_queue p)).
    apply (while_exit _ (Labelled "ucs" p 100)). intros s r'.
    apply (queue_labelled p (ucsAlg p)).
  - unfold runGreedy. rewrite (while_ext _ _ (greedyBody_queue Math_sqrt p)).
    apply (while_exit _ (Labelled "greedy" p 100)). intros s r'.
    apply (queue_labelled p (greedyAlg Math_sqrt p)).
  - unfold runAStar. rewrite (while_ext _ _ (astarBody_queue Math_sqrt p)).
    apply (while_exit _ (Labelled "astar" p 100)). intros s r'.
    apply (queue_labelled p (astarAlg Math_sqrt p)).
  - unfold runHillClimbing.
    apply (while_exit _ (Labelled "hillClimbing" p 100)). intros s r'.
    apply hill_labelled.
  - unfold runBeamSearch.
    apply (while_exit _ (Labelled "beamSearch" p 100)). intros s r'.
    apply beam_labelled.
  - unfold runIDAStar.
    apply (while_exit _ (Labelled "idaStar" p 50)). intros s r'.
    apply ida_labelled.
Qed.

Lemma result_labels_witness :
  ∃ r, runAlgorithm isqrt 20 "idaStar" walled3 = Returned r ∧
       nodesVisited r = 12%nat ∧
       algorithm r = "idaStar"%string ∧ problem r = walled3 ∧
       memoryUsageKb r = 1%Z.
Proof.
  assert (summary (runAlgorithm isqrt 20 "idaStar" walled3)
          = Some (false, None, None, 12%nat,
                  [0; 1; 2; 3; 4; 5; 5; 5; 5; 6;
                   1; 2; 3; 4; 5; 6; 6; 6; 6; 6; 6; 0]%nat)) as H
    by (vm_compute; reflexivity).
  name_result r E H. exists r. split; [done|]. split; [done|].
  destruct (result_labels isqrt 20 "idaStar" walled3 r E) as (Ha&Hp&Hm).
  split_and!; [done..|].
  match goal with Hn : nodesVisited r = _ |- _ => rewrite Hm, Hn end.
  reflexivity.
Defined.

(** ** Path reconstruction on an arbitrary parent map *)

(** The walk of [reconstructPath] from [g]: [walk pm g k l] says that it
    ends after [k] parent steps and has then put the nodes [l], in this
    order, in front of the path. It ends at a node without parent entry,
    which is put in front too, or at an id that is falsy. *)
Inductive walk (pm : gmap string string) : string → nat → list string → Prop :=
  | walk_falsy g : truthy g = false → walk pm g 0 []
  | walk_root g : truthy g = true → pm !! g = None → walk pm g 0 [g]
  | walk_step g p k l :
      truthy g = true → pm !! g = Some p → walk pm p k l →
      walk pm g (S k) (l ++ [g]).

Lemma walk_fun pm g k l k' l' :
  walk pm g k l → walk pm g k' l' → k = k' ∧ l = l'.
Proof.
  intros H. revert k' l'.
  induction H as [g Hg|g Hg Hp|g p k l Hg Hp Hw IH]; intros k' l' H';
    inversion H' as [| |g' p' k0 l0 Hg' Hp' Hw']; subst;
    try congruence; try done.
  assert (p = p') as -> by congruence.
  destruct (IH _ _ Hw') as [-> ->]. done.
Qed.

Lemma loop_walk pm n :
  ∀ g acc r, reconstructLoop n pm g acc = Some r →
             ∃ k l, k < n ∧ walk pm g k l ∧ r = l ++ acc.
Proof.
  induction n as [|n IH]; intros g acc r; simpl; [done|].
  destruct (truthy g) eqn:Hg.
  - destruct (pm !! g) as [p|] eqn:Hp.
    + intros H. destruct (IH _ _ _ H) as (k&l&Hk&Hw&->).
      exists (S k), (l ++ [g]). split; [lia|]. split; [by econstructor|].
      by rewrite <- app_assoc.
    + intros [= <-]. exists 0, [g]. split; [lia|]. split; [|done].
      by apply walk_root.
  - intros [= <-]. exists 0, []. split; [lia|]. split; [|done].
    by apply walk_falsy.
Qed.

Lemma walk_loop pm g k l :
  walk pm g k l →
  ∀ n acc, k < n → reconstructLoop n pm g acc = Some (l ++ acc).
Proof.
  induction 1 as [g Hg|g Hg Hp|g p k l Hg Hp Hw IH]; intros n acc Hn;
    (destruct n as [|n]; [lia|]); simpl; rewrite Hg.
  - done.
  - by rewrite Hp.
  - rewrite Hp, IH by lia. by rewrite <- app_assoc.
Qed.

(** Every node of the walk has a walk of its own, which is no longer. *)
Lemma walk_elem pm g k l x :
  walk pm g k l → x ∈ l → ∃ j lx, j ≤ k ∧ walk pm x j lx.
Proof.
  induction 1 as [g Hg|g Hg Hp|g p k l Hg Hp Hw IH]; intros Hx.
  - by apply elem_of_nil in Hx.
  - apply list_elem_of_singleton in Hx as ->. exists 0, [g].
    split; [lia|]. by apply walk_root.
  - apply elem_of_app in Hx as [Hx|Hx%list_elem_of_singleton].
    + destruct (IH Hx) as (j&lx&?&?). exists j, lx. split; [lia|done].
    + subst x. exists (S k), (l ++ [g]). split; [lia|]. by econstructor.
Qed.

(** A walk does not need the entries of nodes whose own walk is longer. *)
Lemma walk_delete pm g p k l :
  walk pm p k l →
  (∀ x j lx, walk pm x j lx → j ≤ k → x ≠ g) →
  walk (delete g pm) p k l.
Proof.
  induction 1 as [p Hp|p Hp Hn|p q k l Hp Hq Hw IH]; intros Hg.
  - by apply walk_falsy.
  - apply walk_root; [done|]. by rewrite lookup_delete_None; right.
  - apply walk_step with q; [done| |].
    + rewrite lookup_delete_ne; [done|]. intros <-.
      eapply (Hg g (S k)); [by econstructor|lia|done].
    + apply IH. intros x j lx Hx Hj. eapply Hg; [exact Hx|lia].
Qed.

(** The walk takes at most as many parent steps as the map has entries. *)
Lemma walk_bound k : ∀ pm g l, walk pm g k l → k ≤ size pm.
Proof.
  induction k as [|k IH]; intros pm g l Hw; [lia|].
  inversion Hw as [| |g' p k' l' Hg Hp Hw']; subst.
  assert (walk (delete g pm) p k l') as Hd.
  { apply walk_delete; [done|]. intros x j lx Hx Hj ->.
    destruct (walk_fun _ _ _ _ _ _ Hw Hx) as [? _]. lia. }
  apply IH in Hd. rewrite map_size_delete, Hp in Hd.
  assert (size pm ≠ 0); [|lia].
  apply map_size_non_empty_iff. intros ->. by rewrite lookup_empty in Hp.
Qed.

Lemma walk_NoDup pm g k l : walk pm g k l → NoDup l.
Proof.
  induction 1 as [g Hg|g Hg Hp|g p k l Hg Hp Hw IH].
  - apply NoDup_nil_2.
  - apply NoDup_singleton.
  - apply list.NoDup_app. split_and!; [done| |apply NoDup_singleton].
    intros x Hx ->%list_elem_of_singleton.
    destruct (walk_elem _ _ _ _ _ Hw Hx) as (j&lx&Hj&Hwx).
    assert (walk pm g (S k) (l ++ [g])) as Hwg by by econstructor.
    destruct (walk_fun _ _ _ _ _ _ Hwg Hwx) as [? _]. lia.
Qed.

Lemma walk_last pm g k l :
  walk pm g k l → truthy g = true → list.last l = Some g.
Proof.
  destruct 1; intros Hg; [congruence|done|]. by rewrite last_snoc.
Qed.

Lemma walk_links pm g k l :
  walk pm g k l →
  ∀ i a b, l !! i = Some a → l !! S i = Some b → pm !! b = Some a.
Proof.
  induction 1 as [g Hg|g Hg Hp|g p k l Hg Hp Hw IH]; intros i a b Ha Hb.
  - by rewrite lookup_nil in Ha.
  - destruct i; simpl in Hb; by rewrite ?lookup_nil in Hb.
  - destruct (decide (S i < length l)) as [Hlt|Hge].
    + rewrite lookup_app_l in Ha by lia. rewrite lookup_app_l in Hb by lia.
      by eapply IH.
    + pose proof (lookup_lt_Some _ _ _ Hb) as Hlen.
      rewrite length_app in Hlen. simpl in Hlen.
      assert (S i = length l) as Hi by lia.
      rewrite Hi in Hb. rewrite list_lookup_middle in Hb by done.
      injection Hb as <-. rewrite lookup_app_l in Ha by lia.
      assert (list.last l = Some a) as Hl.
      { rewrite last_lookup. rewrite <- Hi. simpl. done. }
      destruct (truthy p) eqn:Htp.
      * rewrite (walk_last _ _ _ _ Hw Htp) in Hl. by injection Hl as <-.
      * inversion Hw; subst; try congruence. by rewrite lookup_nil in Ha.
Qed.

Lemma reconstructPath_walk pm g l :
  reconstructPath pm g = Some l ↔ ∃ k, walk pm g k l.
Proof.
  unfold reconstructPath. split.
  - intros H. destruct (loop_walk _ _ _ _ _ H) as (k&l'&_&Hw&->).
    exists k. by rewrite app_nil_r.
  - intros [k Hw]. pose proof (walk_bound _ _ _ _ Hw).
    rewrite (walk_loop _ _ _ _ Hw) by lia. by rewrite app_nil_r.
Qed.






(** ** The empty grid of the shared schema *)

(** The cell that [createEmptyGrid] makes for row [r] and column [c]. *)
Definition emptyCell (nrows ncols r c : Z) : GridCell :=
  {| cell_row := r; cell_col := c; cell_isObstacle := false;
     cell_isStart := (r =? 0)%Z && (c =? 0)%Z;
     cell_isGoal := (r =? nrows - 1)%Z && (c =? ncols - 1)%Z;
     cell_weight := 1 |}.

Lemma elem_of_emptyGrid n m cl :
  cl ∈ cells (createEmptyGrid n m) ↔
  ∃ r c, (0 <= r < n)%Z ∧ (0 <= c < m)%Z ∧ cl = emptyCell n m r c.
Proof.
  unfold createEmptyGrid. cbn [cells].
  rewrite list_elem_of_In, in_flat_map. split.
  - intros (r&Hr&Hcl). apply list_elem_of_In in Hr, Hcl.
    apply list_elem_of_fmap in Hcl as (c&->&Hc).
    apply elem_of_seqZ in Hr, Hc. exists r, c. split_and!; [lia..|done].
  - intros (r&c&Hr&Hc&->). exists r. split.
    + apply list_elem_of_In, elem_of_seqZ. lia.
    + apply list_elem_of_In, list_elem_of_fmap. exists c. split; [done|].
      apply elem_of_seqZ. lia.
Qed.

Lemma findCell_emptyGrid n m r c :
  (0 <= r < n)%Z → (0 <= c < m)%Z →
  findCell (createEmptyGrid n m) r c = Some (emptyCell n m r c).
Proof.
  intros Hr Hc.
  apply (findCell_unique (createEmptyGrid n m) (emptyCell n m r c)).
  - intros c1 c2 (r1&k1&_&_&->)%elem_of_emptyGrid
      (r2&k2&_&_&->)%elem_of_emptyGrid. simpl. by intros -> ->.
  - apply elem_of_emptyGrid. by exists r, c.
Qed.

Lemma length_emptyGrid n m :
  length (cells (createEmptyGrid n m)) = (Z.to_nat n * Z.to_nat m)%nat.
Proof.
  unfold createEmptyGrid. cbn [cells]. rewrite <- (length_seqZ 0 n).
  induction (seqZ 0 n) as [|x l IH]; [done|]. simpl.
  by rewrite length_app, length_map, length_seqZ, IH.
Qed.

(** X20. [createEmptyGrid(rows, cols)] stores exactly one cell for each
    row and column inside the bounds, [rows * cols] cells in all; none is
    an obstacle, each has weight 1, and the resolver's lookup of a row and
    column inside the bounds finds that cell. The start flag is on the cell
    (0, 0) only and the goal flag on the cell (rows - 1, cols - 1) only. *)
Theorem createEmptyGrid_cells n m :
  length (cells (createEmptyGrid n m)) = (Z.to_nat n * Z.to_nat m)%nat ∧
  (∀ cl, cl ∈ cells (createEmptyGrid n m) →
     cell_isObstacle cl = false ∧ cell_weight cl = 1%Q ∧
     (0 <= cell_row cl < n)%Z ∧ (0 <= cell_col cl < m)%Z ∧
     (cell_isStart cl = true ↔ cell_row cl = 0%Z ∧ cell_col cl = 0%Z) ∧
     (cell_isGoal cl = true ↔
      cell_row cl = (n - 1)%Z ∧ cell_col cl = (m - 1)%Z)) ∧
  (∀ c1 c2, c1 ∈ cells (createEmptyGrid n m) →
     c2 ∈ cells (createEmptyGrid n m) →
     cell_row c1 = cell_row c2 → cell_col c1 = cell_col c2 → c1 = c2) ∧
  (∀ r c, (0 <= r < n)%Z → (0 <= c < m)%Z →
     ∃ cl, findCell (createEmptyGrid n m) r c = Some cl ∧
           cell_row cl = r ∧ cell_col cl = c).
Proof.
  split_and!.
  - apply length_emptyGrid.
  - intros cl (r&c&Hr&Hc&->)%elem_of_emptyGrid. simpl.
    split_and!; try done; lia.
  - intros c1 c2 (r1&k1&_&_&->)%elem_of_emptyGrid
      (r2&k2&_&_&->)%elem_of_emptyGrid. simpl. by intros -> ->.
  - intros r c Hr Hc. exists (emptyCell n m r c).
    split; [by apply findCell_emptyGrid|done].
Qed.

Lemma createEmptyGrid_cells_witness :
  length (cells (createEmptyGrid 15 20)) = 300%nat ∧
  ∃ cl, findCell (createEmptyGrid 15 20) 14 19 = Some cl ∧
        cell_row cl = 14%Z ∧ cell_col cl = 19%Z.
Proof.
  destruct (createEmptyGrid_cells 15 20) as (Hlen&_&_&Hfind).
  split; [exact Hlen|]. apply Hfind; lia.
Defined.

(** The neighbors of a cell of the empty grid. *)
Lemma specNeighbor_emptyGrid n m r c d :
  specNeighbor (createEmptyGrid n m) r c d
  = if inBounds (createEmptyGrid n m) (r + fst d) (c + snd d)
    then Some (gridCellToId (r + fst d) (c + snd d),
               Fin (stepFactor d * 1))
    else None.
Proof.
  unfold specNeighbor.
  destruct (inBounds _ _ _) eqn:Hb; [|done].
  apply inBounds_nonneg in Hb as [Hr Hc]. simpl in Hr, Hc.
  by rewrite findCell_emptyGrid.
Qed.

Lemma neighbor_emptyGrid n m r c d :
  (0 <= r)%Z → (0 <= c)%Z →
  d ∈ directions false →
  (0 <= r + fst d < n)%Z → (0 <= c + snd d < m)%Z →
  nbr (Grid (createEmptyGrid n m)) (gridCellToId r c)
    (gridCellToId (r + fst d) (c + snd d)).
Proof.
  intros Hr Hc Hd Hr' Hc'. exists (Fin (stepFactor d * 1)). simpl.
  rewrite (getGridNeighbors_decoded _ _ r c) by (by apply decode_encode).
  apply list_elem_of_omap. exists d. split; [done|].
  rewrite specNeighbor_emptyGrid.
  assert (inBounds (createEmptyGrid n m) (r + fst d) (c + snd d) = true)
    as ->; [|done].
  unfold inBounds. simpl. lia.
Qed.

Lemma reach_emptyGrid n m r c :
  (0 <= r < n)%Z → (0 <= c < m)%Z →
  reach (Grid (createEmptyGrid n m)) (gridCellToId 0 0) (gridCellToId r c).
Proof.
  intros Hr Hc.
  assert (∀ k : nat, (Z.of_nat k < n)%Z →
            reach (Grid (createEmptyGrid n m)) (gridCellToId 0 0)
              (gridCellToId (Z.of_nat k) 0)) as Hdown.
  { induction k as [|k IH]; intros Hk; [apply rtc_refl|].
    eapply rtc_r; [apply IH; lia|].
    replace (Z.of_nat (S k)) with (Z.of_nat k + fst (1, 0)%Z)%Z
      by (simpl; lia).
    replace 0%Z with (0 + snd (1, 0)%Z)%Z at 2 by (simpl; lia).
    apply neighbor_emptyGrid; simpl; try lia.
    repeat first [apply list_elem_of_here | apply list_elem_of_further]. }
  assert (∀ k : nat, (Z.of_nat k < m)%Z →
            reach (Grid (createEmptyGrid n m)) (gridCellToId 0 0)
              (gridCellToId r (Z.of_nat k))) as Hright.
  { induction k as [|k IH]; intros Hk.
    - replace r with (Z.of_nat (Z.to_nat r)) by lia. apply Hdown. lia.
    - eapply rtc_r; [apply IH; lia|].
      replace (Z.of_nat (S k)) with (Z.of_nat k + snd (0, 1)%Z)%Z
        by (simpl; lia).
      replace r with (r + fst (0, 1)%Z)%Z at 2 by (simpl; lia).
      apply neighbor_emptyGrid; simpl; try lia.
      repeat first [apply list_elem_of_here | apply list_elem_of_further]. }
  replace c with (Z.of_nat (Z.to_nat c)) by lia. apply Hright. lia.
Qed.

(** X21. In the empty grid every cell can be reached from the start, and
    so each of BFS, DFS, UCS, Greedy and A*, run on
    [createEmptyGrid(rows, cols)] with at least one row and one column,
    returns a result with [success = true]. *)
Theorem createEmptyGrid_solved Math_sqrt sel n m :
  (1 <= n)%Z → (1 <= m)%Z → sel ∈ coreAlgorithms →
  (∀ r c, (0 <= r < n)%Z → (0 <= c < m)%Z →
     reach (Grid (createEmptyGrid n m))
       (getStartId (Grid (createEmptyGrid n m))) (gridCellToId r c)) ∧
  ∃ fuel res,
    runAlgorithm Math_sqrt fuel sel (Grid (createEmptyGrid n m))
      = Returned res ∧
    success res = true.
Proof.
  intros Hn Hm Hsel. split.
  - intros r c Hr Hc. by apply reach_emptyGrid.
  - assert (reach (Grid (createEmptyGrid n m))
              (getStartId (Grid (createEmptyGrid n m)))
              (getGoalId (Grid (createEmptyGrid n m)))) as Hreach.
    { apply (reach_emptyGrid n m (n - 1) (m - 1)); lia. }
    destruct (core_total Math_sqrt (Grid (createEmptyGrid n m))
                (enough (Grid (createEmptyGrid n m))) sel Hsel (le_n _))
      as [res Hrun].
    exists (enough (Grid (createEmptyGrid n m))), res. split; [done|].
    by eapply core_complete.
Qed.

Lemma createEmptyGrid_solved_witness :
  ∃ fuel res,
    runAlgorithm isqrt fuel "astar" (Grid (createEmptyGrid 15 20))
      = Returned res ∧
    success res = true.
Proof.
  apply (createEmptyGrid_solved isqrt "astar" 15 20); [lia | lia |].
  apply has_true. reflexivity.
Defined.

(** ** Breadth-first search returns a path with the fewest moves *)

Section BfsLevels.
Variable problem : Problem.
Let startId := getStartId problem.
Let goalId := getGoalId problem.

(** [x] can be reached from the start in [n] moves. *)
Definition moves (n : nat) (x : string) : Prop :=
  nsteps (nbr problem) n startId x.

Lemma chain_fun pm x l l' :
  chain startId pm x l → chain startId pm x l' → l = l'.
Proof.
  intros H. revert l'.
  induction H as [Hs|x p l Hp Hc IH]; intros l' H';
    inversion H' as [Hs'|x' p' l0 Hp' Hc']; subst; try congruence.
  assert (p = p') as -> by congruence. by rewrite (IH _ Hc').
Qed.

(** A new entry for a node without entry leaves the chains as they are. *)
Lemma chain_insert pm x c y l :
  chain startId pm y l → pm !! x = None → x ≠ startId →
  chain startId (<[x := c]> pm) y l.
Proof.
  intros H Hx Hs. induction H as [Hr|y p l Hp Hc IH].
  - apply chain_root. by rewrite lookup_insert_ne.
  - apply chain_step with p; [|done].
    rewrite lookup_insert_ne; [done|]. congruence.
Qed.

(** The levels of the search tree between two iterations: every node of
    the tree has a chain to the start, no way from the start to it is
    shorter than its chain, and the queue holds the nodes in the order of
    the lengths of their chains, which differ by at most one. *)
Record Level (fr v : list string) (pm : gmap string string) : Prop := {
  lv_chain : ∀ x, x ∈ v ∨ x ∈ fr → ∃ l, chain startId pm x l;
  lv_keys : ∀ x, is_Some (pm !! x) → x ∈ v ∨ x ∈ fr;
  lv_short : ∀ x l n, x ∈ v ∨ x ∈ fr → chain startId pm x l → moves n x →
             length l ≤ S n;
  lv_sorted : ∀ i j x y lx ly,
    i ≤ j → fr !! i = Some x → fr !! j = Some y →
    chain startId pm x lx → chain startId pm y ly → length lx ≤ length ly;
  lv_near : ∀ x y lx ly,
    head fr = Some x → y ∈ fr →
    chain startId pm x lx → chain startId pm y ly →
    length ly ≤ S (length lx)
}.

(** The levels while the neighbors of [c], whose chain is [lc], are
    looked at. *)
Record Scan (c : string) (lc : list string) (fr v : list string)
    (pm : gmap string string) : Prop := {
  sc_current : chain startId pm c lc;
  sc_start : startId ∈ v;
  sc_chain : ∀ x, x ∈ v ∨ x ∈ fr → ∃ l, chain startId pm x l;
  sc_keys : ∀ x, is_Some (pm !! x) → x ∈ v ∨ x ∈ fr;
  sc_short : ∀ x l n, x ∈ v ∨ x ∈ fr → chain startId pm x l → moves n x →
             length l ≤ S n;
  sc_sorted : ∀ i j x y lx ly,
    i ≤ j → fr !! i = Some x → fr !! j = Some y →
    chain startId pm x lx → chain startId pm y ly → length lx ≤ length ly;
  sc_band : ∀ y ly, y ∈ fr → chain startId pm y ly →
            length lc ≤ length ly ≤ S (length lc);
  sc_closed : ∀ u y, u ∈ v → u ≠ c → nbr problem u y → y ∈ v ∨ y ∈ fr;
  sc_in : c ∈ v
}.

(** A node outside the tree is at least as far as the current node is
    deep. *)
Lemma outside_far c lc fr v pm :
  Scan c lc fr v pm →
  ∀ n y, moves n y → y ∉ v → y ∉ fr → length lc ≤ n.
Proof.
  intros HS. induction n as [|n IH]; intros y Hy Hv Hfr.
  { inversion Hy; subst. destruct Hv. apply (sc_start _ _ _ _ _ HS). }
  apply nsteps_inv_r in Hy as (w&Hw&Hwy).
  destruct (decide (w ∈ v)) as [Hwv|Hwv].
  - destruct (decide (w = c)) as [->|Hwc].
    + apply (sc_short _ _ _ _ _ HS c lc n); [by left|apply HS|done].
    + destruct (sc_closed _ _ _ _ _ HS w y Hwv Hwc Hwy); done.
  - destruct (decide (w ∈ fr)) as [Hwf|Hwf].
    + destruct (sc_chain _ _ _ _ _ HS w) as [lw Hlw]; [by right|].
      pose proof (sc_band _ _ _ _ _ HS w lw Hwf Hlw).
      pose proof (sc_short _ _ _ _ _ HS w lw n (or_intror Hwf) Hlw Hw). lia.
    + pose proof (IH w Hw Hwv Hwf). lia.
Qed.

Definition ScanL (c : string) (lc : list string) (st : Live (list string))
    : Prop :=
  Scan c lc (l_frontier st) (l_visited st) (l_parent st).

Lemma scan_visit c lc st n :
  ScanL c lc st → ScanL c lc (bfsVisit c st n).
Proof.
  intros HS. unfold bfsVisit.
  destruct (has (l_visited st) (fst n)) eqn:Hv; [done|].
  destruct (has (l_frontier st) (fst n)) eqn:Hf; [done|].
  apply has_false in Hv, Hf. simpl. destruct n as [x k]. simpl in *.
  unfold ScanL in *. simpl.
  set (fr := l_frontier st) in *. set (v := l_visited st) in *.
  set (pm := l_parent st) in *.
  assert (pm !! x = None) as Hx.
  { destruct (pm !! x) eqn:E; [|done].
    destruct (sc_keys _ _ _ _ _ HS x); [by eexists|done..]. }
  assert (x ≠ startId) as Hxs.
  { intros ->. apply Hv, (sc_start _ _ _ _ _ HS). }
  assert (∀ y l, chain startId pm y l → chain startId (<[x := c]> pm) y l)
    as Hlift.
  { intros y l Hl. by apply chain_insert. }
  assert (chain startId (<[x := c]> pm) x (lc ++ [x])) as Hcx.
  { apply chain_step with c; [by rewrite lookup_insert_eq|].
    apply Hlift, HS. }
  assert (∀ y l, y ∈ v ∨ y ∈ fr → chain startId (<[x := c]> pm) y l →
                 chain startId pm y l) as Hback.
  { intros y l Hy Hl. destruct (sc_chain _ _ _ _ _ HS y Hy) as [l0 Hl0].
    by rewrite (chain_fun _ _ _ _ Hl (Hlift _ _ Hl0)). }
  split.
  - apply Hlift, HS.
  - apply HS.
  - intros y [Hy|[Hy| ->%list_elem_of_singleton]%elem_of_app].
    + destruct (sc_chain _ _ _ _ _ HS y) as [l Hl]; [by left|].
      exists l. by apply Hlift.
    + destruct (sc_chain _ _ _ _ _ HS y) as [l Hl]; [by right|].
      exists l. by apply Hlift.
    + by eexists.
  - intros y [z Hz]. destruct (decide (y = x)) as [->|Hne].
    + right. apply elem_of_app. right. by apply list_elem_of_singleton.
    + rewrite lookup_insert_ne in Hz by done.
      destruct (sc_keys _ _ _ _ _ HS y) as [?|?]; [by eexists|by left|].
      right. apply elem_of_app. by left.
  - intros y l m Hy Hl Hm.
    assert (y ∈ v ∨ y ∈ fr ∨ y = x) as [Hy'|[Hy'| ->]].
    { destruct Hy as [?|[?| ->%list_elem_of_singleton]%elem_of_app]; auto. }
    + eapply (sc_short _ _ _ _ _ HS); [by left| |done]. apply Hback; auto.
    + eapply (sc_short _ _ _ _ _ HS); [by right| |done]. apply Hback; auto.
    + rewrite (chain_fun _ _ _ _ Hl Hcx), length_app. simpl.
      pose proof (outside_far _ _ _ _ _ HS m x Hm Hv Hf). lia.
  - intros i j a b la lb Hij Ha Hb Hla Hlb.
    destruct (decide (j < length fr)) as [Hj|Hj].
    + rewrite lookup_app_l in Ha by lia. rewrite lookup_app_l in Hb by lia.
      eapply (sc_sorted _ _ _ _ _ HS i j a b); eauto;
        apply Hback; auto; right; by eapply list_elem_of_lookup_2.
    + pose proof (lookup_lt_Some _ _ _ Hb) as Hlen.
      rewrite length_app in Hlen. simpl in Hlen.
      assert (j = length fr) as -> by lia.
      rewrite list_lookup_middle in Hb by done. injection Hb as <-.
      rewrite (chain_fun _ _ _ _ Hlb Hcx), length_app. simpl.
      destruct (decide (i < length fr)) as [Hi|Hi].
      * rewrite lookup_app_l in Ha by lia.
        assert (a ∈ fr) as Hafr by by eapply list_elem_of_lookup_2.
        pose proof (sc_band _ _ _ _ _ HS a la Hafr
                      (Hback _ _ (or_intror Hafr) Hla)). lia.
      * assert (i = length fr) as -> by lia.
        rewrite list_lookup_middle in Ha by done. injection Ha as <-.
        rewrite (chain_fun _ _ _ _ Hla Hcx), length_app. simpl. lia.
  - intros y ly [Hy| ->%list_elem_of_singleton]%elem_of_app Hly.
    + apply (sc_band _ _ _ _ _ HS y ly Hy). apply Hback; auto.
    + rewrite (chain_fun _ _ _ _ Hly Hcx), length_app. simpl. lia.
  - intros u y Hu Huc Huy.
    destruct (sc_closed _ _ _ _ _ HS u y Hu Huc Huy); [by left|].
    right. apply elem_of_app. by left.
  - apply HS.
Qed.

Lemma scan_fold c lc ns :
  ∀ st, ScanL c lc st → ScanL c lc (fold_left (bfsVisit c) ns st).
Proof.
  induction ns as [|n ns IH]; intros st HS; [done|].
  simpl. by apply IH, scan_visit.
Qed.

(** From the scan back to the levels between iterations. *)
Lemma scan_level c lc fr v pm : Scan c lc fr v pm → Level fr v pm.
Proof.
  intros HS. split; try apply HS.
  intros x y lx ly Hx Hy Hlx Hly.
  assert (x ∈ fr) as Hxfr.
  { destruct fr; [done|]. injection Hx as ->. apply list_elem_of_here. }
  pose proof (sc_band _ _ _ _ _ HS x lx Hxfr Hlx).
  pose proof (sc_band _ _ _ _ _ HS y ly Hy Hly). lia.
Qed.

(** The invariant of the loop of [runBFS]. *)
Definition BfsInv (st : Live (list string)) : Prop :=
  QInv problem (λ fr : list string, fr) NoExtra st ∧
  Level (l_frontier st) (l_visited st) (l_parent st).

Lemma level_pop c fr v pm :
  Level (c :: fr) v pm → c ∈ v → Level fr v pm.
Proof.
  intros HL Hc. split.
  - intros x [?|?]; apply (lv_chain _ _ _ HL); [by left|].
    right. by apply list_elem_of_further.
  - intros x Hx. destruct (lv_keys _ _ _ HL x Hx) as [?|Hx']; [by left|].
    apply elem_of_cons in Hx' as [->|?]; [by left|by right].
  - intros x l n [?|?]; apply (lv_short _ _ _ HL); [by left|].
    right. by apply list_elem_of_further.
  - intros i j x y lx ly Hij Hx Hy.
    apply (lv_sorted _ _ _ HL (S i) (S j)); [lia|done..].
  - intros x y lx ly Hx Hy Hlx Hly.
    destruct (lv_chain _ _ _ HL c) as [lc Hlc];
      [right; apply list_elem_of_here|].
    assert (x ∈ fr) as Hxfr.
    { destruct fr; [done|]. injection Hx as ->. apply list_elem_of_here. }
    apply list_elem_of_lookup in Hxfr as [i Hi].
    pose proof (lv_sorted _ _ _ HL 0 (S i) c x lc lx (Nat.le_0_l _)
                  eq_refl Hi Hlc Hlx).
    pose proof (lv_near _ _ _ HL c y lc ly eq_refl
                  (list_elem_of_further _ _ _ Hy) Hlc Hly). lia.
Qed.

Lemma level_scan c fr v pm :
  Level (c :: fr) v pm → c ∉ v → startId ∈ v ∨ c = startId →
  Closed problem (c :: fr) v →
  ∃ lc, Scan c lc fr (v ++ [c]) pm.
Proof.
  intros HL Hc Hs Hcl.
  destruct (lv_chain _ _ _ HL c) as [lc Hlc];
    [right; apply list_elem_of_here|].
  assert (∀ x, x ∈ v ++ [c] ∨ x ∈ fr → x ∈ v ∨ x ∈ c :: fr) as Hsub.
  { intros x [[?| ->%list_elem_of_singleton]%elem_of_app|?]; auto.
    - right. apply list_elem_of_here.
    - right. by apply list_elem_of_further. }
  exists lc. split.
  - done.
  - apply elem_of_app. destruct Hs as [?| ->]; [by left|].
    right. by apply list_elem_of_singleton.
  - intros x Hx. by apply (lv_chain _ _ _ HL), Hsub.
  - intros x Hx. destruct (lv_keys _ _ _ HL x Hx) as [?|Hx'].
    + left. apply elem_of_app. by left.
    + apply elem_of_cons in Hx' as [->|?]; [|by right].
      left. apply elem_of_app. right. by apply list_elem_of_singleton.
  - intros x l n Hx. by apply (lv_short _ _ _ HL), Hsub.
  - intros i j x y lx ly Hij Hx Hy.
    apply (lv_sorted _ _ _ HL (S i) (S j)); [lia|done..].
  - intros y ly Hy Hly. apply list_elem_of_lookup in Hy as [i Hi].
    pose proof (lv_sorted _ _ _ HL 0 (S i) c y lc ly (Nat.le_0_l _)
                  eq_refl Hi Hlc Hly).
    pose proof (lv_near _ _ _ HL c y lc ly eq_refl
                  (list_elem_of_further _ _ _
                     (list_elem_of_lookup_2 _ _ _ Hi)) Hlc Hly). lia.
  - intros u y [Hu|Hu%list_elem_of_singleton]%elem_of_app Huc Huy; [|done].
    destruct (Hcl u y Hu Huy) as [?|Hy].
    + left. apply elem_of_app. by left.
    + apply elem_of_cons in Hy as [->|?]; [|by right].
      left. apply elem_of_app. right. by apply list_elem_of_singleton.
  - apply elem_of_app. right. by apply list_elem_of_singleton.
Qed.

Lemma bfs_invariant_step st st' :
  BfsInv st → bfsBody problem goalId st = inl st' → BfsInv st'.
Proof.
  intros [HQ HL] Hb. split.
  { unfold goalId in Hb. rewrite bfsBody_queue in Hb.
    refine (queue_step problem bfsAlg (λ fr, fr) NoExtra _ _ _ _ _
              st st' HQ Hb).
    - exact popList_some.
    - intros ns. done.
    - intros; exact I.
    - intros; exact I.
    - intros cur s n ? ? ? ? ?. simpl. by apply bfsVisit_spec. }
  destruct HQ as [HG _ Hcl _]. unfold GL in HG. revert Hb. unfold bfsBody.
  destruct (l_frontier st) as [|c fr] eqn:Hfr; [done|]. simpl.
  destruct (has (l_visited st) c) eqn:Hv.
  - apply has_true in Hv. intros [= <-]. simpl. by eapply level_pop.
  - apply has_false in Hv. rewrite (add_new _ _ Hv).
    destruct (String.eqb c goalId); [by destruct (reconstructPath _ _)|].
    intros [= <-]. simpl.
    destruct (level_scan c fr (l_visited st) (l_parent st) HL Hv)
      as [lc HS]; [|done|].
    { destruct (gi_start _ _ _ _ _ HG) as [?|(_&_&_&Hall)]; [by left|].
      right. apply Hall, list_elem_of_here. }
    set (st1 := withVisited (l_visited st ++ [c]) (withFrontier fr st)).
    apply (scan_level c lc).
    apply (scan_fold c lc (getNeighbors problem c) st1). exact HS.
Qed.

Lemma bfs_invariant_exit st r :
  BfsInv st → bfsBody problem goalId st = inr (Returned r) →
  idsSet problem → success r = true →
  ∃ path, finalPath r = Some path ∧
          pathCost r = Some (Fin (inject_Z (Z.of_nat (length path) - 1))) ∧
          valid_path problem startId goalId path ∧
          ∀ n, moves n goalId → length path ≤ S n.
Proof.
  intros [[HG _ Hcl _] HL] Hb Hids Hs. unfold GL in HG. revert Hb.
  unfold bfsBody.
  destruct (l_frontier st) as [|c fr] eqn:Hfr.
  { intros [= <-]. done. }
  simpl. destruct (has (l_visited st) c) eqn:Hv; [done|].
  apply has_false in Hv. rewrite (add_new _ _ Hv).
  destruct (String.eqb c goalId) eqn:Heq; [|done].
  apply eqb_true in Heq. subst c.
  destruct (GInv_enter _ _ _ _ _ _ HG (list_elem_of_here _ _) Hv)
    as [HG1 Hs1].
  destruct (GInv_reconstruct problem startId _ _ _ goalId HG1)
    as (l&Hrec&Hvalid&Hchain); [| exact Hids |].
  { apply elem_of_app. right. by apply list_elem_of_singleton. }
  rewrite Hrec. intros [= <-]. simpl. exists l. split_and!; try done.
  intros n Hn.
  apply (lv_short _ _ _ HL goalId l n); [|done..].
  right. apply list_elem_of_here.
Qed.

Lemma bfs_invariant_init step0 :
  visited step0 = [] → BfsInv (initial [startId] [] ∅ ∅ ∅ step0).
Proof.
  intros Hv. split; [by apply init_list_inv|]. simpl.
  assert (∀ x l, x ∈ [startId] → chain startId ∅ x l → l = [startId])
    as Hone.
  { intros x l ->%list_elem_of_singleton Hl.
    inversion Hl as [|x' p l0 Hp]; [done|]. by rewrite lookup_empty in Hp. }
  split.
  - intros x [Hx|Hx%list_elem_of_singleton]; [by apply elem_of_nil in Hx|].
    subst. exists [startId]. by apply chain_root.
  - intros x [y Hy]. by rewrite lookup_empty in Hy.
  - intros x l n [Hx|Hx] Hl _; [by apply elem_of_nil in Hx|].
    rewrite (Hone _ _ Hx Hl). simpl. lia.
  - intros i j x y lx ly _ Hx Hy Hlx Hly.
    rewrite (Hone x lx), (Hone y ly); [done| |done| |done];
      by eapply list_elem_of_lookup_2.
  - intros x y lx ly Hx Hy Hlx Hly.
    rewrite (Hone x lx), (Hone y ly); [simpl; lia|done..| |done].
    injection Hx as ->. by apply list_elem_of_singleton.
Qed.

Lemma bfs_fewest fuel r :
  idsSet problem → runBFS fuel problem = Returned r → success r = true →
  ∃ path, finalPath r = Some path ∧
          pathCost r = Some (Fin (inject_Z (Z.of_nat (length path) - 1))) ∧
          valid_path problem startId goalId path ∧
          ∀ n, moves n goalId → length path ≤ S n.
Proof.
  intros Hids Hrun Hsucc. revert Hrun Hsucc. unfold runBFS.
  apply (while_inv (bfsBody problem goalId) BfsInv
           (λ r, success r = true →
              ∃ path, finalPath r = Some path ∧
                pathCost r
                  = Some (Fin (inject_Z (Z.of_nat (length path) - 1))) ∧
                valid_path problem startId goalId path ∧
                ∀ n, moves n goalId → length path ≤ S n)).
  - apply bfs_invariant_step.
  - intros s r' Hs Hb Hsucc.
    exact (bfs_invariant_exit s r' Hs Hb Hids Hsucc).
  - by apply bfs_invariant_init.
Qed.
End BfsLevels.

(** [l] leads from [a] to [b] through the resolver: each element is a
    neighbor of the one before. *)
Definition walkFrom (p : Problem) (a b : string) (l : list string) : Prop :=
  head l = Some a ∧ list.last l = Some b ∧ linked p l.



(** ** The page: editing a grid

    The handlers of the home page that change the problem. Each is the
    function that the page passes to [setProblem]; what it reads from the
    page besides the previous problem (the selected tool, the map from
    keys to cell indices) is an argument. *)

(** [toolModes] of the shared schema. *)
Inductive ToolMode : Type :=
  | toolSelect | toolAddObstacle | toolRemoveObstacle | toolSetStart
  | toolSetGoal | toolAddNode | toolAddEdge | toolSetWeight.

(** The loop [cells.forEach((cell, index) => map.set(key, index))]. *)
Fixpoint cellMapFrom (index : nat) (cs : list GridCell)
    (map : gmap string nat) : gmap string nat :=
  match cs with
  | [] => map
  | cell :: rest =>
      cellMapFrom (S index) rest
        (<[gridCellToId (cell_row cell) (cell_col cell) := index]> map)
  end.

(** [cellMap] of the page. *)
Definition cellMap (cs : list GridCell) : gmap string nat :=
  cellMapFrom 0 cs ∅.

(** [Array.prototype.findIndex]; [None] stands for -1. *)
Definition findIndex {A : Type} (f : A → bool) (l : list A) : option nat :=
  fst <$> list_find (λ x, f x = true) l.

(** [{ ...cell, isObstacle, isStart, isGoal }] *)
Definition cellFlags (isObstacle isStart isGoal : bool) (cell : GridCell)
    : GridCell :=
  {| cell_row := cell_row cell; cell_col := cell_col cell;
     cell_isObstacle := isObstacle; cell_isStart := isStart;
     cell_isGoal := isGoal; cell_weight := cell_weight cell |}.

(** [{ ...gridProblem, cells }] *)
Definition withCells (cs : list GridCell) (g : GridProblem) : GridProblem :=
  {| rows := rows g; cols := cols g; cells := cs; start := start g;
     goal := goal g; allowDiagonal := allowDiagonal g |}.

(** [handleGridCellClick(row, col)]. The result is [None] when the index
    that the map gives is not an index of [cells]: the source then reads
    the fields of [undefined], which is not modelled. *)
Definition handleGridCellClick (selectedTool : ToolMode)
    (cellMap : gmap string nat) (row col : Z) (prevProblem : GridProblem)
    : option GridProblem :=
  match cellMap !! gridCellToId row col with
  | None => Some prevProblem
  | Some cellIndex =>
      match cells prevProblem !! cellIndex with
      | None => None
      | Some cell =>
          let updatedCells := cells prevProblem in
          match selectedTool with
          | toolAddObstacle =>
              let updatedCells :=
                if negb (cell_isStart cell) && negb (cell_isGoal cell)
                then <[cellIndex :=
                         cellFlags true (cell_isStart cell) (cell_isGoal cell)
                           cell]> updatedCells
                else updatedCells in
              Some (withCells updatedCells prevProblem)
          | toolRemoveObstacle =>
              let updatedCells :=
                <[cellIndex :=
                    cellFlags false (cell_isStart cell) (cell_isGoal cell)
                      cell]> updatedCells in
              Some (withCells updatedCells prevProblem)
          | toolSetStart =>
              let updatedCells :=
                match findIndex cell_isStart updatedCells with
                | Some prevStartIndex =>
                    alter (λ c, cellFlags (cell_isObstacle c) false
                                  (cell_isGoal c) c)
                      prevStartIndex updatedCells
                | None => updatedCells
                end in
              let updatedCells :=
                <[cellIndex := cellFlags false true false cell]>
                  updatedCells in
              Some {| rows := rows prevProblem; cols := cols prevProblem;
                      cells := updatedCells;
                      start := {| row := row; col := col |};
                      goal := goal prevProblem;
                      allowDiagonal := allowDiagonal prevProblem |}
          | toolSetGoal =>
              let updatedCells :=
                match findIndex cell_isGoal updatedCells with
                | Some prevGoalIndex =>
                    alter (λ c, cellFlags (cell_isObstacle c)
                                  (cell_isStart c) false c)
                      prevGoalIndex updatedCells
                | None => updatedCells
                end in
              let updatedCells :=
                <[cellIndex := cellFlags false false true cell]>
                  updatedCells in
              Some {| rows := rows prevProblem; cols := cols prevProblem;
                      cells := updatedCells;
                      start := start prevProblem;
                      goal := {| row := row; col := col |};
                      allowDiagonal := allowDiagonal prevProblem |}
          | _ => Some prevProblem
          end
      end
  end.

(** [clearProblem] on a grid: every obstacle is removed. *)
Definition clearGrid (prevProblem : GridProblem) : GridProblem :=
  withCells
    (map (λ cell, cellFlags false (cell_isStart cell) (cell_isGoal cell) cell)
       (cells prevProblem))
    prevProblem.

(** The test of [runSearch] before it calls the engine. *)
Definition canRun (problem : Problem) : bool :=
  match problem with
  | Grid g => existsb cell_isStart (cells g) && existsb cell_isGoal (cells g)
  | Graph g =>
      truthy (startNodeId g) && truthy (goalNodeId g) &&
      (2 <=? length (nodes g))%nat
  end.

(** [runSearch]: [None] when the problem is refused, else the outcome of
    the engine; an exception of the engine is caught and reported. *)
Definition runSearch (Math_sqrt : Q → Q) (fuel : nat)
    (selectedAlgorithm : string) (problem : Problem)
    : option (outcome SearchResult) :=
  if canRun problem
  then Some (runAlgorithm Math_sqrt fuel selectedAlgorithm problem)
  else None.

(** The key of a cell. *)
Definition cellKey (cell : GridCell) : string :=
  gridCellToId (cell_row cell) (cell_col cell).

Lemma cellMapFrom_Some cs :
  ∀ index map key i,
    cellMapFrom index cs map !! key = Some i →
    map !! key = Some i ∨
    ∃ cell, cs !! (i - index) = Some cell ∧ index ≤ i ∧ cellKey cell = key.
Proof.
  induction cs as [|cell rest IH]; intros index map key i H; simpl in H.
  { by left. }
  apply IH in H as [H|(cl&Hcl&Hi&Hk)].
  - destruct (decide (cellKey cell = key)) as [Hk|Hk].
    + unfold cellKey in Hk. rewrite Hk, lookup_insert_eq in H.
      injection H as <-. right. exists cell.
      rewrite Nat.sub_diag. done.
    + rewrite lookup_insert_ne in H by done. by left.
  - right. exists cl. split_and!; [|lia|done].
    replace (i - index) with (S (i - S index)) by lia. done.
Qed.

Lemma cellMapFrom_last cs :
  ∀ index map j cell,
    cs !! j = Some cell →
    (∀ k cl, j < k → cs !! k = Some cl → cellKey cl ≠ cellKey cell) →
    cellMapFrom index cs map !! cellKey cell = Some (index + j).
Proof.
  induction cs as [|c rest IH]; intros index map j cell Hj Hlater;
    [done|]. simpl. destruct j as [|j].
  - injection Hj as ->.
    assert (∀ rest' idx m,
              (∀ cl, cl ∈ rest' → cellKey cl ≠ cellKey cell) →
              cellMapFrom idx rest' m !! cellKey cell = m !! cellKey cell)
      as Hkeep.
    { induction rest' as [|c' rest' IH']; intros idx m Hne; [done|].
      simpl. rewrite IH'.
      - rewrite lookup_insert_ne; [done|].
        apply Hne, list_elem_of_here.
      - intros cl Hcl. by apply Hne, list_elem_of_further. }
    rewrite Hkeep.
    + unfold cellKey. rewrite lookup_insert_eq. f_equal. lia.
    + intros cl [k Hk]%list_elem_of_lookup.
      apply (Hlater (S k)); [lia|done].
  - rewrite (IH (S index) _ j cell Hj).
    + f_equal. lia.
    + intros k cl Hk Hcl. apply (Hlater (S k)); [lia|done].
Qed.

Lemma cellMap_Some cs key i :
  cellMap cs !! key = Some i →
  ∃ cell, cs !! i = Some cell ∧ cellKey cell = key.
Proof.
  intros H. apply cellMapFrom_Some in H as [H|(cl&Hcl&_&Hk)].
  - by rewrite lookup_empty in H.
  - rewrite Nat.sub_0_r in Hcl. by exists cl.
Qed.

(** An id of a cell with numbers that are not negative is the id of no
    other row and column, negative or not. *)
Lemma digits_nonempty n : NilEmpty.string_of_uint (N.to_uint n) ≠ ""%string.
Proof.
  destruct n as [|p]; [done|]. simpl.
  pose proof (DecimalPos.Unsigned.to_uint_nonnil p).
  by destruct (Pos.to_uint p).
Qed.

Lemma encode_inj_nonneg row col r c :
  (0 <= r)%Z → (0 <= c)%Z →
  gridCellToId row col = gridCellToId r c → row = r ∧ col = c.
Proof.
  intros Hr Hc Heq.
  destruct (Z_lt_le_dec row 0) as [Hrow|Hrow].
  { exfalso. unfold gridCellToId in Heq.
    rewrite (numToString_neg row Hrow), (numToString_nonneg r Hr) in Heq.
    pose proof (digits_noSep (N.to_uint (Z.to_N r))) as Hns.
    pose proof (digits_nonempty (Z.to_N r)) as Hne.
    destruct (NilEmpty.string_of_uint (N.to_uint (Z.to_N r))) as [|a s];
      [done|].
    simpl in Heq. injection Heq as <- _. by destruct Hns as [Hns _]. }
  destruct (Z_lt_le_dec col 0) as [Hcol|Hcol].
  { exfalso. apply (f_equal (split "-")) in Heq. unfold gridCellToId in Heq.
    rewrite (numToString_nonneg row Hrow), (numToString_neg col Hcol),
      (numToString_nonneg r Hr), (numToString_nonneg c Hc) in Heq.
    change (?a +:+ "-" +:+ ?b) with (a +:+ String "-" b) in Heq.
    rewrite !split_at_sep in Heq by apply digits_noSep.
    cbn [split] in Heq. rewrite Ascii.eqb_refl in Heq.
    rewrite !split_noSep in Heq by apply digits_noSep. done. }
  by apply encode_inj.
Qed.

(** What the editor keeps true of a grid. *)
Record Tidy (g : GridProblem) : Prop := {
  td_coord : ∀ i cl, cells g !! i = Some cl →
    (0 <= cell_row cl)%Z ∧ (0 <= cell_col cl)%Z;
  td_uniq : ∀ i j ci cj,
    cells g !! i = Some ci → cells g !! j = Some cj →
    cell_row ci = cell_row cj → cell_col ci = cell_col cj → i = j;
  td_start : ∀ i cl, cells g !! i = Some cl → cell_isStart cl = true →
    cell_isObstacle cl = false ∧ cell_isGoal cl = false ∧
    cell_row cl = row (start g) ∧ cell_col cl = col (start g);
  td_goal : ∀ i cl, cells g !! i = Some cl → cell_isGoal cl = true →
    cell_isObstacle cl = false ∧ cell_isStart cl = false ∧
    cell_row cl = row (goal g) ∧ cell_col cl = col (goal g)
}.

Lemma Tidy_one_start g i j ci cj :
  Tidy g → cells g !! i = Some ci → cells g !! j = Some cj →
  cell_isStart ci = true → cell_isStart cj = true → i = j.
Proof.
  intros HT Hi Hj Hsi Hsj.
  destruct (td_start _ HT i ci Hi Hsi) as (_&_&?&?).
  destruct (td_start _ HT j cj Hj Hsj) as (_&_&?&?).
  eapply (td_uniq _ HT); eauto; congruence.
Qed.

Lemma Tidy_one_goal g i j ci cj :
  Tidy g → cells g !! i = Some ci → cells g !! j = Some cj →
  cell_isGoal ci = true → cell_isGoal cj = true → i = j.
Proof.
  intros HT Hi Hj Hsi Hsj.
  destruct (td_goal _ HT i ci Hi Hsi) as (_&_&?&?).
  destruct (td_goal _ HT j cj Hj Hsj) as (_&_&?&?).
  eapply (td_uniq _ HT); eauto; congruence.
Qed.

(** The map of the page finds the cell with the clicked row and column. *)
Lemma Tidy_click g r c i :
  Tidy g → cellMap (cells g) !! gridCellToId r c = Some i →
  ∃ cell, cells g !! i = Some cell ∧ cell_row cell = r ∧ cell_col cell = c.
Proof.
  intros HT H. apply cellMap_Some in H as (cell&Hc&Hk). exists cell.
  split; [done|]. destruct (td_coord _ HT i cell Hc) as [? ?].
  unfold cellKey in Hk. symmetry in Hk.
  by apply encode_inj_nonneg in Hk as [-> ->].
Qed.

Lemma findIndex_Some {A} (f : A → bool) l j :
  findIndex f l = Some j →
  ∃ x, l !! j = Some x ∧ f x = true ∧
       ∀ k y, l !! k = Some y → k < j → f y ≠ true.
Proof.
  unfold findIndex. destruct (list_find _ l) as [[j' x]|] eqn:E; [|done].
  intros [= <-]. apply list_find_Some in E as (?&?&?). by exists x.
Qed.

Lemma findIndex_None {A} (f : A → bool) l k x :
  findIndex f l = None → l !! k = Some x → f x ≠ true.
Proof.
  unfold findIndex. destruct (list_find _ l) as [[j' y]|] eqn:E; [done|].
  intros _ Hk. apply list_find_None in E.
  by apply (Forall_lookup_1 _ _ _ _ E Hk).
Qed.

Lemma lookup_insert_cases {A} (l : list A) i x k y :
  <[i := x]> l !! k = Some y →
  (k = i ∧ y = x) ∨ (k ≠ i ∧ l !! k = Some y).
Proof.
  intros [(->&->&_)|(?&?)]%list_lookup_insert_Some; [by left|right].
  split; [congruence|done].
Qed.

Lemma lookup_alter_cases {A} (f : A → A) (l : list A) j k y :
  alter f j l !! k = Some y →
  (k = j ∧ ∃ z, l !! k = Some z ∧ y = f z) ∨ (k ≠ j ∧ l !! k = Some y).
Proof.
  destruct (decide (k = j)) as [->|Hne].
  - rewrite list_lookup_alter_eq. destruct (l !! j) as [z|] eqn:E; [|done].
    intros [= <-]. left. split; [done|]. by exists z.
  - rewrite list_lookup_alter_ne by done. by right.
Qed.

(** An edit that keeps the rows and columns of the cells in place keeps
    the grid tidy when the flags of the new cells are in order. *)
Lemma Tidy_edit g g' :
  Tidy g →
  (∀ k cl', cells g' !! k = Some cl' →
     ∃ cl, cells g !! k = Some cl ∧
           cell_row cl' = cell_row cl ∧ cell_col cl' = cell_col cl) →
  (∀ k cl', cells g' !! k = Some cl' → cell_isStart cl' = true →
     cell_isObstacle cl' = false ∧ cell_isGoal cl' = false ∧
     cell_row cl' = row (start g') ∧ cell_col cl' = col (start g')) →
  (∀ k cl', cells g' !! k = Some cl' → cell_isGoal cl' = true →
     cell_isObstacle cl' = false ∧ cell_isStart cl' = false ∧
     cell_row cl' = row (goal g') ∧ cell_col cl' = col (goal g')) →
  Tidy g'.
Proof.
  intros HT Hsame Hs Hg. split; [| |done..].
  - intros i cl' Hi. destruct (Hsame i cl' Hi) as (cl&Hcl&-> & ->).
    by eapply (td_coord _ HT).
  - intros i j ci cj Hi Hj Hr Hc.
    destruct (Hsame i ci Hi) as (ci0&Hci0&Hri&Hcoli).
    destruct (Hsame j cj Hj) as (cj0&Hcj0&Hrj&Hcolj).
    eapply (td_uniq _ HT); eauto; congruence.
Qed.

(** The handler on the map that the page computes from the grid. *)
Definition clickGrid (tool : ToolMode) (r c : Z) (g : GridProblem)
    : option GridProblem :=
  handleGridCellClick tool (cellMap (cells g)) r c g.

Lemma clickGrid_tidy tool r c g :
  Tidy g →
  ∃ g', clickGrid tool r c g = Some g' ∧ Tidy g' ∧
        rows g' = rows g ∧ cols g' = cols g ∧
        allowDiagonal g' = allowDiagonal g ∧
        length (cells g') = length (cells g).
Proof.
  intros HT. unfold clickGrid, handleGridCellClick.
  destruct (cellMap (cells g) !! gridCellToId r c) as [i|] eqn:Hmap;
    [|by exists g].
  destruct (Tidy_click g r c i HT Hmap) as (cell&Hcell&Hr&Hc).
  rewrite Hcell.
  destruct tool; try (by exists g).
  - (* addObstacle *)
    destruct (negb (cell_isStart cell) && negb (cell_isGoal cell)) eqn:Hfree.
    + eexists. split; [done|]. split; [|simpl; split_and!; by rewrite ?length_insert].
      apply andb_prop in Hfree as [Hs%negb_true_iff Hg%negb_true_iff].
      apply (Tidy_edit g); [done|..]; simpl.
      * intros k cl' [(->&->)|(?&?)]%lookup_insert_cases; eauto.
      * intros k cl' [(->&->)|(?&?)]%lookup_insert_cases Hst.
        -- simpl in Hst. congruence.
        -- by eapply (td_start _ HT).
      * intros k cl' [(->&->)|(?&?)]%lookup_insert_cases Hgl.
        -- simpl in Hgl. congruence.
        -- by eapply (td_goal _ HT).
    + eexists. split; [done|]. split; [|simpl; split_and!; done].
      apply (Tidy_edit g); [done|..]; simpl; eauto.
      * apply (td_start _ HT).
      * apply (td_goal _ HT).
  - (* removeObstacle *)
    eexists. split; [done|]. split; [|simpl; split_and!; by rewrite ?length_insert].
    apply (Tidy_edit g); [done|..]; simpl.
    + intros k cl' [(->&->)|(?&?)]%lookup_insert_cases; eauto.
    + intros k cl' [(->&->)|(?&?)]%lookup_insert_cases Hst.
      * simpl in *. destruct (td_start _ HT i cell Hcell Hst) as (?&?&?&?).
        done.
      * by eapply (td_start _ HT).
    + intros k cl' [(->&->)|(?&?)]%lookup_insert_cases Hgl.
      * simpl in *. destruct (td_goal _ HT i cell Hcell Hgl) as (?&?&?&?).
        done.
      * by eapply (td_goal _ HT).
  - (* setStart *)
    eexists. split; [done|]. split.
    2:{ simpl. rewrite length_insert.
        destruct (findIndex _ _); split_and!; by rewrite ?length_alter. }
    apply (Tidy_edit g); [done|..]; simpl.
    + intros k cl' [(->&->)|(?&Hk)]%lookup_insert_cases; [eauto|].
      destruct (findIndex cell_isStart (cells g)) as [j|]; [|eauto].
      apply lookup_alter_cases in Hk as [(->&z&Hz&->)|(?&?)]; eauto.
    + intros k cl' [(->&->)|(Hki&Hk)]%lookup_insert_cases Hst;
        [by simpl|].
      exfalso.
      destruct (findIndex cell_isStart (cells g)) as [j|] eqn:Hfind.
      * apply lookup_alter_cases in Hk as [(->&z&Hz&->)|(Hkj&Hk)];
          [done|].
        apply findIndex_Some in Hfind as (x&Hx&Hfx&_).
        by apply Hkj, (Tidy_one_start g k j cl' x).
      * by apply (findIndex_None _ _ _ _ Hfind Hk).
    + intros k cl' [(->&->)|(Hki&Hk)]%lookup_insert_cases Hgl;
        [done|].
      destruct (findIndex cell_isStart (cells g)) as [j|] eqn:Hfind.
      * apply lookup_alter_cases in Hk as [(->&z&Hz&->)|(Hkj&Hk)].
        -- simpl in *. destruct (td_goal _ HT j z Hz Hgl) as (?&?&?&?).
           done.
        -- by eapply (td_goal _ HT).
      * by eapply (td_goal _ HT).
  - (* setGoal *)
    eexists. split; [done|]. split.
    2:{ simpl. rewrite length_insert.
        destruct (findIndex _ _); split_and!; by rewrite ?length_alter. }
    apply (Tidy_edit g); [done|..]; simpl.
    + intros k cl' [(->&->)|(?&Hk)]%lookup_insert_cases; [eauto|].
      destruct (findIndex cell_isGoal (cells g)) as [j|]; [|eauto].
      apply lookup_alter_cases in Hk as [(->&z&Hz&->)|(?&?)]; eauto.
    + intros k cl' [(->&->)|(Hki&Hk)]%lookup_insert_cases Hst;
        [done|].
      destruct (findIndex cell_isGoal (cells g)) as [j|] eqn:Hfind.
      * apply lookup_alter_cases in Hk as [(->&z&Hz&->)|(Hkj&Hk)].
        -- simpl in *. destruct (td_start _ HT j z Hz Hst) as (?&?&?&?).
           done.
        -- by eapply (td_start _ HT).
      * by eapply (td_start _ HT).
    + intros k cl' [(->&->)|(Hki&Hk)]%lookup_insert_cases Hgl;
        [by simpl|].
      exfalso.
      destruct (findIndex cell_isGoal (cells g)) as [j|] eqn:Hfind.
      * apply lookup_alter_cases in Hk as [(->&z&Hz&->)|(Hkj&Hk)];
          [done|].
        apply findIndex_Some in Hfind as (x&Hx&Hfx&_).
        by apply Hkj, (Tidy_one_goal g k j cl' x).
      * by apply (findIndex_None _ _ _ _ Hfind Hk).
Qed.

Lemma clearGrid_tidy g : Tidy g → Tidy (clearGrid g).
Proof.
  intros HT. apply (Tidy_edit g); [done|..]; unfold clearGrid; simpl.
  - intros k cl' Hk. rewrite list_lookup_fmap in Hk.
    destruct (cells g !! k) as [cl|]; [|done]. injection Hk as <-. eauto.
  - intros k cl' Hk Hst. rewrite list_lookup_fmap in Hk.
    destruct (cells g !! k) as [cl|] eqn:E; [|done]. injection Hk as <-.
    simpl in *. by destruct (td_start _ HT k cl E Hst) as (?&?&?&?).
  - intros k cl' Hk Hgl. rewrite list_lookup_fmap in Hk.
    destruct (cells g !! k) as [cl|] eqn:E; [|done]. injection Hk as <-.
    simpl in *. by destruct (td_goal _ HT k cl E Hgl) as (?&?&?&?).
Qed.

Lemma emptyGrid_lookup n m k cl :
  cells (createEmptyGrid n m) !! k = Some cl →
  ∃ r c, (0 <= r < n)%Z ∧ (0 <= c < m)%Z ∧ cl = emptyCell n m r c ∧
         k = (Z.to_nat r * Z.to_nat m + Z.to_nat c)%nat.
Proof.
  unfold createEmptyGrid. cbn [cells].
  change (λ r, map (λ c, _) (seqZ 0 m))
    with (λ r, map (emptyCell n m r) (seqZ 0 m)).
  assert (∀ (l : list Z) (base : nat) k cl,
            (∀ i r, l !! i = Some r → r = Z.of_nat (base + i)) →
            flat_map (λ r, map (emptyCell n m r) (seqZ 0 m)) l !! k = Some cl →
            ∃ i c, l !! i = Some (Z.of_nat (base + i)) ∧ (0 <= c < m)%Z ∧
                   cl = emptyCell n m (Z.of_nat (base + i)) c ∧
                   k = (i * Z.to_nat m + Z.to_nat c)%nat) as H.
  { induction l as [|r l IH]; intros base k' cl' Hl Hk; [done|].
    simpl in Hk.
    destruct (decide (k' < Z.to_nat m)) as [Hlt|Hge].
    - rewrite lookup_app_l in Hk by (by rewrite length_map, length_seqZ).
      rewrite list_lookup_fmap in Hk.
      destruct (seqZ 0 m !! k') as [c|] eqn:Hc; [|done].
      injection Hk as <-. apply lookup_seqZ in Hc as [-> Hc].
      pose proof (Hl 0 r eq_refl) as ->.
      exists 0, (Z.of_nat k').
      split; [simpl; f_equal; lia|]. split; [lia|].
      split; [f_equal; lia | simpl; lia].
    - rewrite lookup_app_r in Hk
        by (rewrite length_map, length_seqZ; lia).
      rewrite length_map, length_seqZ in Hk.
      destruct (IH (S base) (k' - Z.to_nat m) cl') as (i&c&Hi&Hc&->&Hk');
        [|exact Hk|].
      { intros i r' Hi. rewrite (Hl (S i) r' Hi). f_equal. lia. }
      exists (S i), c.
      split; [simpl; rewrite Hi; f_equal; lia|]. split; [done|].
      split; [f_equal; lia | lia]. }
  intros Hk.
  destruct (H (seqZ 0 n) 0 k cl) as (i&c&Hi&Hc&->&->); [|done|].
  { intros i r Hi. apply lookup_seqZ in Hi as [-> _]. simpl. lia. }
  apply lookup_seqZ in Hi as [_ Hi].
  exists (Z.of_nat i), c.
  split; [lia|]. split; [done|]. split; [done|]. lia.
Qed.

Lemma emptyGrid_tidy n m : n ≠ 1%Z ∨ m ≠ 1%Z → Tidy (createEmptyGrid n m).
Proof.
  intros Hnm. split.
  - intros i cl (r&c&?&?&->&_)%emptyGrid_lookup. simpl. lia.
  - intros i j ci cj (r1&c1&?&?&->&->)%emptyGrid_lookup
      (r2&c2&?&?&->&->)%emptyGrid_lookup. simpl. by intros -> ->.
  - intros i cl (r&c&?&?&->&_)%emptyGrid_lookup. simpl. lia.
  - intros i cl (r&c&?&?&->&_)%emptyGrid_lookup. simpl. lia.
Qed.

(** What the user does to a grid. *)
Inductive GridEdit : Type :=
  | Click (tool : ToolMode) (row col : Z)
  | Clear.

Definition editGrid (g : GridProblem) (e : GridEdit) : option GridProblem :=
  match e with
  | Click tool r c => clickGrid tool r c g
  | Clear => Some (clearGrid g)
  end.

Fixpoint editsGrid (g : GridProblem) (es : list GridEdit)
    : option GridProblem :=
  match es with
  | [] => Some g
  | e :: es' =>
      match editGrid g e with
      | Some g' => editsGrid g' es'
      | None => None
      end
  end.

Lemma editsGrid_tidy es :
  ∀ g, Tidy g →
  ∃ g', editsGrid g es = Some g' ∧ Tidy g' ∧
        rows g' = rows g ∧ cols g' = cols g ∧
        length (cells g') = length (cells g).
Proof.
  induction es as [|e es IH]; intros g HT; [by exists g|].
  simpl. destruct e as [tool r c|]; simpl.
  - destruct (clickGrid_tidy tool r c g HT) as (g1&->&HT1&Hr&Hc&_&Hl).
    destruct (IH g1 HT1) as (g'&?&?&?&?&?). exists g'.
    split_and!; [done..|congruence|congruence|congruence].
  - destruct (IH (clearGrid g) (clearGrid_tidy g HT)) as (g'&?&?&Hr&Hc&Hl).
    exists g'. split_and!; [done..|].
    rewrite Hl. unfold clearGrid. simpl. by rewrite length_map.
Qed.

(** X23. Whatever cells the user clicks with whatever tools, and however
    often the grid is cleared, the grid that the editor makes of
    [createEmptyGrid(rows, cols)] keeps its size and the rows and columns
    of its cells; at most one cell carries the start flag and at most one
    the goal flag, no cell carries both, neither is an obstacle, and the
    flagged cells lie at the start and goal coordinates of the problem. *)
Theorem grid_editor_keeps_tidy n m es :
  n ≠ 1%Z ∨ m ≠ 1%Z →
  ∃ g, editsGrid (createEmptyGrid n m) es = Some g ∧
       rows g = n ∧ cols g = m ∧
       length (cells g) = (Z.to_nat n * Z.to_nat m)%nat ∧
       (∀ i j ci cj, cells g !! i = Some ci → cells g !! j = Some cj →
          cell_row ci = cell_row cj → cell_col ci = cell_col cj → i = j) ∧
       (∀ i cl, cells g !! i = Some cl → cell_isStart cl = true →
          cell_isObstacle cl = false ∧ cell_isGoal cl = false ∧
          cell_row cl = row (start g) ∧ cell_col cl = col (start g)) ∧
       (∀ i cl, cells g !! i = Some cl → cell_isGoal cl = true →
          cell_isObstacle cl = false ∧ cell_isStart cl = false ∧
          cell_row cl = row (goal g) ∧ cell_col cl = col (goal g)).
Proof.
  intros Hnm.
  destruct (editsGrid_tidy es (createEmptyGrid n m) (emptyGrid_tidy n m Hnm))
    as (g&Hg&HT&Hr&Hc&Hl).
  exists g. split_and!; try done.
  - by rewrite Hl, length_emptyGrid.
  - apply (td_uniq _ HT).
  - apply (td_start _ HT).
  - apply (td_goal _ HT).
Qed.

Lemma grid_editor_keeps_tidy_witness :
  ∃ g, editsGrid (createEmptyGrid 3 3)
         [Click toolAddObstacle 1 1; Click toolSetStart 1 1;
          Click toolAddObstacle 1 1; Clear; Click toolSetGoal 0 0] = Some g ∧
       rows g = 3%Z ∧ cols g = 3%Z ∧ length (cells g) = 9%nat.
Proof.
  destruct (grid_editor_keeps_tidy 3 3
              [Click toolAddObstacle 1 1; Click toolSetStart 1 1;
               Click toolAddObstacle 1 1; Clear; Click toolSetGoal 0 0])
    as (g&Hg&Hr&Hc&Hl&_); [by left|].
  exists g. split_and!; done.
Defined.

Lemma Tidy_cellMap g i cl :
  Tidy g → cells g !! i = Some cl → cellMap (cells g) !! cellKey cl = Some i.
Proof.
  intros HT Hi. unfold cellMap.
  rewrite (cellMapFrom_last (cells g) 0 ∅ i cl Hi); [done|].
  intros k cl' Hk Hcl' Heq. unfold cellKey in Heq.
  destruct (td_coord _ HT i cl Hi) as [? ?].
  apply encode_inj_nonneg in Heq as [? ?]; [|done..].
  pose proof (td_uniq _ HT k i cl' cl Hcl' Hi). lia.
Qed.

Lemma Tidy_findCell g i cl :
  Tidy g → cells g !! i = Some cl →
  findCell g (cell_row cl) (cell_col cl) = Some cl.
Proof.
  intros HT Hi. apply findCell_unique.
  - intros c1 c2 [k1 H1]%list_elem_of_lookup [k2 H2]%list_elem_of_lookup
      Hr Hc.
    pose proof (td_uniq _ HT k1 k2 c1 c2 H1 H2 Hr Hc) as ->. congruence.
  - by eapply list_elem_of_lookup_2.
Qed.

Lemma existsb_lookup {A} (f : A → bool) l :
  existsb f l = true ↔ ∃ i x, l !! i = Some x ∧ f x = true.
Proof.
  rewrite existsb_exists. split.
  - intros (x&Hx&Hf). apply list_elem_of_In, list_elem_of_lookup in Hx
      as [i Hi]. by exists i, x.
  - intros (i&x&Hi&Hf). exists x. split; [|done].
    by eapply list_elem_of_In, list_elem_of_lookup_2.
Qed.

(** X24. When the page lets a run through on a grid that the editor made
    of [createEmptyGrid(rows, cols)], the start and the goal of the engine
    are the ids of two different stored cells, the one with the start flag
    and the one with the goal flag; neither is an obstacle and the
    resolver's lookup finds both. *)
Theorem grid_run_starts_at_flags n m es g :
  n ≠ 1%Z ∨ m ≠ 1%Z →
  editsGrid (createEmptyGrid n m) es = Some g →
  canRun (Grid g) = true →
  ∃ cs cg,
    cell_isStart cs = true ∧ cell_isGoal cg = true ∧
    cell_isObstacle cs = false ∧ cell_isObstacle cg = false ∧
    findCell g (row (start g)) (col (start g)) = Some cs ∧
    findCell g (row (goal g)) (col (goal g)) = Some cg ∧
    getStartId (Grid g) = cellKey cs ∧ getGoalId (Grid g) = cellKey cg ∧
    getStartId (Grid g) ≠ getGoalId (Grid g).
Proof.
  intros Hnm Hes Hrun.
  destruct (editsGrid_tidy es (createEmptyGrid n m) (emptyGrid_tidy n m Hnm))
    as (g'&Hg'&HT&_). rewrite Hes in Hg'. injection Hg' as <-.
  simpl in Hrun. apply andb_prop in Hrun as [Hs Hg].
  apply existsb_lookup in Hs as (i&cs&Hi&Hsi).
  apply existsb_lookup in Hg as (j&cg&Hj&Hgj).
  destruct (td_start _ HT i cs Hi Hsi) as (Hos&Hgs&Hrs&Hcs).
  destruct (td_goal _ HT j cg Hj Hgj) as (Hog&Hsg&Hrg&Hcg).
  exists cs, cg. split_and!; try done.
  - rewrite <- Hrs, <- Hcs. by eapply Tidy_findCell.
  - rewrite <- Hrg, <- Hcg. by eapply Tidy_findCell.
  - simpl. unfold cellKey. by rewrite Hrs, Hcs.
  - simpl. unfold cellKey. by rewrite Hrg, Hcg.
  - simpl. rewrite <- Hrs, <- Hcs, <- Hrg, <- Hcg. intros Heq.
    destruct (td_coord _ HT j cg Hj) as [? ?].
    apply encode_inj_nonneg in Heq as [Hr Hc]; [|done..].
    pose proof (td_uniq _ HT i j cs cg Hi Hj Hr Hc) as ->.
    congruence.
Qed.

Lemma grid_run_starts_at_flags_witness :
  ∃ g, editsGrid (createEmptyGrid 3 3) [Click toolSetStart 1 1] = Some g ∧
       getStartId (Grid g) = "1-1"%string ∧
       getStartId (Grid g) ≠ getGoalId (Grid g).
Proof.
  destruct (editsGrid (createEmptyGrid 3 3) [Click toolSetStart 1 1])
    as [g|] eqn:Hg; [|by vm_compute in Hg].
  exists g. split; [reflexivity|].
  assert (getStartId (Grid g) = "1-1"%string) as Hs.
  { vm_compute in Hg. injection Hg as <-. reflexivity. }
  split; [exact Hs|].
  destruct (grid_run_starts_at_flags 3 3 [Click toolSetStart 1 1] g)
    as (cs&cg&_&_&_&_&_&_&_&_&Hne); [by left|exact Hg| |exact Hne].
  vm_compute in Hg. injection Hg as <-. reflexivity.
Defined.

(** X25. Setting the start on the cell that carries the goal flag takes
    the goal flag away and leaves the grid without a goal cell: the page
    then refuses to run any algorithm until a goal is set again. *)
Theorem setStart_on_goal_blocks_run Math_sqrt n m es g i cl :
  n ≠ 1%Z ∨ m ≠ 1%Z →
  editsGrid (createEmptyGrid n m) es = Some g →
  cells g !! i = Some cl → cell_isGoal cl = true →
  ∃ g', clickGrid toolSetStart (cell_row cl) (cell_col cl) g = Some g' ∧
        (∀ k c, cells g' !! k = Some c → cell_isGoal c = false) ∧
        canRun (Grid g') = false ∧
        ∀ fuel sel, runSearch Math_sqrt fuel sel (Grid g') = None.
Proof.
  intros Hnm Hes Hi Hgoal.
  destruct (editsGrid_tidy es (createEmptyGrid n m) (emptyGrid_tidy n m Hnm))
    as (g0&Hg0&HT&_). rewrite Hes in Hg0. injection Hg0 as <-.
  unfold clickGrid, handleGridCellClick.
  change (gridCellToId (cell_row cl) (cell_col cl)) with (cellKey cl).
  rewrite (Tidy_cellMap g i cl HT Hi), Hi.
  eexists. split; [done|].
  assert (∀ k c,
    <[i := cellFlags false true false cl]>
      (match findIndex cell_isStart (cells g) with
       | Some j =>
           alter (λ c, cellFlags (cell_isObstacle c) false (cell_isGoal c) c)
             j (cells g)
       | None => cells g
       end) !! k = Some c → cell_isGoal c = false) as Hno.
  { intros k c [(->&->)|(Hki&Hk)]%lookup_insert_cases; [done|].
    destruct (cell_isGoal c) eqn:Hgc; [|done]. exfalso. apply Hki.
    destruct (findIndex cell_isStart (cells g)) as [j|].
    - apply lookup_alter_cases in Hk as [(->&z&Hz&->)|(_&Hk)].
      + simpl in Hgc. by apply (Tidy_one_goal g j i z cl).
      + by apply (Tidy_one_goal g k i c cl).
    - by apply (Tidy_one_goal g k i c cl). }
  assert (existsb cell_isGoal
            (<[i := cellFlags false true false cl]>
               (match findIndex cell_isStart (cells g) with
                | Some j =>
                    alter (λ c, cellFlags (cell_isObstacle c) false
                                  (cell_isGoal c) c) j (cells g)
                | None => cells g
                end)) = false) as Hex.
  { destruct (existsb _ _) eqn:E; [|done].
    apply existsb_lookup in E as (k&c&Hk&Hc).
    rewrite (Hno k c Hk) in Hc. done. }
  split; [exact Hno|]. split.
  - simpl. rewrite Hex. apply andb_false_r.
  - intros fuel sel. unfold runSearch. simpl. rewrite Hex.
    by rewrite andb_false_r.
Qed.

Lemma setStart_on_goal_blocks_run_witness :
  ∃ g', clickGrid toolSetStart 2 2 (createEmptyGrid 3 3) = Some g' ∧
        canRun (Grid g') = false ∧
        runSearch isqrt 10 "bfs" (Grid g') = None.
Proof.
  destruct (setStart_on_goal_blocks_run isqrt 3 3 [] (createEmptyGrid 3 3)
              8 (emptyCell 3 3 2 2))
    as (g'&Hg'&_&Hc&Hr); [by left|reflexivity..|].
  exists g'. split_and!; [exact Hg'|exact Hc|apply Hr].
Defined.

(** ** The page: editing a graph *)

(** [createEmptyGraph()] of the shared schema. *)
Definition createEmptyGraph : GraphProblem :=
  {| nodes := []; edges := []; startNodeId := ""; goalNodeId := "";
     isDirected := false |}.

Definition withNodes (ns : list GraphNode) (g : GraphProblem) : GraphProblem :=
  {| nodes := ns; edges := edges g; startNodeId := startNodeId g;
     goalNodeId := goalNodeId g; isDirected := isDirected g |}.

Definition isAddNode (tool : ToolMode) : bool :=
  match tool with toolAddNode => true | _ => false end.

(** [handleGraphCanvasClick(x, y)] *)
Definition handleGraphCanvasClick (selectedTool : ToolMode) (x y : Q)
    (prevProblem : GraphProblem) : GraphProblem :=
  if isAddNode selectedTool then
    let count := length (nodes prevProblem) in
    let newNodeId := ("N" +:+ numToString (Z.of_nat count + 1))%string in
    let newNode :=
      {| node_id := newNodeId; node_x := x; node_y := y;
         node_label := Some newNodeId; node_isStart := (count =? 0)%nat;
         node_isGoal := false; node_heuristic := None |} in
    {| nodes := nodes prevProblem ++ [newNode];
       edges := edges prevProblem;
       startNodeId :=
         if (count =? 0)%nat then newNodeId else startNodeId prevProblem;
       goalNodeId := goalNodeId prevProblem;
       isDirected := isDirected prevProblem |}
  else prevProblem.

(** [handleGraphNodeClick(nodeId)] *)
Definition handleGraphNodeClick (selectedTool : ToolMode) (nodeId : string)
    (prevProblem : GraphProblem) : GraphProblem :=
  match selectedTool with
  | toolSetStart =>
      {| nodes :=
           map (λ n,
             {| node_id := node_id n; node_x := node_x n; node_y := node_y n;
                node_label := node_label n;
                node_isStart := String.eqb (node_id n) nodeId;
                node_isGoal :=
                  if String.eqb (node_id n) nodeId then false
                  else node_isGoal n;
                node_heuristic := node_heuristic n |}) (nodes prevProblem);
         edges := edges prevProblem; startNodeId := nodeId;
         goalNodeId := goalNodeId prevProblem;
         isDirected := isDirected prevProblem |}
  | toolSetGoal =>
      {| nodes :=
           map (λ n,
             {| node_id := node_id n; node_x := node_x n; node_y := node_y n;
                node_label := node_label n;
                node_isStart :=
                  if String.eqb (node_id n) nodeId then false
                  else node_isStart n;
                node_isGoal := String.eqb (node_id n) nodeId;
                node_heuristic := node_heuristic n |}) (nodes prevProblem);
         edges := edges prevProblem; startNodeId := startNodeId prevProblem;
         goalNodeId := nodeId;
         isDirected := isDirected prevProblem |}
  | _ => prevProblem
  end.

(** [handleGraphNodeDrag(nodeId, x, y)] *)
Definition handleGraphNodeDrag (nodeId : string) (x y : Q)
    (prevProblem : GraphProblem) : GraphProblem :=
  withNodes
    (map (λ n,
       if String.eqb (node_id n) nodeId then
         {| node_id := node_id n; node_x := x; node_y := y;
            node_label := node_label n; node_isStart := node_isStart n;
            node_isGoal := node_isGoal n;
            node_heuristic := node_heuristic n |}
       else n) (nodes prevProblem))
    prevProblem.

(** [handleEdgeCreate(fromId, toId)] *)
Definition handleEdgeCreate (fromId toId : string)
    (prevProblem : GraphProblem) : GraphProblem :=
  let existingEdge :=
    find (λ e,
      (String.eqb (edge_from e) fromId && String.eqb (edge_to e) toId) ||
      (String.eqb (edge_from e) toId && String.eqb (edge_to e) fromId))
      (edges prevProblem) in
  if (match existingEdge with Some _ => true | None => false end) ||
     String.eqb fromId toId
  then prevProblem
  else
    {| nodes := nodes prevProblem;
       edges := edges prevProblem ++
                [{| edge_from := fromId; edge_to := toId; edge_weight := 1 |}];
       startNodeId := startNodeId prevProblem;
       goalNodeId := goalNodeId prevProblem;
       isDirected := isDirected prevProblem |}.

(** What the user does to a graph. *)
Inductive GraphEdit : Type :=
  | CanvasClick (tool : ToolMode) (x y : Q)
  | NodeClick (tool : ToolMode) (nodeId : string)
  | NodeDrag (nodeId : string) (x y : Q)
  | EdgeCreate (fromId toId : string)
  | ClearGraph.

Definition editGraph (g : GraphProblem) (e : GraphEdit) : GraphProblem :=
  match e with
  | CanvasClick tool x y => handleGraphCanvasClick tool x y g
  | NodeClick tool nodeId => handleGraphNodeClick tool nodeId g
  | NodeDrag nodeId x y => handleGraphNodeDrag nodeId x y g
  | EdgeCreate a b => handleEdgeCreate a b g
  | ClearGraph => createEmptyGraph
  end.

Definition nodeIds (g : GraphProblem) : list string := map node_id (nodes g).

(** The ids that an edit names are ids of nodes of the graph: the canvas
    reports clicks, drags and edge ends of the nodes that it shows. *)
Definition onNodes (g : GraphProblem) (e : GraphEdit) : Prop :=
  match e with
  | NodeClick _ nodeId => nodeId ∈ nodeIds g
  | EdgeCreate a b => a ∈ nodeIds g ∧ b ∈ nodeIds g
  | _ => True
  end.

(** The graphs that the editor makes of the empty graph. *)
Inductive edited : GraphProblem → Prop :=
  | edited_empty : edited createEmptyGraph
  | edited_step g e : edited g → onNodes g e → edited (editGraph g e).

(** The id of the node that was added as number [i + 1]. *)
Definition nodeName (i : nat) : string :=
  ("N" +:+ numToString (Z.of_nat i + 1))%string.

Record Neat (g : GraphProblem) : Prop := {
  nt_names : ∀ i, i < length (nodeIds g) → nodeIds g !! i = Some (nodeName i);
  nt_edges : ∀ e, e ∈ edges g →
    edge_from e ∈ nodeIds g ∧ edge_to e ∈ nodeIds g ∧
    edge_from e ≠ edge_to e ∧ edge_weight e = 1%Q;
  nt_once : ∀ i j ei ej,
    edges g !! i = Some ei → edges g !! j = Some ej →
    (edge_from ei = edge_from ej ∧ edge_to ei = edge_to ej) ∨
    (edge_from ei = edge_to ej ∧ edge_to ei = edge_from ej) → i = j;
  nt_start : (nodeIds g = [] ∧ startNodeId g = ""%string) ∨
             startNodeId g ∈ nodeIds g;
  nt_goal : goalNodeId g = ""%string ∨ goalNodeId g ∈ nodeIds g
}.

Lemma nodeName_inj i j : nodeName i = nodeName j → i = j.
Proof.
  unfold nodeName. rewrite !numToString_nonneg by lia.
  intros H.
  change ("N" +:+ ?x)%string with (String "N" x) in H.
  injection H as H. apply (f_equal Number) in H.
  rewrite !Number_digits in H. injection H as H. lia.
Qed.

Lemma nodeName_nonempty i : nodeName i ≠ ""%string.
Proof. done. Qed.

Lemma Neat_ids g x : Neat g → x ∈ nodeIds g → ∃ i, x = nodeName i.
Proof.
  intros HN [i Hi]%list_elem_of_lookup. exists i.
  pose proof (lookup_lt_Some _ _ _ Hi) as Hlt.
  rewrite (nt_names _ HN i Hlt) in Hi. congruence.
Qed.

Lemma Neat_NoDup g : Neat g → NoDup (nodeIds g).
Proof.
  intros HN. apply NoDup_alt. intros i j x Hi Hj.
  pose proof (lookup_lt_Some _ _ _ Hi) as Hli.
  pose proof (lookup_lt_Some _ _ _ Hj) as Hlj.
  rewrite (nt_names _ HN i Hli) in Hi. rewrite (nt_names _ HN j Hlj) in Hj.
  apply nodeName_inj. congruence.
Qed.

Lemma Neat_empty : Neat createEmptyGraph.
Proof.
  split; simpl.
  - intros i Hi. lia.
  - intros e He. by apply elem_of_nil in He.
  - intros i j ei ej Hi. done.
  - by left.
  - by left.
Qed.

(** An edit that keeps the ids of the nodes and the edges. *)
Lemma Neat_same g g' :
  Neat g → nodeIds g' = nodeIds g → edges g' = edges g →
  (startNodeId g' = startNodeId g ∨ startNodeId g' ∈ nodeIds g) →
  (goalNodeId g' = goalNodeId g ∨ goalNodeId g' ∈ nodeIds g) →
  Neat g'.
Proof.
  intros HN Hids Hed Hs Hg. split; rewrite ?Hids, ?Hed.
  - apply (nt_names _ HN).
  - apply (nt_edges _ HN).
  - apply (nt_once _ HN).
  - destruct Hs as [->|Hs]; [apply (nt_start _ HN)|by right].
  - destruct Hg as [->|Hg]; [apply (nt_goal _ HN)|by right].
Qed.

Lemma Neat_addNode g x y :
  Neat g → Neat (handleGraphCanvasClick toolAddNode x y g).
Proof.
  intros HN. unfold handleGraphCanvasClick. cbn [isAddNode].
  assert (length (nodeIds g) = length (nodes g)) as Hlen
    by (unfold nodeIds; by rewrite length_map).
  split; unfold nodeIds; cbn [nodes edges startNodeId goalNodeId];
    rewrite ?map_app; cbn [map node_id]; fold (nodeIds g);
    fold (nodeName (length (nodes g))).
  - intros i Hi. rewrite length_app in Hi. simpl in Hi.
    destruct (decide (i < length (nodeIds g))) as [Hlt|Hge].
    + rewrite lookup_app_l by done. by apply (nt_names _ HN).
    + assert (i = length (nodeIds g)) as -> by lia.
      rewrite lookup_app_r by lia. rewrite Nat.sub_diag. simpl.
      by rewrite Hlen.
  - intros e He. destruct (nt_edges _ HN e He) as (?&?&?&?).
    split_and!; [apply elem_of_app; by left..|done|done].
  - apply (nt_once _ HN).
  - right. destruct (Nat.eqb_spec (length (nodes g)) 0) as [H0|Hn0].
    + apply elem_of_app. right. by apply list_elem_of_singleton.
    + destruct (nt_start _ HN) as [[Hnil _]|Hs].
      * rewrite Hnil in Hlen. simpl in Hlen. lia.
      * apply elem_of_app. by left.
  - destruct (nt_goal _ HN) as [?|?]; [by left|right].
    apply elem_of_app. by left.
Qed.

Lemma Neat_edge g a b :
  Neat g → a ∈ nodeIds g → b ∈ nodeIds g → Neat (handleEdgeCreate a b g).
Proof.
  intros HN Ha Hb. unfold handleEdgeCreate.
  destruct (find _ (edges g)) as [e|] eqn:Hf; [done|].
  destruct (String.eqb_spec a b) as [->|Hab]; [done|]. cbn [orb].
  assert (∀ e, e ∈ edges g →
            ¬ ((edge_from e = a ∧ edge_to e = b) ∨
               (edge_from e = b ∧ edge_to e = a))) as Hnone.
  { intros e He%list_elem_of_In Hm.
    pose proof (find_none _ _ Hf e He) as Hn. cbn beta in Hn.
    destruct Hm as [[E1 E2]|[E1 E2]]; rewrite E1, E2 in Hn;
      rewrite !String.eqb_refl in Hn; simpl in Hn;
      [done|by rewrite orb_true_r in Hn]. }
  split; cbn [nodes edges startNodeId goalNodeId];
    change (nodeIds {| nodes := nodes g; edges := _; startNodeId := _;
                       goalNodeId := _; isDirected := _ |})
      with (nodeIds g).
  - apply (nt_names _ HN).
  - intros e [He|He%list_elem_of_singleton]%elem_of_app.
    + apply (nt_edges _ HN e He).
    + subst e. done.
  - intros i j ei ej Hi Hj Hm.
    apply lookup_app_Some in Hi as [Hi|[Hil Hi]];
      apply lookup_app_Some in Hj as [Hj|[Hjl Hj]].
    + by apply (nt_once _ HN i j ei ej).
    + apply list_lookup_singleton_Some in Hj as [_ <-].
      exfalso. apply (Hnone ei); [by eapply list_elem_of_lookup_2|].
      simpl in Hm. tauto.
    + apply list_lookup_singleton_Some in Hi as [_ <-].
      exfalso. apply (Hnone ej); [by eapply list_elem_of_lookup_2|].
      simpl in Hm. destruct Hm as [[E1 E2]|[E1 E2]]; symmetry in E1, E2; tauto.
    + apply list_lookup_singleton_Some in Hi as [Hi _].
      apply list_lookup_singleton_Some in Hj as [Hj _]. lia.
  - apply (nt_start _ HN).
  - apply (nt_goal _ HN).
Qed.

Lemma Neat_editGraph g e : Neat g → onNodes g e → Neat (editGraph g e).
Proof.
  intros HN He. destruct e as [tool x y|tool nodeId|nodeId x y|a b|]; simpl.
  - destruct tool; try done. by apply Neat_addNode.
  - simpl in He.
    destruct tool; try done; simpl;
      (apply (Neat_same g); [done| |done|cbn; auto|cbn; auto]);
      unfold nodeIds; cbn [nodes]; by rewrite map_map.
  - apply (Neat_same g); [done| |done|by left|by left].
    unfold nodeIds, handleGraphNodeDrag, withNodes. cbn [nodes].
    rewrite map_map. apply map_ext. intros n.
    by destruct (String.eqb (node_id n) nodeId).
  - destruct He. by apply Neat_edge.
  - apply Neat_empty.
Qed.

Lemma edited_Neat g : edited g → Neat g.
Proof.
  induction 1 as [|g e _ IH He]; [apply Neat_empty|by apply Neat_editGraph].
Qed.

(** A graph drawn by hand: three nodes, two edges, the second edge asked
    for twice, and the goal set on the third node. *)
Definition sketch : GraphProblem :=
  foldl editGraph createEmptyGraph
    [CanvasClick toolAddNode 10 10; CanvasClick toolAddNode 60 10;
     CanvasClick toolAddNode 110 10; EdgeCreate "N1" "N2";
     EdgeCreate "N2" "N3"; EdgeCreate "N3" "N2"; NodeDrag "N2" 60 40;
     NodeClick toolSetGoal "N3"].

Lemma edited_foldl es :
  ∀ g, edited g →
  (∀ i e, es !! i = Some e → onNodes (foldl editGraph g (take i es)) e) →
  edited (foldl editGraph g es).
Proof.
  induction es as [|e es IH]; intros g Hg Hes; [done|]. simpl.
  apply IH.
  - apply edited_step; [done|]. apply (Hes 0 e eq_refl).
  - intros i e' Hi. apply (Hes (S i) e' Hi).
Qed.

Lemma sketch_edited : edited sketch.
Proof.
  apply edited_foldl; [apply edited_empty|].
  intros i e Hi.
  do 8 (destruct i as [|i]; [injection Hi as <-; vm_compute;
                             repeat split; set_solver|]).
  done.
Qed.

Lemma Neat_idsSet g : Neat g → truthy (startNodeId g) = true →
  idsSet (Graph g).
Proof.
  intros HN Hs y Hy%universe_closed ->. simpl in Hy.
  apply elem_of_cons in Hy as [Hy|Hy].
  { change (""%string = startNodeId g) in Hy. by rewrite <- Hy in Hs. }
  apply list_elem_of_In, in_flat_map in Hy as (e&He%list_elem_of_In&Hy).
  destruct (nt_edges _ HN e He) as (Hf&Ht&_).
  assert ("" ∈ nodeIds g)%string as Hin.
  { destruct Hy as [<-|[<-|[]]]; done. }
  destruct (Neat_ids _ _ HN Hin) as [i Hi]. by destruct (nodeName_nonempty i).
Qed.

(** X26. In a graph drawn with the tools of the page from the empty graph,
    the nodes are named N1, N2, ... in the order in which they were added,
    so no two nodes share an id; every edge joins two different nodes of
    the graph with weight 1, and no pair of nodes is joined twice, in
    either direction. *)
Theorem graph_editor_keeps_neat g :
  edited g →
  nodeIds g = map nodeName (seq 0 (length (nodes g))) ∧
  NoDup (nodeIds g) ∧
  (∀ e, e ∈ edges g →
     edge_from e ∈ nodeIds g ∧ edge_to e ∈ nodeIds g ∧
     edge_from e ≠ edge_to e ∧ edge_weight e = 1%Q) ∧
  (∀ i j ei ej,
     edges g !! i = Some ei → edges g !! j = Some ej →
     (edge_from ei = edge_from ej ∧ edge_to ei = edge_to ej) ∨
     (edge_from ei = edge_to ej ∧ edge_to ei = edge_from ej) → i = j).
Proof.
  intros HN%edited_Neat. split_and!.
  - apply list_eq. intros i.
    assert (length (nodeIds g) = length (nodes g)) as Hlen
      by (unfold nodeIds; by rewrite length_map).
    destruct (decide (i < length (nodes g))) as [Hlt|Hge].
    + rewrite (nt_names _ HN i) by lia.
      rewrite list_lookup_fmap, lookup_seq_lt by done. done.
    + rewrite lookup_ge_None_2 by lia. symmetry.
      apply lookup_ge_None_2. rewrite length_map, length_seq. lia.
  - by apply Neat_NoDup.
  - apply (nt_edges _ HN).
  - apply (nt_once _ HN).
Qed.

Lemma graph_editor_keeps_neat_witness :
  nodeIds sketch = ["N1"; "N2"; "N3"]%string ∧
  edges sketch = [edge "N1" "N2" 1; edge "N2" "N3" 1] ∧
  nodeIds sketch = map nodeName (seq 0 (length (nodes sketch))) ∧
  NoDup (nodeIds sketch) ∧
  (∀ e, e ∈ edges sketch →
     edge_from e ∈ nodeIds sketch ∧ edge_to e ∈ nodeIds sketch ∧
     edge_from e ≠ edge_to e ∧ edge_weight e = 1%Q) ∧
  (∀ i j ei ej,
     edges sketch !! i = Some ei → edges sketch !! j = Some ej →
     (edge_from ei = edge_from ej ∧ edge_to ei = edge_to ej) ∨
     (edge_from ei = edge_to ej ∧ edge_to ei = edge_from ej) → i = j).
Proof.
  split; [reflexivity|]. split; [reflexivity|].
  apply (graph_editor_keeps_neat sketch). exact sketch_edited.
Defined.

(** X27. A graph drawn with the tools of the page that [runSearch] lets
    through has its start and its goal among its nodes and no node with
    the empty id can be reached in it; so the path of every successful run
    on it starts at the start, ends at the goal, follows the resolver and
    repeats no id. *)
Theorem graph_run_on_nodes Math_sqrt g :
  edited g → canRun (Graph g) = true →
  startNodeId g ∈ nodeIds g ∧ goalNodeId g ∈ nodeIds g ∧
  idsSet (Graph g) ∧
  ∀ fuel sel r,
    sel ∈ algorithmTypes →
    runAlgorithm Math_sqrt fuel sel (Graph g) = Returned r →
    success r = true →
    ∃ path, finalPath r = Some path ∧
            valid_path (Graph g) (startNodeId g) (goalNodeId g) path.
Proof.
  intros HN%edited_Neat Hrun. simpl in Hrun.
  apply andb_prop in Hrun as [[Hs Hg]%andb_prop _].
  assert (idsSet (Graph g)) as Hids by by apply Neat_idsSet.
  split_and!; [| |done|].
  - destruct (nt_start _ HN) as [[_ H0]|?]; [|done].
    by rewrite H0 in Hs.
  - destruct (nt_goal _ HN) as [H0|?]; [|done]. by rewrite H0 in Hg.
  - intros fuel sel r Hsel Hr Hsucc.
    destruct (algorithmTypes_split sel Hsel) as [Ht| ->].
    + destruct (run_tree _ _ _ _ _ Ht Hr)
        as (v&pm&(fr&HG)&_&_&_&[(_&Hgv&path&Hrec&Hfp)|(Hf&_)]);
        [|congruence].
      destruct (GInv_reconstruct _ _ _ _ _ _ HG Hgv Hids) as (l&Hl&Hv&_).
      exists path. split; [done|]. simpl in *. congruence.
    + destruct (run_ida _ _ _ _ Hr) as (_&[(_&_&path&?&?)|(Hf&_)]);
        [|congruence].
      by exists path.
Qed.

Lemma graph_run_on_nodes_witness :
  startNodeId sketch = "N1"%string ∧ goalNodeId sketch = "N3"%string ∧
  startNodeId sketch ∈ nodeIds sketch ∧ goalNodeId sketch ∈ nodeIds sketch ∧
  idsSet (Graph sketch) ∧
  ∀ fuel sel r,
    sel ∈ algorithmTypes →
    runAlgorithm isqrt fuel sel (Graph sketch) = Returned r →
    success r = true →
    ∃ path, finalPath r = Some path ∧
            valid_path (Graph sketch) (startNodeId sketch)
              (goalNodeId sketch) path.
Proof.
  split; [reflexivity|]. split; [reflexivity|].
  apply (graph_run_on_nodes isqrt sketch); [exact sketch_edited|reflexivity].
Defined.

(** ** Uniform-cost search returns a cheapest path *)

Section UcsLeast.
Variable problem : Problem.
Let startId := getStartId problem.
Let goalId := getGoalId problem.

(** The resolver gives a cost that is a number and not negative to every
    step out of a node that can be reached. *)
Hypothesis step_costs :
  ∀ x y k, reach problem startId x → (y, k) ∈ getNeighbors problem x →
           nonneg k.

(** There is a way from the start to [x] whose step costs add up to [c]. *)
Inductive wcost : num → string → Prop :=
  | wcost_start : wcost (Fin 0) startId
  | wcost_step c b x k :
      wcost c b → (x, k) ∈ getNeighbors problem b → wcost (nadd c k) x.

Lemma wcost_reach c x : wcost c x → reach problem startId x.
Proof.
  induction 1 as [|c b x k _ IH Hn]; [apply rtc_refl|].
  eapply rtc_r; [exact IH|]. by exists k.
Qed.

Lemma wcost_costed l cs :
  ∀ a c0, wcost c0 a → head l = Some a → costed problem l cs →
  ∀ b, list.last l = Some b → wcost (fold_left nadd cs c0) b.
Proof.
  revert cs. induction l as [|x l IH]; intros cs a c0 Hw Hh Hc b Hl; [done|].
  injection Hh as ->. destruct l as [|y l].
  - destruct cs; [|done]. injection Hl as ->. done.
  - destruct cs as [|k cs]; [done|]. destruct Hc as [Hn Hc]. simpl.
    apply (IH cs y (nadd c0 k)); [by eapply wcost_step|done|done|done].
Qed.

Lemma nlt_Fin_false a b : nlt (Fin a) (Fin b) = false ↔ (b <= a)%Q.
Proof. apply (ngt_Fin_false b a). Qed.

(** The costs between two iterations of the loop of [runUCS]: the cost
    kept for a visited node is the least cost of a way to it, every step
    out of a visited node has been taken into account, and the queue holds
    every node that has a cost and is not visited, at that cost. *)
Definition relaxed (v : list string) (g : gmap string num)
    (x y : string) (k : num) : Prop :=
  y ∈ v ∨
  ∃ gx gy kq, g !! x = Some (Fin gx) ∧ k = Fin kq ∧
              g !! y = Some (Fin gy) ∧ (gy <= gx + kq)%Q.

Record Dijk (pq : list (string * num)) (v : list string)
    (g : gmap string num) (c : option string) (seen : list Neighbor)
    : Prop := {
  dj_asc : ascending pq;
  dj_start : ∃ q, g !! startId = Some (Fin q) ∧ (q <= 0)%Q;
  dj_g : ∀ y n, g !! y = Some n →
         (∃ q, n = Fin q) ∧ (y ∈ v ∨ (y, n) ∈ pq);
  dj_pq : ∀ y n, (y, n) ∈ pq →
          reach problem startId y ∧
          ∃ gy q, g !! y = Some (Fin gy) ∧ n = Fin q ∧ (gy <= q)%Q;
  dj_opt : ∀ x, x ∈ v →
           reach problem startId x ∧
           ∃ gx, g !! x = Some (Fin gx) ∧
                 ∀ w, wcost (Fin w) x → (gx <= w)%Q;
  dj_relax : ∀ x y k, x ∈ v → Some x ≠ c →
             (y, k) ∈ getNeighbors problem x → relaxed v g x y k;
  dj_seen : ∀ x y k, c = Some x → (y, k) ∈ seen → relaxed v g x y k
}.

(** A way to a node that is not visited passes an entry of the queue that
    is not dearer. *)
Lemma way_out pq v g c x :
  Dijk pq v g None [] → wcost c x →
  ∀ w, c = Fin w → x ∉ v → ∃ y gy, (y, Fin gy) ∈ pq ∧ (gy <= w)%Q.
Proof.
  intros HD. induction 1 as [|c b x k Hcb IH Hn]; intros w Hw Hx.
  - injection Hw as <-. destruct (dj_start _ _ _ _ _ HD) as (q&Hq&Hle).
    destruct (dj_g _ _ _ _ _ HD _ _ Hq) as [_ [?|Hin]]; [done|].
    by exists startId, q.
  - pose proof (wcost_reach _ _ Hcb) as Hrb.
    pose proof (step_costs b x k Hrb Hn) as Hk.
    destruct c as [cq|]; [|done]. destruct k as [kq|]; [|done].
    simpl in Hk. injection Hw as <-.
    destruct (decide (b ∈ v)) as [Hb|Hb].
    + destruct (dj_relax _ _ _ _ _ HD b x (Fin kq) Hb) as [?|Hr];
        [done|done|done|].
      destruct Hr as (gb&gx&kq'&Hgb&[= <-]&Hgx&Hle).
      destruct (dj_opt _ _ _ _ _ HD b Hb) as (_&gb'&Hgb'&Hmin).
      assert (gb' = gb) as -> by congruence.
      destruct (dj_g _ _ _ _ _ HD _ _ Hgx) as [_ [?|Hin]]; [done|].
      exists x, gx. split; [done|].
      eapply Qle_trans; [exact Hle|].
      apply Qplus_le_compat; [by apply Hmin|apply Qle_refl].
    + destruct (IH cq eq_refl Hb) as (y&gy&Hin&Hle).
      exists y, gy. split; [done|].
      eapply Qle_trans; [exact Hle|].
      rewrite <- (Qplus_0_r cq) at 1.
      apply Qplus_le_compat; [apply Qle_refl|done].
Qed.

(** The node at the head of the queue, when it is not visited, has its
    least cost. *)
Lemma head_least c n rest v g :
  Dijk ((c, n) :: rest) v g None [] → c ∉ v →
  ∃ gc, g !! c = Some (Fin gc) ∧ ∀ w, wcost (Fin w) c → (gc <= w)%Q.
Proof.
  intros HD Hc.
  destruct (dj_pq _ _ _ _ _ HD c n) as (_&gc&q&Hgc&->&Hle);
    [apply list_elem_of_here|].
  exists gc. split; [done|]. intros w Hw.
  destruct (way_out _ _ _ _ _ HD Hw w eq_refl Hc) as (y&gy&Hin&Hyw).
  eapply Qle_trans; [exact Hle|]. eapply Qle_trans; [|exact Hyw].
  apply elem_of_cons in Hin as [[= _ <-]|Hin]; [apply Qle_refl|].
  destruct (ascending_head _ _ _ _ (dj_asc _ _ _ _ _ HD) Hin)
    as (q'&Hq'&?).
  simpl in Hq'. by injection Hq' as <-.
Qed.

(** The head of the queue was visited before: it is dropped. *)
Lemma dijk_skip c n rest v g :
  Dijk ((c, n) :: rest) v g None [] → c ∈ v → Dijk rest v g None [].
Proof.
  intros HD Hc. split.
  - eapply ascending_tail, HD.
  - apply HD.
  - intros y m Hy. destruct (dj_g _ _ _ _ _ HD y m Hy) as [? [?|Hin]];
      (split; [done|]); [by left|].
    apply elem_of_cons in Hin as [[= -> _]|?]; [by left|by right].
  - intros y m Hy. apply (dj_pq _ _ _ _ _ HD). by apply list_elem_of_further.
  - apply (dj_opt _ _ _ _ _ HD).
  - apply (dj_relax _ _ _ _ _ HD).
  - done.
Qed.

(** The head of the queue is visited now; none of its neighbors has been
    looked at. *)
Lemma dijk_enter c n rest v g :
  Dijk ((c, n) :: rest) v g None [] → c ∉ v →
  Dijk rest (v ++ [c]) g (Some c) [].
Proof.
  intros HD Hc. destruct (head_least _ _ _ _ _ HD Hc) as (gc&Hgc&Hmin).
  split.
  - eapply ascending_tail, HD.
  - apply HD.
  - intros y m Hy. destruct (dj_g _ _ _ _ _ HD y m Hy) as [? [?|Hin]];
      (split; [done|]).
    + left. apply elem_of_app. by left.
    + apply elem_of_cons in Hin as [[= -> _]|?]; [|by right].
      left. apply elem_of_app. right. by apply list_elem_of_singleton.
  - intros y m Hy. apply (dj_pq _ _ _ _ _ HD). by apply list_elem_of_further.
  - intros x [Hx| ->%list_elem_of_singleton]%elem_of_app.
    + by apply (dj_opt _ _ _ _ _ HD).
    + split; [|by exists gc].
      apply (dj_pq _ _ _ _ _ HD c n), list_elem_of_here.
  - intros x y k [Hx| ->%list_elem_of_singleton]%elem_of_app Hxc Hn;
      [|done].
    destruct (dj_relax _ _ _ _ _ HD x y k Hx) as [?|?];
      [done|done| |by right].
    left. apply elem_of_app. by left.
  - intros x y k _ Hin. by apply elem_of_nil in Hin.
Qed.

Definition DijkL (c : option string) (seen : list Neighbor)
    (st : Live PriorityQueue.t) : Prop :=
  Dijk (l_frontier st) (l_visited st) (l_g st) c seen.

Lemma enqueue_keeps_order x q (pq : list (string * num)) :
  ascending pq → ascending (PriorityQueue.enqueue x (Fin q) pq).
Proof.
  intros Ha. apply stable_sort_ascending. intros j Hj.
  apply elem_of_app in Hj as [Hj| ->%list_elem_of_singleton]; [|by exists q].
  destruct (ascending_finite _ _ Ha Hj) as [p Hp]. exists p.
  unfold finitePriority in Hp. by destruct (snd j); simplify_eq.
Qed.

Lemma elem_of_enqueue j x n (pq : list (string * num)) :
  j ∈ PriorityQueue.enqueue x n pq ↔ j ∈ pq ∨ j = (x, n).
Proof.
  unfold PriorityQueue.enqueue.
  by rewrite elem_of_stable_sort, elem_of_app, list_elem_of_singleton.
Qed.

(** A lower cost for a node that is not visited keeps a step relaxed. *)
Lemma relaxed_lower v g x z k y q :
  relaxed v g x z k → x ≠ y →
  (∀ go, g !! y = Some (Fin go) → (q < go)%Q) →
  relaxed v (<[y := Fin q]> g) x z k.
Proof.
  intros [?|(gx&gz&kq&Hgx&->&Hgz&Hle)] Hxy Hlow; [by left|right].
  destruct (decide (z = y)) as [->|Hzy].
  - exists gx, q, kq. rewrite lookup_insert_eq, lookup_insert_ne by done.
    split_and!; [done..|].
    eapply Qle_trans; [|exact Hle]. by apply Qlt_le_weak, Hlow.
  - exists gx, gz, kq. by rewrite !lookup_insert_ne by done.
Qed.

(** One neighbor of the current node. *)
Lemma dijk_visit c seen st n :
  DijkL (Some c) seen st → c ∈ l_visited st →
  n ∈ getNeighbors problem c →
  DijkL (Some c) (seen ++ [n]) (ucsVisit c st n).
Proof.
  intros HD Hcv Hn. destruct n as [y k]. unfold DijkL in *.
  destruct (dj_opt _ _ _ _ _ HD c Hcv) as (Hrc&gc&Hgc&_).
  pose proof (step_costs c y k Hrc Hn) as Hk.
  destruct k as [kq|]; [|done]. simpl in Hk.
  unfold ucsVisit. cbn [fst snd].
  destruct (has (l_visited st) y) eqn:Hv; cbn [negb].
  { apply has_true in Hv.
    split; [apply HD|apply HD|apply (dj_g _ _ _ _ _ HD)
           |apply (dj_pq _ _ _ _ _ HD)|apply (dj_opt _ _ _ _ _ HD)
           |apply (dj_relax _ _ _ _ _ HD)|].
    intros x z k' Hx [Hin|[= -> ->]%list_elem_of_singleton]%elem_of_app.
    - by apply (dj_seen _ _ _ _ _ HD).
    - by left. }
  apply has_false in Hv. rewrite Hgc. cbn [numOf nadd].
  destruct (improves (Fin (gc + kq)) (l_g st !! y)) eqn:Himp.
  - (* the cost of [y] is set or lowered *)
    assert (∀ go, l_g st !! y = Some (Fin go) → (gc + kq < go)%Q) as Hlow.
    { intros go Hgo. rewrite Hgo in Himp. by apply nlt_Fin in Himp. }
    simpl. split.
    + apply enqueue_keeps_order, HD.
    + destruct (dj_start _ _ _ _ _ HD) as (q&Hq&Hle).
      destruct (decide (y = startId)) as [->|Hne].
      * exists (gc + kq)%Q. rewrite lookup_insert_eq. split; [done|].
        eapply Qle_trans; [|exact Hle]. by apply Qlt_le_weak, Hlow.
      * exists q. by rewrite lookup_insert_ne.
    + intros z m Hz. rewrite elem_of_enqueue.
      destruct (decide (z = y)) as [->|Hne].
      * rewrite lookup_insert_eq in Hz. injection Hz as <-.
        split; [by eexists|]. right. by right.
      * rewrite lookup_insert_ne in Hz by done.
        destruct (dj_g _ _ _ _ _ HD z m Hz) as [? [?|?]]; auto.
    + intros z m Hz. apply elem_of_enqueue in Hz as [Hz|[= -> ->]].
      * destruct (dj_pq _ _ _ _ _ HD z m Hz) as (Hr&gz&q&Hgz&->&Hle).
        split; [done|]. destruct (decide (z = y)) as [->|Hne].
        -- exists (gc + kq)%Q, q. rewrite lookup_insert_eq.
           split_and!; [done..|].
           eapply Qle_trans; [|exact Hle]. by apply Qlt_le_weak, Hlow.
        -- exists gz, q. by rewrite lookup_insert_ne.
      * split.
        -- eapply rtc_r; [exact Hrc|]. by exists (Fin kq).
        -- exists (gc + kq)%Q, (gc + kq)%Q. rewrite lookup_insert_eq.
           split_and!; [done..|apply Qle_refl].
    + intros x Hx. destruct (dj_opt _ _ _ _ _ HD x Hx) as (Hr&gx&Hgx&Hmin).
      split; [done|]. exists gx. split; [|done].
      rewrite lookup_insert_ne; [done|]. by intros ->.
    + intros x z k' Hx Hxc Hxn. apply relaxed_lower; [|by intros ->|done].
      by apply (dj_relax _ _ _ _ _ HD).
    + intros x z k' [= <-] [Hin|[= -> ->]%list_elem_of_singleton]%elem_of_app.
      * apply relaxed_lower; [|by intros ->|done].
        by apply (dj_seen _ _ _ _ _ HD).
      * right. exists gc, (gc + kq)%Q, kq.
        rewrite lookup_insert_eq, lookup_insert_ne by by intros ->.
        split_and!; [done..|apply Qle_refl].
  - (* the cost of [y] stays *)
    unfold improves in Himp. destruct (l_g st !! y) as [go|] eqn:Hgy; [|done].
    destruct (dj_g _ _ _ _ _ HD y go Hgy) as [[q ->] _].
    apply nlt_Fin_false in Himp.
    split; [apply HD|apply HD|apply (dj_g _ _ _ _ _ HD)
           |apply (dj_pq _ _ _ _ _ HD)|apply (dj_opt _ _ _ _ _ HD)
           |apply (dj_relax _ _ _ _ _ HD)|].
    intros x z k' [= <-] [Hin|[= -> ->]%list_elem_of_singleton]%elem_of_app.
    + by apply (dj_seen _ _ _ _ _ HD).
    + right. by exists gc, q, kq.
Qed.

Lemma visited_ucsVisit c st n : l_visited (ucsVisit c st n) = l_visited st.
Proof.
  unfold ucsVisit. destruct (negb _); [|done]. by destruct (improves _ _).
Qed.

Lemma dijk_fold c ns :
  ∀ seen st, DijkL (Some c) seen st → c ∈ l_visited st →
  (∀ n, n ∈ ns → n ∈ getNeighbors problem c) →
  DijkL (Some c) (seen ++ ns) (fold_left (ucsVisit c) ns st).
Proof.
  induction ns as [|n ns IH]; intros seen st HD Hc Hns.
  { by rewrite app_nil_r. }
  simpl. replace (seen ++ n :: ns) with ((seen ++ [n]) ++ ns)
    by by rewrite <- app_assoc.
  apply IH.
  - apply dijk_visit; [done..|]. apply Hns, list_elem_of_here.
  - by rewrite visited_ucsVisit.
  - intros m Hm. by apply Hns, list_elem_of_further.
Qed.

(** All neighbors of the current node have been looked at. *)
Lemma dijk_leave c pq v g :
  Dijk pq v g (Some c) (getNeighbors problem c) → Dijk pq v g None [].
Proof.
  intros HD.
  split; [apply HD|apply HD|apply (dj_g _ _ _ _ _ HD)
         |apply (dj_pq _ _ _ _ _ HD)|apply (dj_opt _ _ _ _ _ HD)| |done].
  intros x y k Hx _ Hn. destruct (decide (x = c)) as [->|Hxc].
  - by apply (dj_seen _ _ _ _ _ HD c).
  - apply (dj_relax _ _ _ _ _ HD x y k Hx); [congruence|done].
Qed.

Definition UcsInv (st : Live PriorityQueue.t) : Prop := DijkL None [] st.

Lemma ucs_invariant_step st st' :
  UcsInv st → ucsBody problem goalId st = inl st' → UcsInv st'.
Proof.
  unfold UcsInv, DijkL, ucsBody. intros HD.
  destruct (l_frontier st) as [|[c n] rest] eqn:Hfr; [done|]. simpl.
  destruct (has (l_visited st) c) eqn:Hv.
  - apply has_true in Hv. intros [= <-]. simpl. by eapply dijk_skip.
  - apply has_false in Hv. rewrite (add_new _ _ Hv).
    destruct (String.eqb c goalId);
      [by destruct (reconstructPath _ _)|].
    intros [= <-]. simpl.
    apply (dijk_leave c).
    set (st1 := withVisited (l_visited st ++ [c]) (withFrontier rest st)).
    apply (dijk_fold c (getNeighbors problem c) [] st1).
    + unfold DijkL, st1. simpl. by eapply dijk_enter.
    + unfold st1. simpl. apply elem_of_app. right.
      by apply list_elem_of_singleton.
    + done.
Qed.

Lemma ucs_invariant_exit st r :
  UcsInv st → ucsBody problem goalId st = inr (Returned r) →
  success r = true →
  ∃ q, pathCost r = Some (Fin q) ∧ ∀ w, wcost (Fin w) goalId → (q <= w)%Q.
Proof.
  unfold UcsInv, DijkL, ucsBody. intros HD.
  destruct (l_frontier st) as [|[c n] rest] eqn:Hfr.
  { intros [= <-]. done. }
  simpl. destruct (has (l_visited st) c) eqn:Hv; [done|].
  apply has_false in Hv. rewrite (add_new _ _ Hv).
  destruct (String.eqb c goalId) eqn:Heq; [|done].
  apply eqb_true in Heq. subst c.
  destruct (head_least _ _ _ _ _ HD Hv) as (gc&Hgc&Hmin).
  destruct (reconstructPath _ _); [|done].
  intros [= <-] _. simpl. by exists gc.
Qed.

Lemma ucs_invariant_init step0 :
  UcsInv (initial (PriorityQueue.enqueue startId (Fin 0) PriorityQueue.empty)
            [] {[ startId := Fin 0 ]} ∅ ∅ step0).
Proof.
  unfold UcsInv, DijkL. simpl.
  change (PriorityQueue.enqueue startId (Fin 0) PriorityQueue.empty)
    with [(startId, Fin 0)].
  split.
  - apply ascending_cons; [done|]. intros j Hj. by apply elem_of_nil in Hj.
  - exists 0%Q. by rewrite lookup_singleton_eq.
  - intros y n [<- <-]%lookup_singleton_Some. split; [by eexists|].
    right. apply list_elem_of_here.
  - intros y n [= -> ->]%list_elem_of_singleton. split; [apply rtc_refl|].
    exists 0%Q, 0%Q. by rewrite lookup_singleton_eq.
  - intros x Hx. by apply elem_of_nil in Hx.
  - intros x y k Hx. by apply elem_of_nil in Hx.
  - done.
Qed.

Lemma ucs_least fuel r :
  runUCS fuel problem = Returned r → success r = true →
  ∃ q, pathCost r = Some (Fin q) ∧ ∀ w, wcost (Fin w) goalId → (q <= w)%Q.
Proof.
  unfold runUCS.
  apply (while_inv (ucsBody problem goalId) UcsInv
           (λ r, success r = true →
              ∃ q, pathCost r = Some (Fin q) ∧
                   ∀ w, wcost (Fin w) goalId → (q <= w)%Q)).
  - apply ucs_invariant_step.
  - apply ucs_invariant_exit.
  - apply ucs_invariant_init.
Qed.
End UcsLeast.

(** The step costs out of the nodes of [universe] are numbers that are not
    negative. *)
Definition stepCostsOk (p : Problem) : bool :=
  forallb (λ x,
    forallb (λ n, match snd n with Fin q => Qle_bool 0 q | NaN => false end)
      (getNeighbors p x))
    (universe p).

Lemma stepCostsOk_sound p :
  stepCostsOk p = true →
  ∀ x y k, reach p (getStartId p) x → (y, k) ∈ getNeighbors p x → nonneg k.
Proof.
  intros H x y k Hx Hn. unfold stepCostsOk in H.
  rewrite forallb_forall in H.
  pose proof (H x) as Hx'. rewrite forallb_forall in Hx'.
  specialize (Hx' (proj1 (list_elem_of_In _ _) (universe_closed p x Hx))
                  (y, k) (proj1 (list_elem_of_In _ _) Hn)).
  simpl in Hx'. destruct k as [q|]; [|done]. simpl.
  by apply Qle_bool_iff.
Qed.



(** ** The page: the comparison list *)

(** [addToComparison()], on the result that the page holds, if any. *)
Definition addToComparison (searchResult : option SearchResult)
    (prev : list SearchResult) : list SearchResult :=
  match searchResult with
  | Some sr =>
      match findIndex (λ r, String.eqb (algorithm r) (algorithm sr)) prev with
      | Some existing => <[existing := sr]> prev
      | None => prev ++ [sr]
      end
  | None => prev
  end.

(** What the user does to the comparison list: add the result that is
    shown, or clear the list. *)
Inductive CompareEvent : Type :=
  | AddResult (searchResult : option SearchResult)
  | ClearComparison.

Definition compareStep (prev : list SearchResult) (e : CompareEvent)
    : list SearchResult :=
  match e with
  | AddResult sr => addToComparison sr prev
  | ClearComparison => []
  end.

Lemma filter_insert_out {A} (P : A → Prop) `{!∀ x, Decision (P x)}
    (l : list A) j x y :
  l !! j = Some x → ¬ P x → ¬ P y → filter P (<[j := y]> l) = filter P l.
Proof.
  revert j. induction l as [|a l IH]; intros j Hj Hx Hy; [done|].
  destruct j as [|j]; simpl in *.
  - injection Hj as ->. by rewrite !filter_cons_False.
  - rewrite !filter_cons. by rewrite (IH j).
Qed.

Lemma addToComparison_NoDup sr prev :
  NoDup (map algorithm prev) →
  NoDup (map algorithm (addToComparison sr prev)).
Proof.
  intros Hnd. destruct sr as [sr|]; [|done]. unfold addToComparison.
  destruct (findIndex _ prev) as [j|] eqn:Hf.
  - apply findIndex_Some in Hf as (x&Hj&Hx&_).
    apply eqb_true in Hx.
    rewrite list_fmap_insert, list_insert_id; [done|].
    by rewrite list_lookup_fmap, Hj, <- Hx.
  - rewrite map_app. apply list.NoDup_app. split_and!; [done| |].
    + intros a Ha ->%list_elem_of_singleton.
      apply list_elem_of_fmap in Ha as (x&Hx&[k Hk]%list_elem_of_lookup).
      apply (findIndex_None _ _ _ _ Hf Hk). by apply String.eqb_eq.
    + apply NoDup_singleton.
Qed.

(** X29. However results are added to the comparison list and the list is
    cleared, the list never holds two results of the same algorithm. *)
Theorem comparison_one_per_algorithm (events : list CompareEvent) :
  NoDup (map algorithm (foldl compareStep [] events)).
Proof.
  assert (∀ l, NoDup (map algorithm l) →
               NoDup (map algorithm (foldl compareStep l events))) as H.
  { induction events as [|e events IH]; intros l Hl; [done|].
    simpl. apply IH. destruct e as [sr|]; simpl.
    - by apply addToComparison_NoDup.
    - apply NoDup_nil_2. }
  apply H. apply NoDup_nil_2.
Qed.

(** X30. Adding a result puts it into the comparison list: it takes the
    place of the first result of the same algorithm if there is one, and
    is appended otherwise; the results of the other algorithms stay as they
    are, in their order. *)
Theorem addToComparison_replaces sr prev :
  let next := addToComparison (Some sr) prev in
  sr ∈ next ∧
  filter (λ r, algorithm r ≠ algorithm sr) next
    = filter (λ r, algorithm r ≠ algorithm sr) prev ∧
  ((∃ j old, prev !! j = Some old ∧ algorithm old = algorithm sr ∧
             (∀ k r, prev !! k = Some r → k < j →
                     algorithm r ≠ algorithm sr) ∧
             next = <[j := sr]> prev) ∨
   ((algorithm sr ∉ map algorithm prev) ∧ next = prev ++ [sr])).
Proof.
  simpl. unfold addToComparison.
  destruct (findIndex _ prev) as [j|] eqn:Hf.
  - apply findIndex_Some in Hf as (x&Hj&Hx&Hfirst). apply eqb_true in Hx.
    split_and!.
    + apply list_elem_of_lookup. exists j.
      apply list_lookup_insert_eq. by eapply lookup_lt_Some.
    + apply (filter_insert_out _ _ _ x); [done| |]; by intros ?.
    + left. exists j, x. split_and!; [done..| |done].
      intros k r Hk Hlt Heq. apply (Hfirst k r Hk Hlt).
      by apply String.eqb_eq.
  - split_and!.
    + apply elem_of_app. right. by apply list_elem_of_singleton.
    + rewrite list.filter_app, filter_cons_False by by intros ?.
      by rewrite filter_nil, app_nil_r.
    + right. split; [|done]. intros Ha.
      apply list_elem_of_fmap in Ha as (x&Hx&[k Hk]%list_elem_of_lookup).
      apply (findIndex_None _ _ _ _ Hf Hk). by apply String.eqb_eq.
Qed.
